(** * YOLO output decoding (onnx/src/yolo_processor.cpp)

    A shallow embedding of [YoloProcessor::GetOffset], [Sigmoid], [Softmax]
    and [GetRecognizedObjects], over IEEE-754 binary32 ([float]) and
    binary64 ([double]) arithmetic as specified by [SpecFloat], and 32-bit
    [int] arithmetic written as [Z] with explicit wrap-around. *)

From Stdlib Require Import ZArith Lia Bool String Reals Lra.
From Stdlib Require Import Floats.SpecFloat.
From stdpp Require Import base option list.

Local Open Scope Z_scope.

(** ** Machine numbers *)

(** [int]: 32-bit two's complement, wrap-around written out. *)
Module Int.
Definition min_int : Z := - 2 ^ 31.
Definition max_int : Z := 2 ^ 31 - 1.
Definition wrap (z : Z) : Z := (z + 2 ^ 31) mod 2 ^ 32 - 2 ^ 31.
Definition add (a b : Z) : Z := wrap (a + b).
Definition mul (a b : Z) : Z := wrap (a * b).
Definition in_range (z : Z) : Prop := min_int <= z <= max_int.
End Int.

(** [double]: IEEE-754 binary64, round to nearest even. *)
Module F64.
Definition prec : Z := 53.
Definition emax : Z := 1024.
Definition zero : spec_float := S754_zero false.
Definition add : spec_float -> spec_float -> spec_float := SFadd prec emax.
(** float -> double promotion (exact). *)
Definition of_float (x : spec_float) : spec_float :=
  match x with
  | S754_finite s m e => binary_round prec emax s m e
  | _ => x
  end.
End F64.

(** [float]: IEEE-754 binary32, round to nearest even. *)
Module F32.
Definition prec : Z := 24.
Definition emax : Z := 128.
Definition add : spec_float -> spec_float -> spec_float := SFadd prec emax.
Definition sub : spec_float -> spec_float -> spec_float := SFsub prec emax.
Definition mul : spec_float -> spec_float -> spec_float := SFmul prec emax.
Definition div : spec_float -> spec_float -> spec_float := SFdiv prec emax.
Definition ltb : spec_float -> spec_float -> bool := SFltb.
Definition leb : spec_float -> spec_float -> bool := SFleb.
Definition valid : spec_float -> bool := valid_binary prec emax.
(** (float)n for an int n. *)
Definition of_int (n : Z) : spec_float := binary_normalize prec emax n 0 false.
(** double -> float narrowing. *)
Definition of_double (x : spec_float) : spec_float :=
  match x with
  | S754_finite s m e => binary_round prec emax s m e
  | _ => x
  end.
(** float -> int conversion: truncation toward zero; undefined for NaN,
    infinities and values outside the range of int. *)
Definition to_int (x : spec_float) : option Z :=
  match x with
  | S754_zero _ => Some 0
  | S754_finite s m e =>
      let a := match e with
               | Zneg p => Z.pos m / 2 ^ Z.pos p
               | _ => Z.pos m * 2 ^ e
               end in
      let v := if s then - a else a in
      if (Int.min_int <=? v) && (v <=? Int.max_int) then Some v else None
  | _ => None
  end.
(** The decimal literal n / 10^k, correctly rounded, e.g. 1.08f. *)
Definition lit (n : Z) (k : Z) : spec_float := div (of_int n) (of_int (10 ^ k)).
Definition zero : spec_float := S754_zero false.
Definition one : spec_float := of_int 1.
Definition half : spec_float := lit 5 1.
Definition nan : spec_float := S754_nan.
Definition infinity : spec_float := S754_infinity false.
Definition is_nan (x : spec_float) : bool :=
  match x with S754_nan => true | _ => false end.
Definition is_finite (x : spec_float) : bool :=
  match x with S754_zero _ | S754_finite _ _ _ => true | _ => false end.
End F32.

Abbreviation float := spec_float.

(** ** The exponential of the C library

    [std::exp] is not part of the repository.  The decoder is stated over an
    arbitrary [exp : float -> float]; [Libm.exp] is a reference
    implementation used to evaluate the decoder on concrete tensors: it
    follows C Annex F at the special values, reduces the argument by
    multiples of ln 2 and sums the Taylor series in 200-bit fixed point, and
    rounds the result to binary32. *)
Module Libm.
Definition N : Z := 200.

(** ln 2 = 2 atanh (1/3), scaled by 2^N. *)
Fixpoint atanh_third (fuel : nat) (k pow acc : Z) : Z :=
  match fuel with
  | O => acc
  | S fuel' => atanh_third fuel' (k + 2) (pow / 9) (acc + pow / k)
  end.

Definition LN2 : Z := Eval vm_compute in 2 * atanh_third 140 1 (2 ^ N / 3) 0.

(** sum of r^k / k!, k >= 1, scaled by 2^N, added to [acc]. *)
Fixpoint exp_taylor (fuel : nat) (k term acc r : Z) : Z :=
  match fuel with
  | O => acc
  | S fuel' =>
      let term' := term * r / (k * 2 ^ N) in
      exp_taylor fuel' (k + 1) term' (acc + term') r
  end.

Definition exp (x : float) : float :=
  match x with
  | S754_nan => S754_nan
  | S754_infinity false => S754_infinity false
  | S754_infinity true => S754_zero false
  | S754_zero _ => F32.one
  | S754_finite s m e =>
      if 9 <=? Z.pos (digits2_pos m) + e
      then (if s then S754_zero false else S754_infinity false)
      else
        let X := Z.shiftl (if s then Z.neg m else Z.pos m) (e + N) in
        let n := (2 * X + LN2) / (2 * LN2) in
        let r := X - n * LN2 in
        let E := exp_taylor 80 1 (2 ^ N) (2 ^ N) r in
        binary_normalize F32.prec F32.emax E (n - N) false
  end.
End Libm.

(** ** Data *)

(** The constants of namespace [yolo], the [labels] table and the [anchors]
    table of [GetRecognizedObjects], gathered in one record so that the
    functions below can also be read at other grid geometries. *)
Record Config := {
  ROW_COUNT : Z;
  COL_COUNT : Z;
  CHANNEL_COUNT : Z;
  BOXES_PER_CELL : Z;
  BOX_INFO_FEATURE_COUNT : Z;
  CLASS_COUNT : Z;
  CELL_WIDTH : float;
  CELL_HEIGHT : float;
  labels : list string;
  anchors : list float
}.

(** The values in the source. *)
Definition yolo : Config := {|
  ROW_COUNT := 13;
  COL_COUNT := 13;
  CHANNEL_COUNT := 125;
  BOXES_PER_CELL := 5;
  BOX_INFO_FEATURE_COUNT := 5;
  CLASS_COUNT := 20;
  CELL_WIDTH := F32.of_int 32;
  CELL_HEIGHT := F32.of_int 32;
  labels :=
    [ "aeroplane"; "bicycle"; "bird"; "boat"; "bottle";
      "bus"; "car"; "cat"; "chair"; "cow";
      "diningtable"; "dog"; "horse"; "motorbike"; "person";
      "pottedplant"; "sheep"; "sofa"; "train"; "tvmonitor" ]%string;
  anchors :=
    [ F32.lit 108 2; F32.lit 119 2; F32.lit 342 2; F32.lit 441 2;
      F32.lit 663 2; F32.lit 1138 2; F32.lit 942 2; F32.lit 511 2;
      F32.lit 1662 2; F32.lit 1052 2 ]
|}.

(** [struct YoloBox], in the order of its initializer. *)
Record YoloBox := {
  label : string;
  x : float;
  y : float;
  width : float;
  height : float;
  confidence : float
}.

(** ** Control and memory *)

(** [v[i]] on a [std::vector] or an array: no bounds check; an index outside
    the container is undefined behaviour, modelled as [None]. *)
Definition at_index {A} (v : list A) (i : Z) : option A :=
  if i <? 0 then None else v !! Z.to_nat i.

(** [for (int i = start; ...; i++) body], run for [n] iterations, threading
    the state [s]; stops at the first undefined step. *)
Fixpoint for_loop {S} (n : nat) (i : Z) (body : Z -> S -> option S) (s : S)
  : option S :=
  match n with
  | O => Some s
  | S n' =>
      match body i s with
      | Some s' => for_loop n' (i + 1) body s'
      | None => None
      end
  end.

(** [for (int i = 0; i < bound; i++) body]. *)
Definition for_upto {S} (bound : Z) (body : Z -> S -> option S) (s : S)
  : option S :=
  for_loop (Z.to_nat bound) 0 body s.

(** [std::max_element]: the scan keeps the first largest element, replacing
    it only by a strictly greater one. *)
Fixpoint max_element_from (largest : nat) (vlargest : float) (i : nat)
  (rest : list float) : nat :=
  match rest with
  | [] => largest
  | v :: rest' =>
      if F32.ltb vlargest v
      then max_element_from i v (S i) rest'
      else max_element_from largest vlargest (S i) rest'
  end.

(** The position returned; [None] stands for [end()] on an empty range. *)
Definition max_element (values : list float) : option nat :=
  match values with
  | [] => None
  | v :: rest => Some (max_element_from 0%nat v 1%nat rest)
  end.

(** ** The processor *)

Section Processor.
Variable exp : float -> float.
Variable cfg : Config.

Definition GetOffset (x y channel : Z) : Z :=
  let channelStride := Int.mul (ROW_COUNT cfg) (COL_COUNT cfg) in
  Int.add (Int.add (Int.mul channel channelStride) (Int.mul y (COL_COUNT cfg))) x.

Definition Sigmoid (value : float) : float :=
  let k := exp value in
  F32.div k (F32.add F32.one k).

(** [Softmax] rewrites [values] in place; the model returns the new
    contents.  Dereferencing [max_element] of an empty vector is
    undefined. *)
Definition Softmax (values : list float) : option (list float) :=
  imax ← max_element values;
  max_val ← values !! imax;
  let values1 := map (fun x => exp (F32.sub x max_val)) values in
  let exptot :=
    F32.of_double
      (fold_left (fun acc x => F64.add acc (F64.of_float x)) values1 F64.zero) in
  Some (map (fun x => F32.div x exptot) values1).

(** The class-reading loop: [classes[i] = modelOutputs[GetOffset(cx, cy, i + classOffset)]],
    where [classOffset] is a float, so the channel is computed in float
    arithmetic and converted back to int. *)
Definition read_class (modelOutputs : list float) (cx cy : Z)
  (classOffset : float) (i : Z) (classes : list float) : option (list float) :=
  ch ← F32.to_int (F32.add (F32.of_int i) classOffset);
  v ← at_index modelOutputs (GetOffset cx cy ch);
  if (0 <=? i) && (i <? Z.of_nat (length classes))
  then Some (<[Z.to_nat i := v]> classes)
  else None.

(** The body of the innermost loop; [continue] leaves [boxes] as it is. *)
Definition anchor_step (modelOutputs : list float) (threshold : float)
  (cy cx b : Z) (boxes : list YoloBox) : option (list YoloBox) :=
  let channel := Int.mul b (Int.add (CLASS_COUNT cfg) (BOX_INFO_FEATURE_COUNT cfg)) in
  tx ← at_index modelOutputs (GetOffset cx cy channel);
  ty ← at_index modelOutputs (GetOffset cx cy (Int.add channel 1));
  tw ← at_index modelOutputs (GetOffset cx cy (Int.add channel 2));
  th ← at_index modelOutputs (GetOffset cx cy (Int.add channel 3));
  tc ← at_index modelOutputs (GetOffset cx cy (Int.add channel 4));
  let x := F32.mul (F32.add (F32.of_int cx) (Sigmoid tx)) (CELL_WIDTH cfg) in
  let y := F32.mul (F32.add (F32.of_int cy) (Sigmoid ty)) (CELL_HEIGHT cfg) in
  aw ← at_index (anchors cfg) (Int.mul b 2);
  ah ← at_index (anchors cfg) (Int.add (Int.mul b 2) 1);
  let width := F32.mul (F32.mul (exp tw) (CELL_WIDTH cfg)) aw in
  let height := F32.mul (F32.mul (exp th) (CELL_HEIGHT cfg)) ah in
  let confidence := Sigmoid tc in
  if F32.ltb confidence threshold then Some boxes
  else
    let classes := replicate (Z.to_nat (CLASS_COUNT cfg)) F32.zero in
    let classOffset := F32.of_int (Int.add channel (BOX_INFO_FEATURE_COUNT cfg)) in
    classes ← for_upto (CLASS_COUNT cfg) (read_class modelOutputs cx cy classOffset) classes;
    classes ← Softmax classes;
    iter ← max_element classes;
    top ← classes !! iter;
    let topScore := F32.mul top confidence in
    let topClass := Z.of_nat iter in
    if F32.ltb topScore threshold then Some boxes
    else
      lbl ← at_index (labels cfg) topClass;
      let top_box := {|
        label := lbl;
        x := F32.sub x (F32.div width (F32.of_int 2));
        y := F32.sub y (F32.div height (F32.of_int 2));
        width := width;
        height := height;
        confidence := topScore
      |} in
      Some (boxes ++ [top_box]).

Definition GetRecognizedObjects (modelOutputs : list float) (threshold : float)
  : option (list YoloBox) :=
  for_upto (ROW_COUNT cfg) (fun cy =>
    for_upto (COL_COUNT cfg) (fun cx =>
      for_upto (BOXES_PER_CELL cfg) (fun b =>
        anchor_step modelOutputs threshold cy cx b))) [].
End Processor.

(** ** Well-formed configurations *)

(** The geometry invariants of the decoder: positive grid, five box fields
    per anchor, [channels = anchorsPerCell * (5 + classCount)], a tensor
    length that fits an [int], one label per class, one (width, height)
    pair per anchor, and class channels that survive the round trip through
    [float] made by [classOffset]. *)
Record cfg_ok (cfg : Config) : Prop := {
  ok_rows : 0 < ROW_COUNT cfg;
  ok_cols : 0 < COL_COUNT cfg;
  ok_boxes : 0 < BOXES_PER_CELL cfg;
  ok_classes : 0 < CLASS_COUNT cfg;
  ok_info : BOX_INFO_FEATURE_COUNT cfg = 5;
  ok_channels :
    CHANNEL_COUNT cfg = BOXES_PER_CELL cfg * (CLASS_COUNT cfg + 5);
  ok_size : ROW_COUNT cfg * COL_COUNT cfg * CHANNEL_COUNT cfg <= Int.max_int;
  ok_labels : Z.of_nat (length (labels cfg)) = CLASS_COUNT cfg;
  ok_anchors : Z.of_nat (length (anchors cfg)) = 2 * BOXES_PER_CELL cfg;
  ok_class_channel : forall b i,
    0 <= b < BOXES_PER_CELL cfg -> 0 <= i < CLASS_COUNT cfg ->
    F32.to_int (F32.add (F32.of_int i) (F32.of_int (b * (CLASS_COUNT cfg + 5) + 5)))
    = Some (b * (CLASS_COUNT cfg + 5) + 5 + i)
}.

(** A decision procedure for [cfg_ok]. *)
Definition check_cfg (cfg : Config) : bool :=
  (0 <? ROW_COUNT cfg) && (0 <? COL_COUNT cfg) && (0 <? BOXES_PER_CELL cfg)
  && (0 <? CLASS_COUNT cfg) && (BOX_INFO_FEATURE_COUNT cfg =? 5)
  && (CHANNEL_COUNT cfg =? BOXES_PER_CELL cfg * (CLASS_COUNT cfg + 5))
  && (ROW_COUNT cfg * COL_COUNT cfg * CHANNEL_COUNT cfg <=? Int.max_int)
  && (Z.of_nat (length (labels cfg)) =? CLASS_COUNT cfg)
  && (Z.of_nat (length (anchors cfg)) =? 2 * BOXES_PER_CELL cfg)
  && forallb (fun b =>
       forallb (fun i =>
         match F32.to_int (F32.add (F32.of_int i)
                 (F32.of_int (b * (CLASS_COUNT cfg + 5) + 5))) with
         | Some ch => ch =? b * (CLASS_COUNT cfg + 5) + 5 + i
         | None => false
         end) (seqZ 0 (CLASS_COUNT cfg))) (seqZ 0 (BOXES_PER_CELL cfg)).

(** The tensor length the configuration expects. *)
Definition tensor_length (cfg : Config) : Z :=
  ROW_COUNT cfg * COL_COUNT cfg * CHANNEL_COUNT cfg.

(** ** The decoder as the specification words it *)

Module Spec.
Section Spec.
Variable exp : float -> float.
Variable cfg : Config.

(** Channel-major index of (cellX, cellY, channel). *)
Definition index (cellX cellY channel : Z) : Z :=
  channel * (ROW_COUNT cfg * COL_COUNT cfg) + cellY * COL_COUNT cfg + cellX.

(** OffsetIndexer as specified: the index in range, IndexOutOfRange
    ([None]) outside. *)
Definition offset (cellX cellY channel : Z) : option Z :=
  if (0 <=? cellX) && (cellX <? COL_COUNT cfg)
     && (0 <=? cellY) && (cellY <? ROW_COUNT cfg)
     && (0 <=? channel) && (channel <? CHANNEL_COUNT cfg)
  then Some (index cellX cellY channel)
  else None.

(** Row-major scan: cy outer, cx middle, anchor inner. *)
Definition scan_order : list (Z * Z * Z) :=
  cy ← seqZ 0 (ROW_COUNT cfg);
  cx ← seqZ 0 (COL_COUNT cfg);
  b ← seqZ 0 (BOXES_PER_CELL cfg);
  [(cy, cx, b)].

(** Steps 1 to 6 for one anchor: [Some None] is a discarded anchor,
    [Some (Some d)] an emitted detection, [None] a read outside the
    tensor or a table. *)
Definition detect (tensor : list float) (threshold : float)
  (a : Z * Z * Z) : option (option YoloBox) :=
  let '(cy, cx, b) := a in
  let channelBase := b * (CLASS_COUNT cfg + 5) in
  tx ← at_index tensor (index cx cy channelBase);
  ty ← at_index tensor (index cx cy (channelBase + 1));
  tw ← at_index tensor (index cx cy (channelBase + 2));
  th ← at_index tensor (index cx cy (channelBase + 3));
  tc ← at_index tensor (index cx cy (channelBase + 4));
  widthScale ← at_index (anchors cfg) (2 * b);
  heightScale ← at_index (anchors cfg) (2 * b + 1);
  let centerX := F32.mul (F32.add (F32.of_int cx) (Sigmoid exp tx)) (CELL_WIDTH cfg) in
  let centerY := F32.mul (F32.add (F32.of_int cy) (Sigmoid exp ty)) (CELL_HEIGHT cfg) in
  let width := F32.mul (F32.mul (exp tw) (CELL_WIDTH cfg)) widthScale in
  let height := F32.mul (F32.mul (exp th) (CELL_HEIGHT cfg)) heightScale in
  let objectness := Sigmoid exp tc in
  if F32.ltb objectness threshold then Some None
  else
    logits ← mapM (fun i => at_index tensor (index cx cy (channelBase + 5 + i)))
                  (seqZ 0 (CLASS_COUNT cfg));
    distribution ← Softmax exp logits;
    topClass ← max_element distribution;
    p ← distribution !! topClass;
    let topScore := F32.mul p objectness in
    if F32.ltb topScore threshold then Some None
    else
      lbl ← labels cfg !! topClass;
      Some (Some {|
        label := lbl;
        x := F32.sub centerX (F32.div width (F32.of_int 2));
        y := F32.sub centerY (F32.div height (F32.of_int 2));
        width := width;
        height := height;
        confidence := topScore
      |}).

(** The detections of the surviving anchors, in scan order. *)
Definition decode (tensor : list float) (threshold : float)
  : option (list YoloBox) :=
  ds ← mapM (detect tensor threshold) scan_order;
  Some (omap (fun d => d) ds).

(** The decoder with the input-size error of the specification: a tensor
    whose length is not rows * cols * channels is rejected ([None]) before
    anything is read. *)
Definition decode_checked (tensor : list float) (threshold : float)
  : option (list YoloBox) :=
  if Z.of_nat (length tensor) =? ROW_COUNT cfg * COL_COUNT cfg * CHANNEL_COUNT cfg
  then decode tensor threshold
  else None.
End Spec.
End Spec.

(** ** Loops as folds *)

(** A fallible step run over a list of loop indices, threading the state. *)
Fixpoint steps {A S} (f : A -> S -> option S) (l : list A) (s : S) : option S :=
  match l with
  | [] => Some s
  | a :: l' =>
      match f a s with
      | Some s' => steps f l' s'
      | None => None
      end
  end.

(** ** Sample configurations and tensors *)

(** [cfg] with another grid and channel count. *)
Definition with_grid (cfg : Config) (rows cols channels : Z) : Config := {|
  ROW_COUNT := rows;
  COL_COUNT := cols;
  CHANNEL_COUNT := channels;
  BOXES_PER_CELL := BOXES_PER_CELL cfg;
  BOX_INFO_FEATURE_COUNT := BOX_INFO_FEATURE_COUNT cfg;
  CLASS_COUNT := CLASS_COUNT cfg;
  CELL_WIDTH := CELL_WIDTH cfg;
  CELL_HEIGHT := CELL_HEIGHT cfg;
  labels := labels cfg;
  anchors := anchors cfg
|}.

(** One cell, one anchor of scale (1.0, 1.0), one class, 32-pixel cells. *)
Definition unit_cell : Config := {|
  ROW_COUNT := 1;
  COL_COUNT := 1;
  CHANNEL_COUNT := 6;
  BOXES_PER_CELL := 1;
  BOX_INFO_FEATURE_COUNT := 5;
  CLASS_COUNT := 1;
  CELL_WIDTH := F32.of_int 32;
  CELL_HEIGHT := F32.of_int 32;
  labels := ["object"%string];
  anchors := [F32.one; F32.one]
|}.

(** The all-zero tensor of [n] entries. *)
Definition zeros (n : nat) : list float := replicate n F32.zero.

(** The all-zero tensor of the size [yolo] expects (13 * 13 * 125). *)
Definition yolo_zeros : list float := zeros (Z.to_nat (tensor_length yolo)).

(** ** Top-class selection as the specification words it *)

(** [k] is the argmax of [distribution] with ties broken by the lowest
    index: no entry exceeds the entry at [k], and every earlier entry is
    strictly smaller (a NaN entry compares with nothing). *)
Definition first_max (distribution : list float) (k : nat) : Prop :=
  exists p, distribution !! k = Some p
  /\ (forall j q, distribution !! j = Some q -> F32.ltb p q = false)
  /\ (forall j q, (j < k)%nat -> distribution !! j = Some q ->
        F32.ltb q p = true \/ F32.is_nan q = true).

(** ** Fields of an anchor *)

(** Field [k] of anchor [b] in cell (cx, cy): 0 to 4 are tx, ty, tw, th and
    the objectness logit, 5 + i is the logit of class i. *)
Definition field (cfg : Config) (tensor : list float) (cy cx b k : Z) : option float :=
  at_index tensor (Spec.index cfg cx cy (b * (CLASS_COUNT cfg + 5) + k)).

(** One cell, one anchor, three classes. *)
Definition three_class : Config := {|
  ROW_COUNT := 1;
  COL_COUNT := 1;
  CHANNEL_COUNT := 8;
  BOXES_PER_CELL := 1;
  BOX_INFO_FEATURE_COUNT := 5;
  CLASS_COUNT := 3;
  CELL_WIDTH := F32.of_int 32;
  CELL_HEIGHT := F32.of_int 32;
  labels := ["first"; "second"; "third"]%string;
  anchors := [F32.one; F32.one]
|}.

(** The detection [three_class] yields on the all-zero tensor at threshold
    0: three tied classes, the first one selected. *)
Definition three_class_box : YoloBox := {|
  label := "first";
  x := F32.zero;
  y := F32.zero;
  width := F32.of_int 32;
  height := F32.of_int 32;
  confidence := F32.div F32.half (F32.of_int 3)
|}.

(** ** Values of floats, for bounds *)

(** value (m, e) <= value (m', e'), where value (m, e) = m * 2^e, stated on
    integers at the smaller of the two exponents. *)
Definition vle (m e m' e' : Z) : Prop :=
  m * 2 ^ (e - Z.min e e') <= m' * 2 ^ (e' - Z.min e e').

(** A float in [+0, 1]: +0, or a positive finite float of value at most 1
    (below the binade of 1, or in it with mantissa 2^(prec-1)). *)
Definition in_unit (prec : Z) (r : float) : Prop :=
  r = S754_zero false
  \/ exists mr er, r = S754_finite false mr er
       /\ (er < 1 - prec \/ (er = 1 - prec /\ Z.pos mr <= 2 ^ (prec - 1))).

(** A valid float that is +0 or positive and finite: what [exp] returns when
    it neither overflows nor is fed a NaN. *)
Definition nonneg_finite (k : float) : Prop :=
  k = S754_zero false
  \/ exists m e, k = S754_finite false m e /\ F32.valid k = true.

(** [tensor] with field [k] of anchor [b] in cell (cx, cy) set to [v]. *)
Definition set_field (cfg : Config) (cy cx b k : Z) (v : float)
  (tensor : list float) : list float :=
  <[Z.to_nat (Spec.index cfg cx cy (b * (CLASS_COUNT cfg + 5) + k)) := v]> tensor.

(** A tensor of the size [yolo] expects, all zero except for anchor 0 of
    cell (0, 0): objectness logit 20 and class logits -200 for every class
    but the first. *)
Definition saturated_tensor : list float :=
  foldr (fun i => set_field yolo 0 0 0 (5 + i) (F32.of_int (-200)))
    (set_field yolo 0 0 0 4 (F32.of_int 20) yolo_zeros)
    (seqZ 1 19).

(** The same tensor with objectness logit 100, where [exp] overflows. *)
Definition overflow_tensor : list float :=
  set_field yolo 0 0 0 4 (F32.of_int 100) yolo_zeros.

(** ** Rounding: the state of a right shift *)

(** After [n] right shifts of a mantissa [q] the record holds [q / 2^n], and
    its round or sticky bit is set only if bits were lost or the initial
    location was already inexact. *)
Definition shr_inv (q : Z) (inexact : Prop) (k : Z) (mrs : shr_record) : Prop :=
  shr_m mrs = q / 2 ^ k
  /\ (orb (shr_r mrs) (shr_s mrs) = true -> q / 2 ^ k * 2 ^ k < q \/ inexact).

(** ** Tactics for the order of floats *)

(** Case analysis on the comparisons inside [SFcompare]. *)
Ltac cmp_cases :=
  repeat match goal with
  | H : context [Z.compare ?a ?b] |- _ => destruct (Z.compare_spec a b)
  | |- context [Z.compare ?a ?b] => destruct (Z.compare_spec a b)
  | H : context [Pos.compare ?a ?b] |- _ => destruct (Pos.compare_spec a b)
  | |- context [Pos.compare ?a ?b] => destruct (Pos.compare_spec a b)
  end.

(** Decides order facts about floats by cases on their constructors. *)
Ltac float_order :=
  unfold F32.ltb, F32.leb, SFltb, SFleb, SFcompare;
  repeat match goal with x : spec_float |- _ => destruct x as [[]|[]| |[] ? ?] end;
  intros; try reflexivity; try discriminate;
  repeat match goal with
  | H : context [Pos.compare_cont Eq ?a ?b] |- _ =>
      change (Pos.compare_cont Eq a b) with (Pos.compare a b) in H
  | |- context [Pos.compare_cont Eq ?a ?b] =>
      change (Pos.compare_cont Eq a b) with (Pos.compare a b)
  end;
  cmp_cases; cbn in *; try reflexivity; try discriminate; try lia.

(** ** Real values of floats *)

(** 2^e as a real number. *)
Definition pow2 (e : Z) : R := powerRZ 2 e.

(** The real number a float stands for (0 for infinities and NaN). *)
Definition B2R (x : float) : R :=
  match x with
  | S754_finite s m e => ((if s then -1 else 1) * (IZR (Z.pos m) * pow2 e))%R
  | _ => 0%R
  end.

(** The exact sum of the values of a list of floats. *)
Definition sumR (l : list float) : R := foldr (fun x acc => (B2R x + acc)%R) 0%R l.

(** +0 or a positive finite float, in any format. *)
Definition nonneg (r : float) : Prop :=
  r = S754_zero false \/ exists m e, r = S754_finite false m e.

(** A valid float in [0, 1]: +0, or positive, finite and of value at most 1.
    This is what [exp] returns on a non-positive argument. *)
Definition unit_float (e : float) : Prop :=
  nonneg_finite e /\ (B2R e <= 1)%R.

(** binary64 accumulation of a list of floats, as in [std::accumulate]
    started from the double 0.0. *)
Definition accumulate (acc : float) (l : list float) : float :=
  fold_left (fun acc x => F64.add acc (F64.of_float x)) l acc.

(** After [j] additions the binary64 accumulator [acc] is within the
    relative error [2 j 2^-52] and the absolute error [2 j 2^-1074] of the
    exact sum [s]. *)
Definition acc_inv (j : Z) (acc : float) (s : R) : Prop :=
  nonneg acc
  /\ ((1 - IZR j * (2 * pow2 (-52))) * s - IZR j * (2 * pow2 (-1074)) <= B2R acc
      <= (1 + IZR j * (2 * pow2 (-52))) * s + IZR j * (2 * pow2 (-1074)))%R.

(** Decides [unit_float] for a float of the binary32 format. *)
Definition check_unit (e : float) : bool :=
  match e with
  | S754_zero false => true
  | S754_finite false m ex =>
      F32.valid e && ((ex <? -23) || ((ex =? -23) && (Z.pos m <=? 2 ^ 23)))
  | _ => false
  end.

(** Four logits with a tie for the maximum: 1.0, -2.0, 0.5, 1.0. *)
Definition sample_logits : list float :=
  [F32.one; F32.of_int (-2); F32.half; F32.one].

(** ** Publishing the detections ([ProcessOutput])

    The ROS and OpenCV objects that [ProcessOutput] writes to are not part
    of the repository: a published message and a log line are recorded as
    events, in the order in which the code issues them, and the pixels of
    the image are kept abstract, the image carrying the list of rectangles
    drawn on it. *)

(** Literals of type [double]. *)
Module Double.
Definition of_int (n : Z) : float :=
  binary_normalize F64.prec F64.emax n 0 false.
(** The decimal literal n / 10^k, correctly rounded, e.g. 0.1. *)
Definition lit (n k : Z) : float :=
  SFdiv F64.prec F64.emax (of_int n) (of_int (10 ^ k)).
End Double.

(** The values of [Marker::type] and [Marker::action] that the code uses. *)
Inductive MarkerType := ARROW.
Inductive MarkerAction := ADD.

(** [visualization_msgs::msg::Marker], the fields that [ProcessOutput]
    sets.  The pose and the scale are doubles, the colour is made of
    floats. *)
Record Marker := {
  frame_id : string;
  stamp : Z;
  ns : string;
  marker_id : Z;
  marker_type : MarkerType;
  action : MarkerAction;
  position_x : float;
  position_y : float;
  position_z : float;
  orientation_x : float;
  orientation_y : float;
  orientation_z : float;
  orientation_w : float;
  scale_x : float;
  scale_y : float;
  scale_z : float;
  color_a : float;
  color_r : float;
  color_g : float;
  color_b : float
}.

(** [cv::Rect]. *)
Record Rect := {
  rect_x : Z;
  rect_y : Z;
  rect_width : Z;
  rect_height : Z
}.

(** A call of [cv::rectangle (image, rec, color, thickness, lineType, shift)]. *)
Record Rectangle := {
  rec : Rect;
  color : Z * Z * Z;
  thickness : Z;
  lineType : Z;
  shift : Z
}.

(** [cv::Mat]: its size, and the rectangles drawn on it so far. *)
Record Mat := {
  rows : Z;
  cols : Z;
  drawn : list Rectangle
}.

(** The members of the processor that [ProcessOutput] reads.  They are
    declared in headers that are not part of the repository;
    [_confidence] is the [float] that [GetRecognizedObjects] takes. *)
Record Members := {
  _fake : bool;
  _debug : bool;
  _confidence : float;
  _label : string;
  _linkName : string
}.

(** What [ProcessOutput] sends out. *)
Inductive Event :=
  | Publish (marker : Marker)
  | Info (format arg : string)
  | PublishImage (frame encoding : string) (image : Mat).

(** The marker built for the box [it] when [count] markers were published
    before it. *)
Definition marker_of (m : Members) (count : Z) (it : YoloBox) : Marker := {|
  frame_id := _linkName m;
  stamp := 0;
  ns := "onnx_object_detection";
  marker_id := count;
  marker_type := ARROW;
  action := ADD;
  position_x := F64.of_float (F32.add (x it) (F32.div (width it) (F32.of_int 2)));
  position_y := F64.of_float (F32.add (y it) (F32.div (height it) (F32.of_int 2)));
  position_z := Double.of_int 0;
  orientation_x := Double.of_int 0;
  orientation_y := Double.of_int 0;
  orientation_z := Double.of_int 0;
  orientation_w := Double.of_int 1;
  scale_x := Double.of_int 1;
  scale_y := Double.lit 1 1;
  scale_z := Double.lit 1 1;
  color_a := F32.of_double (Double.of_int 1);
  color_r := F32.of_double (Double.of_int 0);
  color_g := F32.of_double (Double.of_int 0);
  color_b := F32.of_double (Double.of_int 1)
|}.

(** The bounding box drawn in debug mode: the corner is clamped at 0 and the
    size at what is left of the image.  The four conversions to [int] are
    undefined for NaN, infinities and values outside the range of [int]. *)
Definition debug_box (image : Mat) (it : YoloBox) : option Rect :=
  ix ← F32.to_int (x it);
  let box_x := Z.max ix 0 in
  iy ← F32.to_int (y it);
  let box_y := Z.max iy 0 in
  ih ← F32.to_int (height it);
  let box_height := Z.min (Int.wrap (rows image - box_y)) ih in
  iw ← F32.to_int (width it);
  let box_width := Z.min (Int.wrap (cols image - box_x)) iw in
  Some {| rect_x := box_x; rect_y := box_y;
          rect_width := box_width; rect_height := box_height |}.

(** [cv::rectangle]. *)
Definition rectangle (image : Mat) (r : Rectangle) : Mat :=
  {| rows := rows image; cols := cols image; drawn := drawn image ++ [r] |}.

(** The body of the loop over the boxes; the state is [count], the image
    and the events issued so far. *)
Definition publish_step (m : Members) (it : YoloBox)
  (s : Z * Mat * list Event) : option (Z * Mat * list Event) :=
  let '(count, image, events) := s in
  if String.eqb (label it) (_label m) then
    let marker := marker_of m count it in
    let count := Int.add count 1 in
    let events := events ++ [Publish marker] in
    if _debug m then
      let events := events ++ [Info "matched label: %s" (_label m)] in
      box ← debug_box image it;
      let image :=
        rectangle image {| rec := box; color := (255, 255, 0);
                           thickness := 2; lineType := 8; shift := 0 |} in
      Some (count, image, events)
    else Some (count, image, events)
  else Some (count, image, events).

Section Publisher.
Variable exp : float -> float.
Variable cfg : Config.

(** [ProcessOutput]: the events issued and the image as it is left. *)
Definition ProcessOutput (m : Members) (output : list float) (image : Mat)
  : option (list Event * Mat) :=
  if _fake m then Some ([], image)
  else
    boxes ← GetRecognizedObjects exp cfg output (_confidence m);
    '(_, image, events) ← steps (publish_step m) boxes (0, image, []);
    Some (events ++ [PublishImage (_linkName m) "bgr8" image], image).
End Publisher.

(** The markers among a list of events, in order. *)
Definition published_markers (events : list Event) : list Marker :=
  omap (fun e => match e with Publish marker => Some marker | _ => None end) events.

(** The boxes that carry the label of the processor. *)
Definition matched (m : Members) (boxes : list YoloBox) : list YoloBox :=
  List.filter (fun it => String.eqb (label it) (_label m)) boxes.

(** A rectangle that starts inside the image and does not reach beyond its
    right and bottom edges. *)
Definition inside (image : Mat) (r : Rect) : Prop :=
  0 <= rect_x r /\ 0 <= rect_y r
  /\ rect_x r + rect_width r <= cols image
  /\ rect_y r + rect_height r <= rows image.

(** The call of [cv::rectangle] that debug mode makes for the box [box]. *)
Definition debug_rectangle (box : Rect) : Rectangle :=
  {| rec := box; color := (255, 255, 0); thickness := 2; lineType := 8; shift := 0 |}.

(** What the loop of [ProcessOutput] issues for the matched boxes [its], the
    first of them being numbered [count]: a marker per box, followed by a
    log line in debug mode. *)
Fixpoint matched_events (m : Members) (count : Z) (its : list YoloBox)
  : list Event :=
  match its with
  | [] => []
  | it :: its' =>
      Publish (marker_of m count it)
      :: (if _debug m then [Info "matched label: %s" (_label m)] else [])
      ++ matched_events m (count + 1) its'
  end.

(** The four fields of a box that debug mode converts to [int] can all be
    converted. *)
Definition convertible (it : YoloBox) : Prop :=
  is_Some (F32.to_int (x it)) /\ is_Some (F32.to_int (y it))
  /\ is_Some (F32.to_int (height it)) /\ is_Some (F32.to_int (width it)).

(** Where a marker points. *)
Definition position (marker : Marker) : float * float * float :=
  (position_x marker, position_y marker, position_z marker).

(** A processor that looks for the label "first", with debugging on, and a
    416 x 416 image on which nothing has been drawn. *)
Definition sample_members : Members :=
  {| _fake := false; _debug := true; _confidence := F32.zero;
     _label := "first"; _linkName := "camera" |}.

Definition sample_image : Mat := {| rows := 416; cols := 416; drawn := [] |}.

(** The same processor with threshold 0.4 and debugging off. *)
Definition strict_members : Members :=
  {| _fake := false; _debug := false; _confidence := F32.lit 4 1;
     _label := "first"; _linkName := "camera" |}.

(** ** Probabilities *)

(** A float of value in [0, 1] as binary32 writes it: +0, or positive with
    an exponent of at most -23 and a mantissa of at most 2^(-exponent). *)
Definition unit_repr (r : float) : Prop :=
  r = S754_zero false
  \/ exists m e, r = S754_finite false m e /\ e <= -23 /\ Z.pos m <= 2 ^ (- e).

(** Plus infinity, +0 or a positive finite float: what an accumulator of
    terms that are not negative can hold. *)
Definition nonneg_or_inf (acc : float) : Prop :=
  acc = S754_infinity false \/ nonneg acc.

(** Plus infinity, or a positive finite float of value at least 1. *)
Definition at_least_one (acc : float) : Prop :=
  acc = S754_infinity false
  \/ exists m e, acc = S754_finite false m e /\ (1 <= B2R acc)%R.

(** ** 32-bit arithmetic *)

Lemma wrap_id z : Int.in_range z -> Int.wrap z = z.
Proof.
  unfold Int.in_range, Int.min_int, Int.max_int, Int.wrap. intros H.
  rewrite Z.mod_small; lia.
Qed.

Lemma wrap_shift a k : Int.wrap (a + k * 2 ^ 32) = Int.wrap a.
Proof.
  unfold Int.wrap.
  replace (a + k * 2 ^ 32 + 2 ^ 31) with (a + 2 ^ 31 + k * 2 ^ 32) by ring.
  now rewrite Z_mod_plus_full.
Qed.

Lemma wrap_ex z : exists k, Int.wrap z = z + k * 2 ^ 32.
Proof.
  exists (- ((z + 2 ^ 31) / 2 ^ 32)). unfold Int.wrap.
  rewrite Z.mod_eq by lia. ring.
Qed.

Lemma GetOffset_wrap cfg x y channel :
  GetOffset cfg x y channel = Int.wrap (Spec.index cfg x y channel).
Proof.
  unfold GetOffset, Spec.index, Int.add, Int.mul.
  destruct (wrap_ex (ROW_COUNT cfg * COL_COUNT cfg)) as [k1 ->].
  destruct (wrap_ex (channel * (ROW_COUNT cfg * COL_COUNT cfg + k1 * 2 ^ 32))) as [k2 ->].
  destruct (wrap_ex (y * COL_COUNT cfg)) as [k3 ->].
  match goal with |- Int.wrap (Int.wrap ?a + _) = _ =>
    destruct (wrap_ex a) as [k4 ->] end.
  match goal with |- Int.wrap ?a = Int.wrap ?b =>
    replace a with (b + (channel * k1 + k2 + k3 + k4) * 2 ^ 32) by ring end.
  apply wrap_shift.
Qed.

Lemma index_bounds cfg x y channel :
  0 <= x < COL_COUNT cfg -> 0 <= y < ROW_COUNT cfg ->
  0 <= channel < CHANNEL_COUNT cfg ->
  0 <= Spec.index cfg x y channel < tensor_length cfg.
Proof.
  unfold Spec.index, tensor_length. intros Hx Hy Hc.
  assert (0 <= ROW_COUNT cfg * COL_COUNT cfg) by nia.
  assert (0 <= channel * (ROW_COUNT cfg * COL_COUNT cfg)) by nia.
  assert (0 <= y * COL_COUNT cfg) by nia.
  split; [lia|].
  assert (channel + 1 <= CHANNEL_COUNT cfg) by lia.
  assert (y + 1 <= ROW_COUNT cfg) by lia.
  assert ((channel + 1) * (ROW_COUNT cfg * COL_COUNT cfg)
          <= CHANNEL_COUNT cfg * (ROW_COUNT cfg * COL_COUNT cfg)) by nia.
  assert ((y + 1) * COL_COUNT cfg <= ROW_COUNT cfg * COL_COUNT cfg) by nia.
  nia.
Qed.

Lemma GetOffset_in_range cfg x y channel :
  tensor_length cfg <= Int.max_int ->
  0 <= x < COL_COUNT cfg -> 0 <= y < ROW_COUNT cfg ->
  0 <= channel < CHANNEL_COUNT cfg ->
  GetOffset cfg x y channel = Spec.index cfg x y channel.
Proof.
  intros Hsz Hx Hy Hc. rewrite GetOffset_wrap. apply wrap_id.
  pose proof (index_bounds cfg x y channel Hx Hy Hc).
  unfold Int.in_range, Int.min_int. lia.
Qed.

(** ** Loops *)

Lemma for_loop_steps {S} n i (body : Z -> S -> option S) s :
  for_loop n i body s = steps body (seqZ i (Z.of_nat n)) s.
Proof.
  revert i s. induction n as [|n IH]; intros i s; [reflexivity|].
  rewrite seqZ_cons by lia. cbn [for_loop steps].
  destruct (body i s) as [s'|]; [|reflexivity].
  rewrite IH. do 2 f_equal; lia.
Qed.

Lemma for_upto_steps {S} bound (body : Z -> S -> option S) s :
  for_upto bound body s = steps body (seqZ 0 bound) s.
Proof.
  unfold for_upto. rewrite for_loop_steps.
  destruct (Z_lt_le_dec bound 0).
  - unfold seqZ. rewrite Nat2Z.id. reflexivity.
  - now rewrite Z2Nat.id by lia.
Qed.

Lemma steps_ext_in {A S} (f g : A -> S -> option S) l s :
  (forall a s', a ∈ l -> f a s' = g a s') -> steps f l s = steps g l s.
Proof.
  revert s. induction l as [|a l IH]; intros s H; [reflexivity|]. cbn.
  rewrite <- (H a s) by (apply elem_of_cons; now left).
  destruct (f a s); [|reflexivity]. apply IH. intros; apply H.
  apply elem_of_cons; now right.
Qed.

Lemma steps_app {A S} (f : A -> S -> option S) l1 l2 s :
  steps f (l1 ++ l2) s = s' ← steps f l1 s; steps f l2 s'.
Proof.
  revert s. induction l1 as [|a l1 IH]; intros s; [reflexivity|]. cbn.
  destruct (f a s); [apply IH|reflexivity].
Qed.

Lemma steps_bind {A B S} (f : B -> S -> option S) (k : A -> list B) l s :
  steps f (l ≫= k) s = steps (fun a => steps f (k a)) l s.
Proof.
  revert s. induction l as [|a l IH]; intros s; [reflexivity|].
  cbn. rewrite steps_app. destruct (steps f (k a) s); cbn; [apply IH|reflexivity].
Qed.

Lemma steps_singleton {A S} (f : A -> S -> option S) a s :
  steps f [a] s = f a s.
Proof. cbn. now destruct (f a s). Qed.

Lemma steps_ext {A S} (f g : A -> S -> option S) l s :
  (forall a s', f a s' = g a s') -> steps f l s = steps g l s.
Proof. intros H. apply steps_ext_in. intros; apply H. Qed.

(** Three nested counting loops run their body over the lexicographic
    enumeration of the index triples. *)
Lemma steps_nest3 {S} (f : Z -> Z -> Z -> S -> option S) n1 n2 n3 s :
  for_upto n1 (fun a => for_upto n2 (fun b => for_upto n3 (f a b))) s
  = steps (fun t => f t.1.1 t.1.2 t.2)
      (a ← seqZ 0 n1; b ← seqZ 0 n2; c ← seqZ 0 n3; [(a, b, c)]) s.
Proof.
  rewrite for_upto_steps, steps_bind. apply steps_ext. intros a s1.
  rewrite for_upto_steps, steps_bind. apply steps_ext. intros b s2.
  rewrite for_upto_steps, steps_bind. apply steps_ext. intros c s3.
  now rewrite steps_singleton.
Qed.

(** Steps that append what a detector yields collect its results in order. *)
Lemma steps_collect {A B} (f : A -> list B -> option (list B))
  (d : A -> option (option B)) l s :
  (forall a s', a ∈ l -> f a s' = o ← d a; Some (s' ++ option_list o)) ->
  steps f l s = os ← mapM d l; Some (s ++ omap (fun d => d) os).
Proof.
  revert s. induction l as [|a l IH]; intros s H.
  - cbn. now rewrite app_nil_r.
  - cbn. rewrite (H a s) by (apply elem_of_cons; now left).
    destruct (d a) as [o|]; cbn; [|reflexivity].
    rewrite IH by (intros; apply H; apply elem_of_cons; now right).
    destruct (mapM d l) as [os|]; cbn; [|reflexivity].
    f_equal. destruct o; cbn; [now rewrite <- app_assoc|now rewrite app_nil_r].
Qed.

Lemma elem_of_scan_order cfg cy cx b :
  (cy, cx, b) ∈ Spec.scan_order cfg <->
  0 <= cy < ROW_COUNT cfg /\ 0 <= cx < COL_COUNT cfg /\ 0 <= b < BOXES_PER_CELL cfg.
Proof.
  unfold Spec.scan_order. rewrite list_elem_of_bind. split.
  - intros (cy' & H & Hcy). apply list_elem_of_bind in H as (cx' & H & Hcx).
    apply list_elem_of_bind in H as (b' & H & Hb).
    apply list_elem_of_singleton in H. inversion H; subst.
    rewrite !elem_of_seqZ in *. lia.
  - intros (Hcy & Hcx & Hb). exists cy. split; [|apply elem_of_seqZ; lia].
    apply list_elem_of_bind. exists cx. split; [|apply elem_of_seqZ; lia].
    apply list_elem_of_bind. exists b. split; [|apply elem_of_seqZ; lia].
    apply list_elem_of_singleton. reflexivity.
Qed.

(** ** The class-reading loop *)

Lemma fill_steps (g : Z -> option float) (body : Z -> list float -> option (list float)) z n :
  forall i pre, Z.of_nat (length pre) = i ->
  (forall j classes, i <= j < i + Z.of_nat n ->
     body j classes =
       v ← g j;
       if (0 <=? j) && (j <? Z.of_nat (length classes))
       then Some (<[Z.to_nat j := v]> classes) else None) ->
  steps body (seqZ i (Z.of_nat n)) (pre ++ replicate n z)
  = vs ← mapM g (seqZ i (Z.of_nat n)); Some (pre ++ vs).
Proof.
  induction n as [|n IH]; intros i pre Hlen Hbody; [reflexivity|].
  rewrite seqZ_cons by lia. cbn [steps mapM replicate].
  rewrite Hbody by lia. cbn.
  destruct (g i) as [v|]; cbn; [|reflexivity].
  rewrite length_app. cbn [length]. rewrite length_replicate.
  replace ((0 <=? i) && (i <? Z.of_nat (length pre + S n))) with true
    by (symmetry; apply andb_true_iff; split; [apply Z.leb_le|apply Z.ltb_lt]; lia).
  replace (Z.to_nat i) with (length pre + 0)%nat by lia.
  rewrite insert_app_r. cbn.
  replace (pre ++ v :: replicate n z) with ((pre ++ [v]) ++ replicate n z)
    by now rewrite <- app_assoc.
  replace (Z.pred (Z.of_nat (S n))) with (Z.of_nat n) by lia.
  rewrite (IH (Z.succ i) (pre ++ [v])).
  - destruct (mapM g (seqZ (Z.succ i) (Z.of_nat n))); cbn; [|reflexivity].
    now rewrite <- app_assoc.
  - rewrite length_app. cbn. lia.
  - intros j classes Hj. apply Hbody. lia.
Qed.

Lemma at_index_of_nat {A} (l : list A) (n : nat) : at_index l (Z.of_nat n) = l !! n.
Proof.
  unfold at_index. destruct (Z.ltb_spec (Z.of_nat n) 0); [lia|]. now rewrite Nat2Z.id.
Qed.

Section Refinement.
Variable exp : float -> float.
Variable cfg : Config.
Hypothesis Hok : cfg_ok cfg.

Lemma class_loop tensor cx cy b :
  0 <= cx < COL_COUNT cfg -> 0 <= cy < ROW_COUNT cfg ->
  0 <= b < BOXES_PER_CELL cfg ->
  for_upto (CLASS_COUNT cfg)
    (read_class cfg tensor cx cy (F32.of_int (b * (CLASS_COUNT cfg + 5) + 5)))
    (replicate (Z.to_nat (CLASS_COUNT cfg)) F32.zero)
  = mapM (fun i => at_index tensor (Spec.index cfg cx cy (b * (CLASS_COUNT cfg + 5) + 5 + i)))
      (seqZ 0 (CLASS_COUNT cfg)).
Proof.
  intros Hcx Hcy Hb.
  destruct Hok as [Hr Hc HB HC HF Hch Hsz Hl Ha Hcc]. rewrite for_upto_steps.
  set (g := fun i => at_index tensor
    (Spec.index cfg cx cy (b * (CLASS_COUNT cfg + 5) + 5 + i))).
  pose proof (fill_steps g
    (read_class cfg tensor cx cy (F32.of_int (b * (CLASS_COUNT cfg + 5) + 5)))
    F32.zero (Z.to_nat (CLASS_COUNT cfg)) 0 [] eq_refl) as E.
  rewrite Z2Nat.id in E by lia. cbn [app] in E. rewrite E.
  - now destruct (mapM _ _).
  - intros j classes Hj. unfold read_class, g.
    rewrite Hcc by lia. cbn.
    rewrite GetOffset_in_range; [reflexivity| |assumption..|].
    + unfold tensor_length; lia.
    + rewrite Hch. nia.
Qed.

Lemma anchor_step_detect tensor threshold cy cx b boxes :
  0 <= cy < ROW_COUNT cfg -> 0 <= cx < COL_COUNT cfg ->
  0 <= b < BOXES_PER_CELL cfg ->
  anchor_step exp cfg tensor threshold cy cx b boxes
  = o ← Spec.detect exp cfg tensor threshold (cy, cx, b);
    Some (boxes ++ option_list o).
Proof.
  intros Hcy Hcx Hb.
  pose proof (class_loop tensor cx cy b Hcx Hcy Hb) as Hloop.
  destruct Hok as [Hr Hc HB HC HF Hch Hsz Hl Ha Hcc].
  unfold anchor_step, Spec.detect.
  set (base := b * (CLASS_COUNT cfg + 5)) in *.
  assert (Hbase : 0 <= base /\ base + CLASS_COUNT cfg + 5 <= CHANNEL_COUNT cfg)
    by (unfold base; rewrite Hch;
        assert ((b + 1) * (CLASS_COUNT cfg + 5)
                <= BOXES_PER_CELL cfg * (CLASS_COUNT cfg + 5))
          by (apply Z.mul_le_mono_nonneg_r; lia); nia).
  assert (Hmax : CHANNEL_COUNT cfg <= Int.max_int)
    by (assert (1 * CHANNEL_COUNT cfg
                <= ROW_COUNT cfg * COL_COUNT cfg * CHANNEL_COUNT cfg)
          by (apply Z.mul_le_mono_nonneg_r; nia); lia).
  assert (Hmax' : Int.max_int = 2147483647) by reflexivity.
  assert (Hmin : Int.min_int = -2147483648) by reflexivity.
  assert (Hw : forall z, 0 <= z <= CHANNEL_COUNT cfg -> Int.wrap z = z)
    by (intros; apply wrap_id; unfold Int.in_range; lia).
  assert (Hadd : forall a c, 0 <= a + c <= CHANNEL_COUNT cfg -> Int.add a c = a + c)
    by (intros; now apply Hw).
  assert (Hmul : forall a c, 0 <= a * c <= CHANNEL_COUNT cfg -> Int.mul a c = a * c)
    by (intros; now apply Hw).
  rewrite HF. rewrite (Hadd (CLASS_COUNT cfg) 5) by lia.
  rewrite (Hmul b (CLASS_COUNT cfg + 5)) by (fold base; lia). fold base.
  rewrite !(Hadd base) by lia.
  rewrite (Hmul b 2) by nia. rewrite (Hadd (b * 2) 1) by nia.
  replace (b * 2) with (2 * b) by ring.
  rewrite !GetOffset_in_range by (assumption || unfold tensor_length; lia).
  repeat (match goal with |- context [at_index ?l ?i ≫= _] =>
    destruct (at_index l i); cbn [mbind option_bind]; [|reflexivity] end).
  destruct (F32.ltb _ threshold); [cbn; now rewrite app_nil_r|].
  rewrite Hloop.
  destruct (mapM _ _) as [logits|]; cbn [mbind option_bind]; [|reflexivity].
  destruct (Softmax exp logits) as [dist|]; cbn [mbind option_bind]; [|reflexivity].
  destruct (max_element dist) as [top|]; cbn [mbind option_bind]; [|reflexivity].
  destruct (dist !! top) as [p|]; cbn [mbind option_bind]; [|reflexivity].
  destruct (F32.ltb _ threshold); [cbn; now rewrite app_nil_r|].
  rewrite at_index_of_nat.
  destruct (labels cfg !! top); reflexivity.
Qed.

Lemma decode_refines tensor threshold :
  GetRecognizedObjects exp cfg tensor threshold
  = Spec.decode exp cfg tensor threshold.
Proof.
  unfold GetRecognizedObjects, Spec.decode.
  rewrite (steps_nest3 (anchor_step exp cfg tensor threshold)).
  fold (Spec.scan_order cfg).
  rewrite (steps_collect _ (Spec.detect exp cfg tensor threshold)); [reflexivity|].
  intros [[cy cx] b] s Hin. apply elem_of_scan_order in Hin as (? & ? & ?).
  now apply anchor_step_detect.
Qed.
End Refinement.

(** ** OffsetIndexer *)

(** C7. In range, [GetOffset] is the channel-major index
    channel * (rows * cols) + cellY * cols + cellX; with rows = 2, cols = 2,
    channels = 3, the offset of (1, 1, 2) is 11. *)
Theorem GetOffset_channel_major :
  (forall cfg x y channel,
     tensor_length cfg <= Int.max_int ->
     0 <= x < COL_COUNT cfg -> 0 <= y < ROW_COUNT cfg ->
     0 <= channel < CHANNEL_COUNT cfg ->
     GetOffset cfg x y channel
     = channel * (ROW_COUNT cfg * COL_COUNT cfg) + y * COL_COUNT cfg + x)
  /\ (forall cfg, ROW_COUNT cfg = 2 -> COL_COUNT cfg = 2 -> CHANNEL_COUNT cfg = 3 ->
      GetOffset cfg 1 1 2 = 11).
Proof.
  split.
  - intros. now apply GetOffset_in_range.
  - intros cfg Hr Hc Hch. rewrite GetOffset_in_range.
    + unfold Spec.index. rewrite Hr, Hc. reflexivity.
    + unfold tensor_length. rewrite Hr, Hc, Hch. unfold Int.max_int. lia.
    + lia.
    + lia.
    + lia.
Qed.

Lemma GetOffset_channel_major_witness :
  GetOffset yolo 3 4 7 = 7 * (13 * 13) + 4 * 13 + 3
  /\ GetOffset (with_grid yolo 2 2 3) 1 1 2 = 11.
Proof.
  split.
  - apply (proj1 GetOffset_channel_major yolo 3 4 7); vm_compute; intuition congruence.
  - apply (proj2 GetOffset_channel_major); reflexivity.
Defined.

(** C3 fails on the code: [GetOffset] has no range check.  At cellX = 13 (one
    past the last column) the specified indexer reports IndexOutOfRange while
    the code returns 13, the index of cell (0, 1). *)
Lemma GetOffset_out_of_range_returns :
  Spec.offset yolo 13 0 0 = None
  /\ Some (GetOffset yolo 13 0 0) <> Spec.offset yolo 13 0 0
  /\ GetOffset yolo 13 0 0 = 13
  /\ GetOffset yolo 13 0 0 = GetOffset yolo 0 1 0.
Proof. vm_compute. intuition congruence. Qed.

(** C3, amended. [GetOffset] never fails: for every triple, inside or outside
    the grid bounds, it returns channel * (rows * cols) + cellY * cols + cellX
    reduced to a 32-bit int, and that value itself whenever it fits an int. *)
Theorem GetOffset_unchecked cfg x y channel :
  GetOffset cfg x y channel = Int.wrap (Spec.index cfg x y channel)
  /\ (Int.in_range (Spec.index cfg x y channel) ->
      GetOffset cfg x y channel
      = channel * (ROW_COUNT cfg * COL_COUNT cfg) + y * COL_COUNT cfg + x).
Proof.
  split; [apply GetOffset_wrap|].
  intros H. rewrite GetOffset_wrap. now apply wrap_id.
Qed.

Lemma GetOffset_unchecked_witness :
  GetOffset yolo 13 (-1) 200 = 200 * (13 * 13) + (-1) * 13 + 13.
Proof.
  apply (proj2 (GetOffset_unchecked yolo 13 (-1) 200)).
  vm_compute. intuition congruence.
Defined.

(** ** Checking configurations *)

Lemma check_cfg_sound cfg : check_cfg cfg = true -> cfg_ok cfg.
Proof.
  unfold check_cfg. rewrite !andb_true_iff.
  intros [[[[[[[[[Hr Hc] HB] HC] HF] Hch] Hsz] Hl] Ha] Hcc].
  constructor; try (apply Z.ltb_lt; assumption); try (apply Z.eqb_eq; assumption).
  - apply Z.leb_le; assumption.
  - intros b i Hb Hi.
    rewrite forallb_forall in Hcc.
    specialize (Hcc b). rewrite forallb_forall in Hcc.
    assert (Hb' : In b (seqZ 0 (BOXES_PER_CELL cfg)))
      by (apply list_elem_of_In, elem_of_seqZ; lia).
    assert (Hi' : In i (seqZ 0 (CLASS_COUNT cfg)))
      by (apply list_elem_of_In, elem_of_seqZ; lia).
    specialize (Hcc Hb' i Hi').
    destruct (F32.to_int _) as [ch|]; [|discriminate].
    apply Z.eqb_eq in Hcc. now subst.
Qed.

Lemma yolo_ok : cfg_ok yolo.
Proof. apply check_cfg_sound. vm_compute. reflexivity. Qed.

Lemma unit_cell_ok : cfg_ok unit_cell.
Proof. apply check_cfg_sound. vm_compute. reflexivity. Qed.

(** ** The scan *)

(** C5. On a well-formed configuration the decoder is the row-major scan of
    [Spec.decode]: anchors are visited cy outer, cx middle, anchor inner, the
    detections are emitted in that order, an anchor whose objectness is below
    the threshold is dropped before its class logits are read, and a
    surviving anchor is dropped when its combined top score is below the same
    threshold. *)
Theorem GetRecognizedObjects_scan exp cfg tensor threshold :
  cfg_ok cfg ->
  GetRecognizedObjects exp cfg tensor threshold
  = Spec.decode exp cfg tensor threshold.
Proof. intros Hok. now apply decode_refines. Qed.

Lemma GetRecognizedObjects_scan_witness :
  GetRecognizedObjects Libm.exp yolo yolo_zeros F32.one
  = Spec.decode Libm.exp yolo yolo_zeros F32.one.
Proof.
  apply GetRecognizedObjects_scan. apply check_cfg_sound. vm_compute. reflexivity.
Defined.

(** ** The order of floats *)

Lemma compare_cont_Eq m1 m2 : Pos.compare_cont Eq m1 m2 = (m1 ?= m2)%positive.
Proof. reflexivity. Qed.

Lemma ltb_leb_trans a b c :
  F32.ltb a b = true -> F32.leb b c = true -> F32.ltb a c = true.
Proof. float_order. Qed.

Lemma leb_ltb_trans a b c :
  F32.leb a b = true -> F32.ltb b c = true -> F32.ltb a c = true.
Proof. float_order. Qed.

Lemma ltb_trans a b c :
  F32.ltb a b = true -> F32.ltb b c = true -> F32.ltb a c = true.
Proof. float_order. Qed.

Lemma ltb_asym a b : F32.ltb a b = true -> F32.ltb b a = false.
Proof. float_order. Qed.

Lemma not_ltb_leb a b :
  F32.ltb a b = false -> F32.is_nan a = false -> F32.is_nan b = false ->
  F32.leb b a = true.
Proof. unfold F32.is_nan. float_order. Qed.

Lemma ltb_not_nan a b : F32.ltb a b = true -> F32.is_nan a = false /\ F32.is_nan b = false.
Proof. unfold F32.is_nan. float_order; auto. Qed.

Lemma ltb_irrefl a : F32.ltb a a = false.
Proof. float_order. Qed.

Lemma ltb_nan_r a b : F32.is_nan b = true -> F32.ltb a b = false.
Proof. unfold F32.is_nan. float_order. Qed.

(** ** max_element *)

Lemma max_element_from_spec rest : forall pre largest v,
  pre !! largest = Some v ->
  (forall j q, pre !! j = Some q -> F32.ltb v q = false) ->
  (forall j q, (j < largest)%nat -> pre !! j = Some q ->
     F32.ltb q v = true \/ F32.is_nan q = true) ->
  first_max (pre ++ rest) (max_element_from largest v (length pre) rest).
Proof.
  induction rest as [|x rest IH]; intros pre largest v Hv Hmax Hfirst.
  - rewrite app_nil_r. exists v. auto.
  - cbn [max_element_from].
    replace (pre ++ x :: rest) with ((pre ++ [x]) ++ rest) by now rewrite <- app_assoc.
    replace (S (length pre)) with (length (pre ++ [x])) by (rewrite length_app; cbn; lia).
    destruct (F32.ltb v x) eqn:Hvx.
    + assert (Hlt : forall j q, pre !! j = Some q ->
                F32.ltb q x = true \/ F32.is_nan q = true).
      { intros j q Hq. destruct (F32.is_nan q) eqn:Hn; [now right|left].
        destruct (ltb_not_nan _ _ Hvx) as [Hnv _].
        apply leb_ltb_trans with v; [|assumption].
        apply not_ltb_leb; eauto. }
      apply IH.
      * now rewrite lookup_app_r, Nat.sub_diag by lia.
      * intros j q Hq. apply lookup_app_Some in Hq as [Hq|[Hj Hq]].
        -- destruct (Hlt j q Hq) as [H|H]; [now apply ltb_asym|now apply ltb_nan_r].
        -- destruct (j - length pre)%nat as [|n]; [|now destruct n].
           cbn in Hq. inversion Hq; subst. apply ltb_irrefl.
      * intros j q Hj Hq. apply lookup_app_Some in Hq as [Hq|[Hj' _]]; [eauto|lia].
    + apply IH.
      * rewrite lookup_app_l; [assumption|]. now apply lookup_lt_Some in Hv.
      * intros j q Hq. apply lookup_app_Some in Hq as [Hq|[Hj Hq]]; [eauto|].
        destruct (j - length pre)%nat as [|n]; [|now destruct n].
        cbn in Hq. now inversion Hq; subst.
      * intros j q Hj Hq. apply lookup_app_Some in Hq as [Hq|[Hj' _]]; [eauto|].
        apply lookup_lt_Some in Hv. lia.
Qed.

Lemma max_element_spec values k : max_element values = Some k -> first_max values k.
Proof.
  destruct values as [|v rest]; [discriminate|]. cbn. intros [= <-].
  apply (max_element_from_spec rest [v] 0%nat v).
  - reflexivity.
  - intros [|j] q Hq; [|destruct j; discriminate].
    cbn in Hq. inversion Hq; subst. apply ltb_irrefl.
  - intros j q Hj. lia.
Qed.

Lemma max_element_lt values k : max_element values = Some k -> (k < length values)%nat.
Proof.
  intros H. apply max_element_spec in H as (p & Hp & _). now apply lookup_lt_Some in Hp.
Qed.

Lemma max_element_is_Some values : values <> [] -> is_Some (max_element values).
Proof. destruct values; [congruence|]. intros _. cbn. eauto. Qed.

(** ** Softmax: shape *)

Lemma Softmax_length exp values dist :
  Softmax exp values = Some dist -> length dist = length values.
Proof.
  unfold Softmax. intros H. apply bind_Some in H as (k & _ & H).
  apply bind_Some in H as (m & _ & H). inversion H; subst.
  now rewrite !length_map.
Qed.

Lemma Softmax_is_Some exp values : values <> [] -> is_Some (Softmax exp values).
Proof.
  intros Hne. unfold Softmax.
  destruct (max_element_is_Some values Hne) as [k Hk]. rewrite Hk. cbn.
  destruct (lookup_lt_is_Some_2 values k (max_element_lt _ _ Hk)) as [m Hm].
  rewrite Hm. cbn. eauto.
Qed.

(** ** What an emitted detection is made of *)

(** Every detection in the output comes from an anchor of the scan. *)
Lemma decode_elem exp cfg tensor threshold out box :
  Spec.decode exp cfg tensor threshold = Some out -> box ∈ out ->
  exists a, a ∈ Spec.scan_order cfg
    /\ Spec.detect exp cfg tensor threshold a = Some (Some box).
Proof.
  unfold Spec.decode. intros H Hin.
  apply bind_Some in H as (ds & Hds & H). inversion H; subst; clear H.
  apply list_elem_of_omap in Hin as (o & Ho & Hid). cbn in Hid. subst o.
  apply mapM_Some in Hds.
  apply list_elem_of_lookup in Ho as [i Hi].
  destruct (Forall2_lookup_r _ _ _ _ _ Hds Hi) as (a & Ha & Hd).
  exists a. split; [|assumption]. now apply list_elem_of_lookup_2 in Ha.
Qed.

Lemma detect_inv exp cfg tensor threshold cy cx b box :
  Spec.detect exp cfg tensor threshold (cy, cx, b) = Some (Some box) ->
  exists tx ty tw th tc aw ah logits dist top p,
    field cfg tensor cy cx b 0 = Some tx
    /\ field cfg tensor cy cx b 1 = Some ty
    /\ field cfg tensor cy cx b 2 = Some tw
    /\ field cfg tensor cy cx b 3 = Some th
    /\ field cfg tensor cy cx b 4 = Some tc
    /\ at_index (anchors cfg) (2 * b) = Some aw
    /\ at_index (anchors cfg) (2 * b + 1) = Some ah
    /\ F32.ltb (Sigmoid exp tc) threshold = false
    /\ mapM (fun i => field cfg tensor cy cx b (5 + i)) (seqZ 0 (CLASS_COUNT cfg))
       = Some logits
    /\ Softmax exp logits = Some dist
    /\ max_element dist = Some top
    /\ dist !! top = Some p
    /\ F32.ltb (F32.mul p (Sigmoid exp tc)) threshold = false
    /\ labels cfg !! top = Some (label box)
    /\ x box = F32.sub (F32.mul (F32.add (F32.of_int cx) (Sigmoid exp tx)) (CELL_WIDTH cfg))
                 (F32.div (F32.mul (F32.mul (exp tw) (CELL_WIDTH cfg)) aw) (F32.of_int 2))
    /\ y box = F32.sub (F32.mul (F32.add (F32.of_int cy) (Sigmoid exp ty)) (CELL_HEIGHT cfg))
                 (F32.div (F32.mul (F32.mul (exp th) (CELL_HEIGHT cfg)) ah) (F32.of_int 2))
    /\ width box = F32.mul (F32.mul (exp tw) (CELL_WIDTH cfg)) aw
    /\ height box = F32.mul (F32.mul (exp th) (CELL_HEIGHT cfg)) ah
    /\ confidence box = F32.mul p (Sigmoid exp tc).
Proof.
  unfold Spec.detect, field. intros H.
  replace (b * (CLASS_COUNT cfg + 5) + 0) with (b * (CLASS_COUNT cfg + 5)) by ring.
  apply bind_Some in H as (tx & Htx & H).
  apply bind_Some in H as (ty & Hty & H).
  apply bind_Some in H as (tw & Htw & H).
  apply bind_Some in H as (th & Hth & H).
  apply bind_Some in H as (tc & Htc & H).
  apply bind_Some in H as (aw & Haw & H).
  apply bind_Some in H as (ah & Hah & H).
  destruct (F32.ltb (Sigmoid exp tc) threshold) eqn:H1; [discriminate|].
  apply bind_Some in H as (logits & Hlogits & H).
  apply bind_Some in H as (dist & Hdist & H).
  apply bind_Some in H as (top & Htop & H).
  apply bind_Some in H as (p & Hp & H).
  destruct (F32.ltb (F32.mul p (Sigmoid exp tc)) threshold) eqn:H2; [discriminate|].
  apply bind_Some in H as (lbl & Hlbl & H).
  inversion H; subst; clear H. cbn.
  exists tx, ty, tw, th, tc, aw, ah, logits, dist, top, p.
  repeat split; try assumption.
  erewrite mapM_ext; [exact Hlogits|]. intros i. cbn. f_equal. f_equal. ring.
Qed.

(** ** Geometry *)

(** C6. Every emitted detection is the box of some cell (cx, cy) and anchor b
    of the grid, with centerX = (cx + sigmoid tx) * cellWidth,
    centerY = (cy + sigmoid ty) * cellHeight,
    width = exp tw * cellWidth * widthScale,
    height = exp th * cellHeight * heightScale, x = centerX - width / 2 and
    y = centerY - height / 2.  With cell size 32, anchor 0 of scales
    (1.0, 1.0) and tx = ty = tw = th = 0 at cell (0, 0), a box emitted for
    that anchor has x = y = 0 and width = height = 32. *)
Theorem emitted_geometry exp cfg tensor threshold :
  cfg_ok cfg ->
  (forall out box,
     GetRecognizedObjects exp cfg tensor threshold = Some out -> box ∈ out ->
     exists cy cx b tx ty tw th widthScale heightScale,
       0 <= cy < ROW_COUNT cfg /\ 0 <= cx < COL_COUNT cfg
       /\ 0 <= b < BOXES_PER_CELL cfg
       /\ field cfg tensor cy cx b 0 = Some tx
       /\ field cfg tensor cy cx b 1 = Some ty
       /\ field cfg tensor cy cx b 2 = Some tw
       /\ field cfg tensor cy cx b 3 = Some th
       /\ at_index (anchors cfg) (2 * b) = Some widthScale
       /\ at_index (anchors cfg) (2 * b + 1) = Some heightScale
       /\ let centerX := F32.mul (F32.add (F32.of_int cx) (Sigmoid exp tx)) (CELL_WIDTH cfg) in
          let centerY := F32.mul (F32.add (F32.of_int cy) (Sigmoid exp ty)) (CELL_HEIGHT cfg) in
          width box = F32.mul (F32.mul (exp tw) (CELL_WIDTH cfg)) widthScale
          /\ height box = F32.mul (F32.mul (exp th) (CELL_HEIGHT cfg)) heightScale
          /\ x box = F32.sub centerX (F32.div (width box) (F32.of_int 2))
          /\ y box = F32.sub centerY (F32.div (height box) (F32.of_int 2)))
  /\ (exp F32.zero = F32.one ->
      CELL_WIDTH cfg = F32.of_int 32 -> CELL_HEIGHT cfg = F32.of_int 32 ->
      at_index (anchors cfg) 0 = Some F32.one ->
      at_index (anchors cfg) 1 = Some F32.one ->
      field cfg tensor 0 0 0 0 = Some F32.zero ->
      field cfg tensor 0 0 0 1 = Some F32.zero ->
      field cfg tensor 0 0 0 2 = Some F32.zero ->
      field cfg tensor 0 0 0 3 = Some F32.zero ->
      forall boxes box,
        anchor_step exp cfg tensor threshold 0 0 0 boxes = Some (boxes ++ [box]) ->
        x box = F32.zero /\ y box = F32.zero
        /\ width box = F32.of_int 32 /\ height box = F32.of_int 32).
Proof.
  intros Hok. split.
  - intros out box Hout Hin. rewrite decode_refines in Hout by assumption.
    destruct (decode_elem _ _ _ _ _ _ Hout Hin) as ([[cy cx] b] & Ha & Hd).
    apply elem_of_scan_order in Ha as (Hcy & Hcx & Hb).
    apply detect_inv in Hd
      as (tx & ty & tw & th & tc & aw & ah & logits & dist & top & p & H).
    destruct H as (Htx & Hty & Htw & Hth & _ & Haw & Hah & _ & _ & _ & _ & _ & _ & _
                   & Hx & Hy & Hw & Hh & _).
    exists cy, cx, b, tx, ty, tw, th, aw, ah. cbv zeta.
    rewrite Hw, Hh. repeat split; (assumption || lia).
  - intros Hexp HW HH Haw Hah Htx Hty Htw Hth boxes box Hstep.
    pose proof (ok_rows _ Hok) as Hr. pose proof (ok_cols _ Hok) as Hc.
    pose proof (ok_boxes _ Hok) as HB.
    rewrite anchor_step_detect in Hstep by (assumption || lia).
    apply bind_Some in Hstep as (o & Hd & Hstep).
    inversion Hstep as [Happ]; clear Hstep.
    apply app_inv_head in Happ. destruct o as [box'|]; [|discriminate].
    inversion Happ; subst box'; clear Happ.
    apply detect_inv in Hd
      as (tx & ty & tw & th & tc & aw & ah & logits & dist & top & p & H).
    destruct H as (Htx' & Hty' & Htw' & Hth' & _ & Haw' & Hah' & _ & _ & _ & _ & _ & _ & _
                   & Hx & Hy & Hw & Hh & _).
    change (2 * 0) with 0 in Haw'. change (2 * 0 + 1) with 1 in Hah'.
    assert (tx = F32.zero) by congruence. assert (ty = F32.zero) by congruence.
    assert (tw = F32.zero) by congruence. assert (th = F32.zero) by congruence.
    assert (aw = F32.one) by congruence. assert (ah = F32.one) by congruence.
    subst. rewrite Hx, Hy, Hw, Hh. unfold Sigmoid. rewrite Hexp, HW, HH.
    vm_compute. auto.
Qed.

Lemma emitted_geometry_witness :
  GetRecognizedObjects Libm.exp unit_cell (zeros 6) F32.zero
  = Some [ {| label := "object"; x := F32.zero; y := F32.zero;
              width := F32.of_int 32; height := F32.of_int 32;
              confidence := F32.half |} ]
  /\ forall box,
       anchor_step Libm.exp unit_cell (zeros 6) F32.zero 0 0 0 [] = Some ([] ++ [box]) ->
       x box = F32.zero /\ y box = F32.zero
       /\ width box = F32.of_int 32 /\ height box = F32.of_int 32.
Proof.
  split; [vm_compute; reflexivity|].
  intros box.
  apply (proj2 (emitted_geometry Libm.exp unit_cell (zeros 6) F32.zero
                  (check_cfg_sound unit_cell eq_refl)));
    vm_compute; reflexivity.
Defined.

(** ** Top class, label and score *)

(** C9. [max_element] selects the argmax of a distribution with ties broken
    by the lowest index (the first maximal entry of the left-to-right scan);
    every emitted detection belongs to an anchor that passed the objectness
    filter, its label is [labels[topClass]] for the class selected so in the
    softmax of the anchor's class logits, and its score is
    [distribution[topClass] * objectness]. *)
Theorem emitted_top_class exp cfg tensor threshold :
  (forall distribution topClass,
     max_element distribution = Some topClass -> first_max distribution topClass)
  /\ (cfg_ok cfg ->
      forall out box,
        GetRecognizedObjects exp cfg tensor threshold = Some out -> box ∈ out ->
        exists cy cx b tc logits distribution topClass p,
          0 <= cy < ROW_COUNT cfg /\ 0 <= cx < COL_COUNT cfg
          /\ 0 <= b < BOXES_PER_CELL cfg
          /\ field cfg tensor cy cx b 4 = Some tc
          /\ F32.ltb (Sigmoid exp tc) threshold = false
          /\ mapM (fun i => field cfg tensor cy cx b (5 + i)) (seqZ 0 (CLASS_COUNT cfg))
             = Some logits
          /\ Softmax exp logits = Some distribution
          /\ max_element distribution = Some topClass
          /\ first_max distribution topClass
          /\ distribution !! topClass = Some p
          /\ labels cfg !! topClass = Some (label box)
          /\ confidence box = F32.mul p (Sigmoid exp tc)).
Proof.
  split; [apply max_element_spec|].
  intros Hok out box Hout Hin. rewrite decode_refines in Hout by assumption.
  destruct (decode_elem _ _ _ _ _ _ Hout Hin) as ([[cy cx] b] & Ha & Hd).
  apply elem_of_scan_order in Ha as (Hcy & Hcx & Hb).
  apply detect_inv in Hd
    as (tx & ty & tw & th & tc & aw & ah & logits & dist & top & p & H).
  destruct H as (_ & _ & _ & _ & Htc & _ & _ & Hobj & Hlogits & Hdist & Htop & Hp & _
                 & Hlbl & _ & _ & _ & _ & Hscore).
  exists cy, cx, b, tc, logits, dist, top, p.
  repeat split; try (assumption || lia). now apply max_element_spec.
Qed.

Lemma emitted_top_class_witness :
  first_max [F32.half; F32.one; F32.zero; F32.one] 1
  /\ exists cy cx b tc logits distribution topClass p,
       0 <= cy < ROW_COUNT three_class /\ 0 <= cx < COL_COUNT three_class
       /\ 0 <= b < BOXES_PER_CELL three_class
       /\ field three_class (zeros 8) cy cx b 4 = Some tc
       /\ F32.ltb (Sigmoid Libm.exp tc) F32.zero = false
       /\ mapM (fun i => field three_class (zeros 8) cy cx b (5 + i))
            (seqZ 0 (CLASS_COUNT three_class))
          = Some logits
       /\ Softmax Libm.exp logits = Some distribution
       /\ max_element distribution = Some topClass
       /\ first_max distribution topClass
       /\ distribution !! topClass = Some p
       /\ labels three_class !! topClass = Some (label three_class_box)
       /\ confidence three_class_box = F32.mul p (Sigmoid Libm.exp tc).
Proof.
  split.
  - apply (proj1 (emitted_top_class Libm.exp three_class (zeros 8) F32.zero)).
    reflexivity.
  - apply (proj2 (emitted_top_class Libm.exp three_class (zeros 8) F32.zero)
             (check_cfg_sound three_class eq_refl) [three_class_box] three_class_box).
    + vm_compute. reflexivity.
    + apply elem_of_cons. left. reflexivity.
Defined.

(** ** Reads inside the tensor are defined *)

Lemma at_index_is_Some {A} (l : list A) i :
  0 <= i < Z.of_nat (length l) -> is_Some (at_index l i).
Proof.
  intros H. unfold at_index. destruct (Z.ltb_spec i 0); [lia|].
  apply lookup_lt_is_Some_2. lia.
Qed.

Lemma at_index_app_l {A} (l k : list A) i :
  i < Z.of_nat (length l) -> at_index (l ++ k) i = at_index l i.
Proof.
  intros H. unfold at_index. destruct (Z.ltb_spec i 0); [reflexivity|].
  apply lookup_app_l. lia.
Qed.

Lemma mapM_ext_in {A B} (f g : A -> option B) l :
  (forall a, a ∈ l -> f a = g a) -> mapM f l = mapM g l.
Proof.
  induction l as [|a l IH]; intros H; [reflexivity|]. cbn.
  rewrite (H a) by (apply elem_of_cons; now left).
  rewrite IH; [reflexivity|]. intros; apply H, elem_of_cons; now right.
Qed.

Section Defined.
Variable exp : float -> float.
Variable cfg : Config.
Hypothesis Hok : cfg_ok cfg.

Lemma field_bounds cy cx b k :
  0 <= cy < ROW_COUNT cfg -> 0 <= cx < COL_COUNT cfg ->
  0 <= b < BOXES_PER_CELL cfg -> 0 <= k < CLASS_COUNT cfg + 5 ->
  0 <= Spec.index cfg cx cy (b * (CLASS_COUNT cfg + 5) + k) < tensor_length cfg.
Proof.
  intros Hcy Hcx Hb Hk. apply index_bounds; try assumption.
  rewrite (ok_channels _ Hok).
  assert ((b + 1) * (CLASS_COUNT cfg + 5)
          <= BOXES_PER_CELL cfg * (CLASS_COUNT cfg + 5))
    by (apply Z.mul_le_mono_nonneg_r; lia).
  nia.
Qed.

Lemma field_is_Some tensor cy cx b k :
  tensor_length cfg <= Z.of_nat (length tensor) ->
  0 <= cy < ROW_COUNT cfg -> 0 <= cx < COL_COUNT cfg ->
  0 <= b < BOXES_PER_CELL cfg -> 0 <= k < CLASS_COUNT cfg + 5 ->
  is_Some (field cfg tensor cy cx b k).
Proof.
  intros Hlen Hcy Hcx Hb Hk. apply at_index_is_Some.
  pose proof (field_bounds cy cx b k Hcy Hcx Hb Hk). lia.
Qed.

Lemma field_app tensor extra cy cx b k :
  tensor_length cfg <= Z.of_nat (length tensor) ->
  0 <= cy < ROW_COUNT cfg -> 0 <= cx < COL_COUNT cfg ->
  0 <= b < BOXES_PER_CELL cfg -> 0 <= k < CLASS_COUNT cfg + 5 ->
  field cfg (tensor ++ extra) cy cx b k = field cfg tensor cy cx b k.
Proof.
  intros Hlen Hcy Hcx Hb Hk. apply at_index_app_l.
  pose proof (field_bounds cy cx b k Hcy Hcx Hb Hk). lia.
Qed.

(** [Spec.detect] in terms of [field]. *)
Lemma detect_fields tensor threshold cy cx b :
  Spec.detect exp cfg tensor threshold (cy, cx, b)
  = (tx ← field cfg tensor cy cx b 0;
     ty ← field cfg tensor cy cx b 1;
     tw ← field cfg tensor cy cx b 2;
     th ← field cfg tensor cy cx b 3;
     tc ← field cfg tensor cy cx b 4;
     widthScale ← at_index (anchors cfg) (2 * b);
     heightScale ← at_index (anchors cfg) (2 * b + 1);
     if F32.ltb (Sigmoid exp tc) threshold then Some None
     else
       logits ← mapM (fun i => field cfg tensor cy cx b (5 + i))
                     (seqZ 0 (CLASS_COUNT cfg));
       distribution ← Softmax exp logits;
       topClass ← max_element distribution;
       p ← distribution !! topClass;
       if F32.ltb (F32.mul p (Sigmoid exp tc)) threshold then Some None
       else
         lbl ← labels cfg !! topClass;
         Some (Some {|
           label := lbl;
           x := F32.sub (F32.mul (F32.add (F32.of_int cx) (Sigmoid exp tx)) (CELL_WIDTH cfg))
                  (F32.div (F32.mul (F32.mul (exp tw) (CELL_WIDTH cfg)) widthScale)
                     (F32.of_int 2));
           y := F32.sub (F32.mul (F32.add (F32.of_int cy) (Sigmoid exp ty)) (CELL_HEIGHT cfg))
                  (F32.div (F32.mul (F32.mul (exp th) (CELL_HEIGHT cfg)) heightScale)
                     (F32.of_int 2));
           width := F32.mul (F32.mul (exp tw) (CELL_WIDTH cfg)) widthScale;
           height := F32.mul (F32.mul (exp th) (CELL_HEIGHT cfg)) heightScale;
           confidence := F32.mul p (Sigmoid exp tc)
         |})).
Proof.
  unfold Spec.detect, field.
  replace (b * (CLASS_COUNT cfg + 5) + 0) with (b * (CLASS_COUNT cfg + 5)) by ring.
  erewrite (mapM_ext (fun i => at_index tensor (Spec.index cfg cx cy (b * (CLASS_COUNT cfg + 5) + 5 + i)))).
  - reflexivity.
  - intros i. cbn. do 2 f_equal. ring.
Qed.

Lemma detect_is_Some tensor threshold cy cx b :
  tensor_length cfg <= Z.of_nat (length tensor) ->
  0 <= cy < ROW_COUNT cfg -> 0 <= cx < COL_COUNT cfg ->
  0 <= b < BOXES_PER_CELL cfg ->
  is_Some (Spec.detect exp cfg tensor threshold (cy, cx, b)).
Proof.
  intros Hlen Hcy Hcx Hb. rewrite detect_fields.
  pose proof (ok_classes _ Hok) as HC.
  destruct (field_is_Some tensor cy cx b 0) as [tx ->]; try (assumption || lia).
  destruct (field_is_Some tensor cy cx b 1) as [ty ->]; try (assumption || lia).
  destruct (field_is_Some tensor cy cx b 2) as [tw ->]; try (assumption || lia).
  destruct (field_is_Some tensor cy cx b 3) as [th ->]; try (assumption || lia).
  destruct (field_is_Some tensor cy cx b 4) as [tc ->]; try (assumption || lia).
  pose proof (ok_anchors _ Hok) as Ha.
  destruct (at_index_is_Some (anchors cfg) (2 * b)) as [aw ->]; [lia|].
  destruct (at_index_is_Some (anchors cfg) (2 * b + 1)) as [ah ->]; [lia|].
  cbn. destruct (F32.ltb _ threshold); [eauto|].
  assert (Hl : is_Some (mapM (fun i => field cfg tensor cy cx b (5 + i))
                          (seqZ 0 (CLASS_COUNT cfg)))).
  { apply mapM_is_Some, Forall_forall. intros i Hi. apply elem_of_seqZ in Hi.
    cbn. apply field_is_Some; (assumption || lia). }
  destruct Hl as [logits Hl]. rewrite Hl. cbn.
  pose proof (length_mapM _ _ _ Hl) as Hlen'. rewrite length_seqZ in Hlen'.
  assert (Hne : logits <> []) by (intros ->; cbn in Hlen'; lia).
  destruct (Softmax_is_Some exp logits Hne) as [dist Hd]. rewrite Hd. cbn.
  pose proof (Softmax_length _ _ _ Hd) as Hdl.
  assert (Hdne : dist <> []) by (intros ->; cbn in Hdl; destruct logits; [congruence|discriminate]).
  destruct (max_element_is_Some dist Hdne) as [top Ht]. rewrite Ht. cbn.
  pose proof (max_element_lt _ _ Ht) as Hlt.
  destruct (lookup_lt_is_Some_2 dist top Hlt) as [p ->]. cbn.
  destruct (F32.ltb _ threshold); [eauto|].
  destruct (lookup_lt_is_Some_2 (labels cfg) top) as [lbl ->]; [|cbn; eauto].
  pose proof (ok_labels _ Hok). lia.
Qed.

Lemma decode_is_Some tensor threshold :
  tensor_length cfg <= Z.of_nat (length tensor) ->
  is_Some (Spec.decode exp cfg tensor threshold).
Proof.
  intros Hlen. unfold Spec.decode.
  assert (H : is_Some (mapM (Spec.detect exp cfg tensor threshold) (Spec.scan_order cfg))).
  { apply mapM_is_Some, Forall_forall. intros [[cy cx] b] Ha.
    apply elem_of_scan_order in Ha as (? & ? & ?). now apply detect_is_Some. }
  destruct H as [ds ->]. cbn. eauto.
Qed.

Lemma detect_app tensor extra threshold a :
  tensor_length cfg <= Z.of_nat (length tensor) ->
  a ∈ Spec.scan_order cfg ->
  Spec.detect exp cfg (tensor ++ extra) threshold a
  = Spec.detect exp cfg tensor threshold a.
Proof.
  intros Hlen Ha. destruct a as [[cy cx] b].
  apply elem_of_scan_order in Ha as (Hcy & Hcx & Hb).
  pose proof (ok_classes _ Hok) as HC.
  rewrite !detect_fields.
  rewrite !field_app by (assumption || lia).
  rewrite (mapM_ext_in (fun i => field cfg (tensor ++ extra) cy cx b (5 + i))
             (fun i => field cfg tensor cy cx b (5 + i))); [reflexivity|].
  intros i Hi. apply elem_of_seqZ in Hi. apply field_app; (assumption || lia).
Qed.

Lemma decode_app tensor extra threshold :
  tensor_length cfg <= Z.of_nat (length tensor) ->
  Spec.decode exp cfg (tensor ++ extra) threshold
  = Spec.decode exp cfg tensor threshold.
Proof.
  intros Hlen. unfold Spec.decode.
  rewrite (mapM_ext_in (Spec.detect exp cfg (tensor ++ extra) threshold)
             (Spec.detect exp cfg tensor threshold)); [reflexivity|].
  intros a Ha. now apply detect_app.
Qed.
End Defined.

(** ** Tensor length *)

(** C4 fails on the code: there is no length check.  A tensor one entry
    longer than 13 * 13 * 125, which the specified decoder rejects, is decoded
    without any error. *)
Lemma oversized_tensor_is_decoded :
  Z.of_nat (length (yolo_zeros ++ [F32.zero])) <> tensor_length yolo
  /\ Spec.decode_checked Libm.exp yolo (yolo_zeros ++ [F32.zero]) F32.one = None
  /\ GetRecognizedObjects Libm.exp yolo (yolo_zeros ++ [F32.zero]) F32.one = Some [].
Proof.
  split; [vm_compute; discriminate|].
  split; vm_compute; reflexivity.
Qed.

(** C4, amended. The decoder checks no length: a raw tensor holding at least
    rows * cols * channels entries is decoded, and the result is that of its
    first rows * cols * channels entries, whatever follows them. *)
Theorem GetRecognizedObjects_reads_prefix exp cfg tensor extra threshold :
  cfg_ok cfg ->
  Z.of_nat (length tensor) = tensor_length cfg ->
  is_Some (GetRecognizedObjects exp cfg (tensor ++ extra) threshold)
  /\ GetRecognizedObjects exp cfg (tensor ++ extra) threshold
     = GetRecognizedObjects exp cfg tensor threshold.
Proof.
  intros Hok Hlen. rewrite !decode_refines by assumption.
  rewrite decode_app by (assumption || lia).
  split; [|reflexivity]. apply decode_is_Some; (assumption || lia).
Qed.

Lemma GetRecognizedObjects_reads_prefix_witness :
  is_Some (GetRecognizedObjects Libm.exp yolo (yolo_zeros ++ [F32.one; F32.nan]) F32.half)
  /\ GetRecognizedObjects Libm.exp yolo (yolo_zeros ++ [F32.one; F32.nan]) F32.half
     = GetRecognizedObjects Libm.exp yolo yolo_zeros F32.half.
Proof.
  apply GetRecognizedObjects_reads_prefix.
  - apply check_cfg_sound. vm_compute. reflexivity.
  - vm_compute. reflexivity.
Defined.

(** ** Monotonicity in the threshold *)

Lemma steps_rel {A S} (R : S -> S -> Prop) (f1 f2 : A -> S -> option S) l :
  (forall a s1 s2 s1', R s2 s1 -> f1 a s1 = Some s1' ->
     exists s2', f2 a s2 = Some s2' /\ R s2' s1') ->
  forall s1 s2 s1', R s2 s1 -> steps f1 l s1 = Some s1' ->
  exists s2', steps f2 l s2 = Some s2' /\ R s2' s1'.
Proof.
  intros Hstep. induction l as [|a l IH]; intros s1 s2 s1' HR H.
  - cbn in *. inversion H; subst. eauto.
  - cbn in *. destruct (f1 a s1) as [t1|] eqn:E1; [|discriminate].
    destruct (Hstep a s1 s2 t1 HR E1) as (t2 & -> & HR'). eauto.
Qed.

Lemma bind_rel {A B} (R : B -> B -> Prop) (m : option A) (f1 f2 : A -> option B) s1' :
  (forall a, f1 a = Some s1' -> exists s2', f2 a = Some s2' /\ R s2' s1') ->
  m ≫= f1 = Some s1' -> exists s2', m ≫= f2 = Some s2' /\ R s2' s1'.
Proof. destruct m as [a|]; cbn; [auto|discriminate]. Qed.

Lemma anchor_step_mono exp cfg tensor t1 t2 cy cx b s1 s2 s1' :
  F32.leb t1 t2 = true ->
  s2 `sublist_of` s1 ->
  anchor_step exp cfg tensor t1 cy cx b s1 = Some s1' ->
  exists s2', anchor_step exp cfg tensor t2 cy cx b s2 = Some s2'
              /\ s2' `sublist_of` s1'.
Proof.
  intros Hle Hsub. unfold anchor_step.
  apply bind_rel; intros tx. apply bind_rel; intros ty.
  apply bind_rel; intros tw. apply bind_rel; intros th.
  apply bind_rel; intros tc. apply bind_rel; intros aw.
  apply bind_rel; intros ah. cbv zeta.
  generalize (Sigmoid exp tc). intros conf.
  destruct (F32.ltb conf t1) eqn:E1.
  - rewrite (ltb_leb_trans _ _ _ E1 Hle). intros [= <-]. eauto.
  - destruct (F32.ltb conf t2) eqn:E1'.
    + intros H. exists s2. split; [reflexivity|].
      apply bind_Some in H as (classes & _ & H).
      apply bind_Some in H as (dist & _ & H).
      apply bind_Some in H as (top & _ & H).
      apply bind_Some in H as (p & _ & H).
      destruct (F32.ltb (F32.mul p conf) t1).
      * now inversion H; subst.
      * apply bind_Some in H as (lbl & _ & H). inversion H; subst.
        now apply sublist_inserts_r.
    + apply bind_rel; intros classes. apply bind_rel; intros dist.
      apply bind_rel; intros top. apply bind_rel; intros p.
      destruct (F32.ltb (F32.mul p conf) t1) eqn:E2.
      * rewrite (ltb_leb_trans _ _ _ E2 Hle). intros [= <-]. eauto.
      * destruct (F32.ltb (F32.mul p conf) t2).
        -- intros H. exists s2. split; [reflexivity|].
           apply bind_Some in H as (lbl & _ & H). inversion H; subst.
           now apply sublist_inserts_r.
        -- apply bind_rel; intros lbl. intros [= <-].
           eexists; split; [reflexivity|]. now apply sublist_app.
Qed.

Lemma GetRecognizedObjects_mono exp cfg tensor t1 t2 out1 :
  F32.leb t1 t2 = true ->
  GetRecognizedObjects exp cfg tensor t1 = Some out1 ->
  exists out2, GetRecognizedObjects exp cfg tensor t2 = Some out2
               /\ out2 `sublist_of` out1.
Proof.
  intros Hle. unfold GetRecognizedObjects. rewrite !steps_nest3.
  apply steps_rel; [|reflexivity].
  intros [[cy cx] b] s1 s2 s1' Hsub H. cbn in *.
  eapply anchor_step_mono; eassumption.
Qed.

(** C10. Raising the threshold only removes detections: for t1 <= t2 the
    output at t2 is a subsequence of the output at t1, on every tensor of
    the expected length. *)
Theorem threshold_monotone exp cfg tensor t1 t2 :
  cfg_ok cfg ->
  Z.of_nat (length tensor) = tensor_length cfg ->
  F32.leb t1 t2 = true ->
  exists out1 out2,
    GetRecognizedObjects exp cfg tensor t1 = Some out1
    /\ GetRecognizedObjects exp cfg tensor t2 = Some out2
    /\ out2 `sublist_of` out1.
Proof.
  intros Hok Hlen Hle.
  destruct (decode_is_Some exp cfg Hok tensor t1) as [out1 H1]; [lia|].
  rewrite <- decode_refines in H1 by assumption.
  destruct (GetRecognizedObjects_mono _ _ _ _ _ _ Hle H1) as (out2 & H2 & Hsub).
  eauto.
Qed.

Lemma threshold_monotone_witness :
  exists out1 out2,
    GetRecognizedObjects Libm.exp three_class (zeros 8) (F32.lit 1 1) = Some out1
    /\ GetRecognizedObjects Libm.exp three_class (zeros 8) (F32.lit 4 1) = Some out2
    /\ out2 `sublist_of` out1.
Proof.
  apply threshold_monotone.
  - apply check_cfg_sound. vm_compute. reflexivity.
  - vm_compute. reflexivity.
  - vm_compute. reflexivity.
Defined.

(** ** Rounding: digits *)

Lemma digits2_pos_size m : digits2_pos m = Pos.size m.
Proof. induction m; cbn; congruence. Qed.

Lemma digits2_pos_bounds m :
  2 ^ (Z.pos (digits2_pos m) - 1) <= Z.pos m < 2 ^ Z.pos (digits2_pos m).
Proof.
  rewrite digits2_pos_size. split.
  - pose proof (Pos.size_le m) as H.
    assert (H' : 2 ^ Z.pos (Pos.size m) <= 2 * Z.pos m)
      by (rewrite <- Pos2Z.inj_pow; change (2 * Z.pos m) with (Z.pos m~0); lia).
    replace (Z.pos (Pos.size m)) with (Z.succ (Z.pos (Pos.size m) - 1)) in H' by lia.
    rewrite Z.pow_succ_r in H' by lia. lia.
  - pose proof (Pos.size_gt m) as H. rewrite <- Pos2Z.inj_pow. lia.
Qed.

Lemma Zdigits2_bounds z :
  0 < z -> 2 ^ (Zdigits2 z - 1) <= z < 2 ^ Zdigits2 z.
Proof. destruct z; try lia. intros _. apply digits2_pos_bounds. Qed.

Lemma Zdigits2_nonneg z : 0 <= Zdigits2 z.
Proof. destruct z; cbn; lia. Qed.

Lemma Zdigits2_pos z : 0 < z -> 0 < Zdigits2 z.
Proof. destruct z; cbn; lia. Qed.

Lemma pow2_lt_inv a b : 2 ^ a < 2 ^ b -> 0 <= b -> a < b.
Proof.
  intros H Hb. destruct (Z_lt_le_dec a b); [assumption|].
  assert (2 ^ b <= 2 ^ a) by (apply Z.pow_le_mono_r; lia). lia.
Qed.

Lemma Zdigits2_unique z d :
  0 < d -> 2 ^ (d - 1) <= z < 2 ^ d -> Zdigits2 z = d.
Proof.
  intros Hd [Hl Hu].
  assert (Hz : 0 < z) by (pose proof (Z.pow_pos_nonneg 2 (d - 1)); lia).
  pose proof (Zdigits2_bounds z Hz) as [Hl' Hu'].
  pose proof (Zdigits2_pos z Hz).
  assert (d - 1 < Zdigits2 z) by (apply pow2_lt_inv; lia).
  assert (Zdigits2 z - 1 < d) by (apply pow2_lt_inv; lia).
  lia.
Qed.

Lemma Zdigits2_shift z n : 0 < z -> 0 <= n -> Zdigits2 (z * 2 ^ n) = Zdigits2 z + n.
Proof.
  intros Hz Hn. pose proof (Zdigits2_bounds z Hz) as [Hl Hu].
  pose proof (Zdigits2_pos z Hz).
  apply Zdigits2_unique; [lia|].
  replace (Zdigits2 z + n - 1) with (Zdigits2 z - 1 + n) by lia.
  rewrite !Z.pow_add_r by lia.
  assert (0 < 2 ^ n) by (apply Z.pow_pos_nonneg; lia). nia.
Qed.

(** ** Rounding: right shifts *)

Lemma shr_1_m mrs : 0 <= shr_m mrs -> shr_m (shr_1 mrs) = shr_m mrs / 2.
Proof.
  destruct mrs as [m r s]. cbn [shr_m]. intros Hm. rewrite <- Z.div2_div.
  destruct m as [|[p|p|]|p]; try reflexivity; lia.
Qed.

Lemma shr_1_sticky mrs :
  0 <= shr_m mrs ->
  orb (shr_r (shr_1 mrs)) (shr_s (shr_1 mrs))
  = orb (Z.odd (shr_m mrs)) (orb (shr_r mrs) (shr_s mrs)).
Proof.
  destruct mrs as [m r s]. cbn. intros Hm.
  destruct m as [|[p|p|]|p]; cbn; try lia; reflexivity.
Qed.

Lemma iter_pos_inv {A} (f : A -> A) (J : Z -> A -> Prop) :
  (forall k x, 0 <= k -> J k x -> J (k + 1) (f x)) ->
  forall p k x, 0 <= k -> J k x -> J (k + Z.pos p) (SpecFloat.iter_pos f p x).
Proof.
  intros Hstep. induction p as [p IH|p IH|]; intros k x Hk HJ; cbn [SpecFloat.iter_pos].
  - replace (k + Z.pos p~1) with (k + 1 + Z.pos p + Z.pos p) by lia.
    apply IH; [lia|]. apply IH; [lia|]. now apply Hstep.
  - replace (k + Z.pos p~0) with (k + Z.pos p + Z.pos p) by lia.
    apply IH; [lia|]. now apply IH.
  - now apply Hstep.
Qed.

Lemma shr_inv_step q inexact k mrs :
  0 <= q -> 0 <= k -> shr_inv q inexact k mrs -> shr_inv q inexact (k + 1) (shr_1 mrs).
Proof.
  intros Hq Hk [Hm Hs].
  assert (H2k : 0 < 2 ^ k) by (apply Z.pow_pos_nonneg; lia).
  assert (Hm0 : 0 <= shr_m mrs) by (rewrite Hm; apply Z.div_pos; lia).
  assert (Hdiv : q / 2 ^ (k + 1) = q / 2 ^ k / 2)
    by (rewrite Z.pow_add_r, Z.div_div by lia; reflexivity).
  split.
  - rewrite shr_1_m, Hm by assumption. now rewrite Hdiv.
  - rewrite shr_1_sticky by assumption. rewrite Hdiv, Z.pow_add_r by lia.
    pose proof (Z.mul_div_le q (2 ^ k) H2k).
    pose proof (Z.div_mod (q / 2 ^ k) 2 ltac:(lia)) as Hdm.
    pose proof (Z.mod_pos_bound (q / 2 ^ k) 2 ltac:(lia)).
    intros Hor. apply orb_true_iff in Hor as [Hodd|Hrs].
    + left. rewrite Hm in Hodd. apply Z.odd_spec in Hodd as [t Ht]. nia.
    + destruct (Hs Hrs) as [Hlt|Hin]; [left|now right]. nia.
Qed.

Lemma shr_spec q l e n mrs e' :
  0 <= q ->
  shr (shr_record_of_loc q l) e n = (mrs, e') ->
  e' = e + Z.max n 0 /\ shr_inv q (l <> loc_Exact) (Z.max n 0) mrs.
Proof.
  intros Hq H. unfold shr in H.
  assert (H0 : shr_inv q (l <> loc_Exact) 0 (shr_record_of_loc q l)).
  { split.
    - rewrite Z.pow_0_r, Z.div_1_r. now destruct l as [|[]].
    - intros Hor. right. destruct l as [|[]]; cbn in Hor; congruence. }
  destruct n as [|p|p]; inversion H; subst; clear H.
  - rewrite Z.max_l by lia. split; [lia|assumption].
  - rewrite Z.max_l by lia. split; [reflexivity|].
    change (Z.pos p) with (0 + Z.pos p).
    apply (iter_pos_inv shr_1 (shr_inv q (l <> loc_Exact))); [|lia|assumption].
    intros k x Hk. now apply shr_inv_step.
  - rewrite Z.max_r by lia. split; [lia|assumption].
Qed.

Lemma round_nearest_even_cases mrs :
  round_nearest_even (shr_m mrs) (loc_of_shr_record mrs) = shr_m mrs
  \/ (round_nearest_even (shr_m mrs) (loc_of_shr_record mrs) = shr_m mrs + 1
      /\ orb (shr_r mrs) (shr_s mrs) = true).
Proof.
  destruct mrs as [m [] []]; cbn; auto.
  destruct (Z.even m); auto.
Qed.

Section Round.
Variables prec emax : Z.

(** What [binary_round_aux] computes on a non-negative mantissa: a first
    shift by [k1] to the exponent of the format, a rounding that may add
    one unit only if something was lost, and a second shift by [k2]. *)
Lemma binary_round_aux_spec sx mx ex lx :
  0 <= mx ->
  exists m1,
    let k1 := Z.max (fexp prec emax (Zdigits2 mx + ex) - ex) 0 in
    let e1 := ex + k1 in
    let k2 := Z.max (fexp prec emax (Zdigits2 m1 + e1) - e1) 0 in
    (m1 = mx / 2 ^ k1
     \/ (m1 = mx / 2 ^ k1 + 1 /\ (mx / 2 ^ k1 * 2 ^ k1 < mx \/ lx <> loc_Exact)))
    /\ binary_round_aux prec emax sx mx ex lx
       = match m1 / 2 ^ k2 with
         | Z0 => S754_zero sx
         | Z.pos m =>
             if e1 + k2 <=? emax - prec then S754_finite sx m (e1 + k2)
             else S754_infinity sx
         | Z.neg _ => S754_nan
         end.
Proof.
  intros Hmx. unfold binary_round_aux.
  destruct (shr_fexp prec emax mx ex lx) as [mrs1 e1] eqn:E1.
  unfold shr_fexp in E1. apply shr_spec in E1 as [He1 [Hm1 Hs1]]; [|assumption].
  set (k1 := Z.max (fexp prec emax (Zdigits2 mx + ex) - ex) 0) in *.
  assert (Hk1 : 0 <= k1) by (unfold k1; lia).
  assert (Hq1 : 0 <= mx / 2 ^ k1)
    by (apply Z.div_pos; [assumption|apply Z.pow_pos_nonneg; lia]).
  set (m1 := round_nearest_even (shr_m mrs1) (loc_of_shr_record mrs1)).
  assert (Hm1' : 0 <= m1)
    by (unfold m1; destruct (round_nearest_even_cases mrs1) as [->|[-> _]]; lia).
  destruct (shr_fexp prec emax m1 e1 loc_Exact) as [mrs2 e2] eqn:E2.
  unfold shr_fexp in E2. apply shr_spec in E2 as [He2 [Hm2 _]]; [|assumption].
  exists m1. cbv zeta. fold k1. rewrite <- He1.
  split.
  - unfold m1. destruct (round_nearest_even_cases mrs1) as [->|[-> Hor]].
    + now left.
    + right. rewrite Hm1. split; [reflexivity|]. now apply Hs1.
  - rewrite Hm2, He2. reflexivity.
Qed.
End Round.

(** ** Rounding: comparing values *)

Lemma vle_scale c m e m' e' :
  c <= e -> c <= e' ->
  (vle m e m' e' <-> m * 2 ^ (e - c) <= m' * 2 ^ (e' - c)).
Proof.
  intros Hc Hc'. unfold vle. set (c0 := Z.min e e').
  assert (Hp : 0 < 2 ^ (c0 - c)) by (apply Z.pow_pos_nonneg; lia).
  replace (e - c) with (e - c0 + (c0 - c)) by lia.
  replace (e' - c) with (e' - c0 + (c0 - c)) by lia.
  rewrite !Z.pow_add_r by lia. rewrite !Z.mul_assoc.
  split; intros H.
  - now apply Z.mul_le_mono_pos_r.
  - now apply Z.mul_le_mono_pos_r in H.
Qed.

Lemma vle_pos m e m' e' : 0 < m -> vle m e m' e' -> 0 < m'.
Proof.
  unfold vle. intros Hm H.
  assert (0 < 2 ^ (e - Z.min e e')) by (apply Z.pow_pos_nonneg; lia).
  assert (0 < 2 ^ (e' - Z.min e e')) by (apply Z.pow_pos_nonneg; lia).
  nia.
Qed.

Lemma vle_mono m e m1 m2 e' : m1 <= m2 -> vle m e m1 e' -> vle m e m2 e'.
Proof.
  unfold vle. intros Hm H.
  assert (0 < 2 ^ (e' - Z.min e e')) by (apply Z.pow_pos_nonneg; lia).
  nia.
Qed.

Lemma pow2_le_inv a b : 2 ^ a <= 2 ^ b -> 0 <= b -> a <= b.
Proof.
  intros H Hb. destruct (Z_le_gt_dec a b); [assumption|].
  assert (2 ^ b < 2 ^ a) by (apply Z.pow_lt_mono_r; lia). lia.
Qed.

(** value (m, e) <= value (m', e') orders the magnitudes. *)
Lemma vle_digits m e m' e' :
  0 < m -> 0 < m' -> vle m e m' e' -> Zdigits2 m + e <= Zdigits2 m' + e'.
Proof.
  intros Hm Hm' H. unfold vle in H. set (c := Z.min e e') in *.
  pose proof (Zdigits2_bounds m Hm) as [Hl _].
  pose proof (Zdigits2_bounds m' Hm') as [_ Hu].
  pose proof (Zdigits2_pos m Hm). pose proof (Zdigits2_pos m' Hm').
  assert (Hp : 0 < 2 ^ (e - c)) by (apply Z.pow_pos_nonneg; lia).
  assert (Hp' : 0 < 2 ^ (e' - c)) by (apply Z.pow_pos_nonneg; lia).
  assert (Hlt : 2 ^ (Zdigits2 m - 1 + (e - c)) < 2 ^ (Zdigits2 m' + (e' - c))).
  { rewrite !Z.pow_add_r by lia. nia. }
  apply pow2_lt_inv in Hlt; lia.
Qed.

Lemma Zdigits2_le_pow z a : 0 <= a -> 0 <= z <= 2 ^ a -> Zdigits2 z <= a + 1.
Proof.
  intros Ha Hz. destruct (Z_le_gt_dec z 0) as [Hz0|Hz0].
  - replace z with 0 by lia. cbn. lia.
  - pose proof (Zdigits2_bounds z ltac:(lia)) as [Hl _].
    assert (Zdigits2 z - 1 <= a) by (apply pow2_le_inv; lia). lia.
Qed.

Lemma new_location_Exact nb k : new_location nb k = loc_Exact -> k = 0.
Proof.
  unfold new_location, new_location_even, new_location_odd.
  destruct (Z.even nb); destruct (Z.eqb_spec k 0); congruence.
Qed.

(** ** Rounding: a quotient of at most one *)

Section Bounds.
Variables prec emax : Z.
Hypothesis Hprec : 0 < prec.
Hypothesis Hemax : 3 <= emax.

Lemma fexp_le mu : mu <= 1 -> fexp prec emax mu <= 1 - prec.
Proof. unfold fexp, emin. lia. Qed.

Lemma fexp_mono a b : a <= b -> fexp prec emax a <= fexp prec emax b.
Proof. unfold fexp. lia. Qed.

(** Rounding a value of at most 1, given at an exponent of at most
    [-prec], yields a float of at most 1. *)
Lemma binary_round_aux_in_unit q e' l :
  0 <= q -> e' <= - prec -> q <= 2 ^ (- e') ->
  (q = 2 ^ (- e') -> l = loc_Exact) ->
  in_unit prec (binary_round_aux prec emax false q e' l).
Proof.
  intros Hq He' Hle Hexact.
  destruct (binary_round_aux_spec prec emax false q e' l Hq) as (m1 & Hm1 & ->).
  cbv zeta in Hm1 |- *.
  set (k1 := Z.max (fexp prec emax (Zdigits2 q + e') - e') 0) in *.
  set (e1 := e' + k1) in *.
  set (k2 := Z.max (fexp prec emax (Zdigits2 m1 + e1) - e1) 0) in *.
  assert (Hk1 : 0 <= k1) by (unfold k1; lia).
  assert (Hk2 : 0 <= k2) by (unfold k2; lia).
  (* the first shift stays at or below the binade of 1 *)
  assert (Hd : Zdigits2 q + e' <= 1)
    by (pose proof (Zdigits2_le_pow q (- e')); lia).
  assert (He1 : e1 <= 1 - prec).
  { pose proof (fexp_le _ Hd). unfold e1, k1. lia. }
  assert (H2k1 : 0 < 2 ^ k1) by (apply Z.pow_pos_nonneg; lia).
  assert (Hsplit : 2 ^ (- e') = 2 ^ (- e1) * 2 ^ k1).
  { rewrite <- Z.pow_add_r by lia. f_equal. unfold e1. lia. }
  assert (Hq1 : q / 2 ^ k1 <= 2 ^ (- e1)).
  { apply Z.div_le_upper_bound; [assumption|]. rewrite Z.mul_comm. lia. }
  assert (Hq1' : 0 <= q / 2 ^ k1) by (apply Z.div_pos; lia).
  pose proof (Z.mul_div_le q (2 ^ k1) H2k1) as Hfloor.
  assert (Hm1le : 0 <= m1 <= 2 ^ (- e1)).
  { destruct Hm1 as [->|[-> Hlost]]; [lia|].
    split; [lia|].
    destruct (Z.eq_dec (q / 2 ^ k1) (2 ^ (- e1))) as [Heq|Hne]; [|lia].
    exfalso.
    assert (Hqeq : q = 2 ^ (- e')) by nia.
    destruct Hlost as [Hlt|Hl]; [nia|]. now apply Hl, Hexact. }
  (* the second shift *)
  assert (Hd1 : Zdigits2 m1 + e1 <= 1)
    by (pose proof (Zdigits2_le_pow m1 (- e1)); lia).
  assert (He2 : e1 + k2 <= 1 - prec).
  { pose proof (fexp_le _ Hd1). unfold k2. lia. }
  assert (H2k2 : 0 < 2 ^ k2) by (apply Z.pow_pos_nonneg; lia).
  assert (Hsplit2 : 2 ^ (- e1) = 2 ^ (- (e1 + k2)) * 2 ^ k2).
  { rewrite <- Z.pow_add_r by lia. f_equal. lia. }
  assert (Hm2 : 0 <= m1 / 2 ^ k2 <= 2 ^ (- (e1 + k2))).
  { split; [apply Z.div_pos; lia|].
    apply Z.div_le_upper_bound; [assumption|]. rewrite Z.mul_comm. lia. }
  destruct (m1 / 2 ^ k2) as [|mr|mr] eqn:Em2; [now left| |lia].
  replace (e1 + k2 <=? emax - prec) with true by (symmetry; apply Z.leb_le; lia).
  right. exists mr, (e1 + k2). split; [reflexivity|].
  destruct (Z.eq_dec (e1 + k2) (1 - prec)) as [Heq|Hne]; [right|left; lia].
  split; [assumption|]. rewrite Heq in Hm2.
  replace (- (1 - prec)) with (prec - 1) in Hm2 by lia. exact (proj2 Hm2).
Qed.

Lemma SFdiv_in_unit m e md ed :
  vle (Z.pos m) e (Z.pos md) ed ->
  in_unit prec (SFdiv prec emax (S754_finite false m e) (S754_finite false md ed)).
Proof.
  intros Hle. unfold SFdiv, SFdiv_core_binary. cbn [xorb].
  set (D := Zdigits2 (Z.pos m) + e - (Zdigits2 (Z.pos md) + ed)).
  set (e' := Z.min (fexp prec emax D) (e - ed)).
  set (s := e - ed - e').
  assert (HD : D <= 0).
  { assert (Hm0 : 0 < Z.pos m) by lia. assert (Hmd0 : 0 < Z.pos md) by lia.
    pose proof (vle_digits _ _ _ _ Hm0 Hmd0 Hle). unfold D. lia. }
  assert (He' : e' <= - prec).
  { assert (HD1 : D <= 1) by lia.
    pose proof (fexp_le D HD1). unfold e', fexp, emin in *. lia. }
  assert (Hs : 0 <= s) by (unfold s, e'; lia).
  set (m' := match s with
             | Z.pos _ => Z.shiftl (Z.pos m) s
             | Z0 => Z.pos m
             | Z.neg _ => Z0
             end).
  assert (Hm' : m' = Z.pos m * 2 ^ s).
  { unfold m'. destruct s as [|p|p] eqn:Es.
    - rewrite Z.pow_0_r. lia.
    - now rewrite Z.shiftl_mul_pow2 by lia.
    - lia. }
  assert (Hbound : m' <= Z.pos md * 2 ^ (- e')).
  { rewrite Hm'. destruct (Z_le_gt_dec e ed) as [Hc|Hc].
    - apply (vle_scale e) in Hle; [|lia..]. rewrite Z.sub_diag, Z.pow_0_r in Hle.
      replace (- e') with (ed - e + s) by (unfold s; lia).
      rewrite Z.pow_add_r by lia.
      assert (0 < 2 ^ s) by (apply Z.pow_pos_nonneg; lia). nia.
    - apply (vle_scale ed) in Hle; [|lia..]. rewrite Z.sub_diag, Z.pow_0_r in Hle.
      replace s with (e - ed + - e') by (unfold s; lia).
      rewrite Z.pow_add_r by lia.
      assert (0 < 2 ^ (- e')) by (apply Z.pow_pos_nonneg; lia). nia. }
  pose proof (Z_div_mod m' (Z.pos md) ltac:(lia)) as Hdm.
  destruct (Z.div_eucl m' (Z.pos md)) as [q r]. destruct Hdm as [Hdm Hr].
  assert (Hm'0 : 0 <= m')
    by (rewrite Hm'; assert (0 < 2 ^ s) by (apply Z.pow_pos_nonneg; lia); lia).
  assert (H2e : 0 < 2 ^ (- e')) by (apply Z.pow_pos_nonneg; lia).
  assert (Hq0 : 0 <= q) by nia.
  apply binary_round_aux_in_unit; try assumption.
  - nia.
  - intros Hq. assert (r = 0) by nia. subst r.
    unfold new_location, new_location_even, new_location_odd.
    now destruct (Z.even (Z.pos md)).
Qed.
End Bounds.

(** ** Rounding: never below a float under the value *)

Section Above.
Variables prec emax : Z.
Hypothesis Hprec : 0 < prec.

(** A right shift to the exponent of the format keeps the value at or
    above every canonical float (m, e) that was below it. *)
Lemma shift_keeps_above m e M E :
  0 < m -> 0 < M ->
  fexp prec emax (Zdigits2 m + e) = e ->
  vle m e M E ->
  let k := Z.max (fexp prec emax (Zdigits2 M + E) - E) 0 in
  vle m e (M / 2 ^ k) (E + k).
Proof.
  intros Hm HM Hcanon Hle. cbv zeta.
  destruct (Z_le_gt_dec (fexp prec emax (Zdigits2 M + E) - E) 0) as [Hk|Hk].
  - rewrite Z.max_r by lia. rewrite Z.pow_0_r, Z.div_1_r, Z.add_0_r. assumption.
  - rewrite Z.max_l by lia.
    set (k := fexp prec emax (Zdigits2 M + E) - E) in *.
    pose proof (vle_digits _ _ _ _ Hm HM Hle) as Hmu.
    pose proof (fexp_mono prec emax _ _ Hmu) as Hfe. rewrite Hcanon in Hfe.
    pose proof (Zdigits2_bounds m Hm) as [Hml Hmu'].
    pose proof (Zdigits2_bounds M HM) as [HMl HMu].
    pose proof (Zdigits2_pos m Hm) as Hdm. pose proof (Zdigits2_pos M HM) as HdM.
    assert (H2k : 0 < 2 ^ k) by (apply Z.pow_pos_nonneg; lia).
    destruct (Z.eq_dec (E + k) e) as [Heq|Hne].
    + (* same exponent: (m, e) is a multiple of the new unit *)
      apply (vle_scale E) in Hle; [|lia..].
      rewrite Z.sub_diag, Z.pow_0_r in Hle.
      replace (e - E) with k in Hle by lia.
      apply (vle_scale e); [lia..|].
      replace (E + k - e) with 0 by lia. rewrite Z.sub_diag, Z.pow_0_r.
      assert (m <= M / 2 ^ k) by (apply Z.div_le_lower_bound; lia). lia.
    + (* a higher binade: its least float is already above (m, e) *)
      assert (Hlt : e < E + k) by (unfold k in *; lia).
      assert (HkM : k = Zdigits2 M - prec)
        by (unfold k, fexp in *; lia).
      assert (Hmag : Zdigits2 m + e < Zdigits2 M + E)
        by (unfold k, fexp in *; lia).
      assert (Hlow : 2 ^ (prec - 1) <= M / 2 ^ k).
      { apply Z.div_le_lower_bound; [assumption|].
        rewrite <- Z.pow_add_r by lia.
        replace (k + (prec - 1)) with (Zdigits2 M - 1) by lia. assumption. }
      apply (vle_scale e); [lia..|]. rewrite Z.sub_diag, Z.pow_0_r.
      assert (Hpw : 2 ^ Zdigits2 m <= 2 ^ (prec - 1) * 2 ^ (E + k - e)).
      { rewrite <- Z.pow_add_r by lia. apply Z.pow_le_mono_r; lia. }
      assert (0 < 2 ^ (E + k - e)) by (apply Z.pow_pos_nonneg; lia).
      nia.
Qed.

(** Rounding a positive value never goes below a canonical float that is
    at most that value: the result is that large, or it overflows. *)
Lemma binary_round_aux_above m e M E l :
  0 < m -> 0 < M ->
  fexp prec emax (Zdigits2 m + e) = e ->
  vle m e M E ->
  binary_round_aux prec emax false M E l = S754_infinity false
  \/ exists md ed,
       binary_round_aux prec emax false M E l = S754_finite false md ed
       /\ vle m e (Z.pos md) ed.
Proof.
  intros Hm HM Hcanon Hle.
  destruct (binary_round_aux_spec prec emax false M E l ltac:(lia)) as (m1 & Hm1 & ->).
  cbv zeta in Hm1 |- *.
  pose proof (shift_keeps_above m e M E Hm HM Hcanon Hle) as H1. cbv zeta in H1.
  set (k1 := Z.max (fexp prec emax (Zdigits2 M + E) - E) 0) in *.
  assert (Hle1 : vle m e m1 (E + k1))
    by (destruct Hm1 as [->|[-> _]]; [assumption|eapply vle_mono; [|eassumption]; lia]).
  assert (Hm1pos : 0 < m1) by exact (vle_pos _ _ _ _ Hm Hle1).
  pose proof (shift_keeps_above m e m1 (E + k1) Hm Hm1pos Hcanon Hle1) as H2.
  cbv zeta in H2.
  set (k2 := Z.max (fexp prec emax (Zdigits2 m1 + (E + k1)) - (E + k1)) 0) in *.
  pose proof (vle_pos _ _ _ _ Hm H2) as Hpos.
  destruct (m1 / 2 ^ k2) as [|md|md]; [lia| |lia].
  destruct (E + k1 + k2 <=? emax - prec); [right|left; reflexivity].
  exists md, (E + k1 + k2). split; [reflexivity|assumption].
Qed.
End Above.

Lemma pos_iter_xO m d : Z.pos (Pos.iter xO m d) = Z.pos m * 2 ^ Z.pos d.
Proof.
  revert m. induction d using Pos.peano_ind; intros m.
  - cbn [Pos.iter]. lia.
  - rewrite Pos.iter_succ. rewrite Pos2Z.inj_succ, Z.pow_succ_r by lia.
    change (Z.pos (Pos.iter xO m d)~0) with (2 * Z.pos (Pos.iter xO m d)).
    rewrite IHd. ring.
Qed.

Lemma shl_align_spec mx ex ex' :
  snd (shl_align mx ex ex') = Z.min ex ex'
  /\ Z.pos (fst (shl_align mx ex ex')) = Z.pos mx * 2 ^ (ex - Z.min ex ex').
Proof.
  unfold shl_align. destruct (ex' - ex) as [|d|d] eqn:Ed; cbn [fst snd].
  - rewrite Z.min_l by lia. rewrite Z.sub_diag, Z.pow_0_r. lia.
  - rewrite Z.min_l by lia. rewrite Z.sub_diag, Z.pow_0_r. lia.
  - rewrite Z.min_r by lia. split; [reflexivity|].
    rewrite pos_iter_xO. f_equal. f_equal. lia.
Qed.

Section Sum.
Variables prec emax : Z.
Hypothesis Hprec : 0 < prec.

(** Adding a positive float to a canonical positive float never yields
    less than the latter. *)
Lemma SFadd_above mx ex m e :
  fexp prec emax (Z.pos (digits2_pos m) + e) = e ->
  SFadd prec emax (S754_finite false mx ex) (S754_finite false m e)
  = S754_infinity false
  \/ exists md ed,
       SFadd prec emax (S754_finite false mx ex) (S754_finite false m e)
       = S754_finite false md ed
       /\ vle (Z.pos m) e (Z.pos md) ed.
Proof.
  intros Hcanon. unfold SFadd. cbn [cond_Zopp].
  set (ez := Z.min ex e).
  destruct (shl_align_spec mx ex ez) as [_ Ha].
  destruct (shl_align_spec m e ez) as [_ Hb].
  replace (Z.min ex ez) with ez in Ha by (unfold ez; lia).
  replace (Z.min e ez) with ez in Hb by (unfold ez; lia).
  set (a := fst (shl_align mx ex ez)) in *.
  set (b := fst (shl_align m e ez)) in *.
  change (Z.pos a + Z.pos b) with (Z.pos (a + b)).
  cbn [binary_normalize]. unfold binary_round.
  destruct (shl_align_spec (a + b) ez (fexp prec emax (Z.pos (digits2_pos (a + b)) + ez)))
    as [Hez Hmz].
  destruct (shl_align (a + b) ez (fexp prec emax (Z.pos (digits2_pos (a + b)) + ez)))
    as [mz ez2]. cbn [fst snd] in Hez, Hmz.
  apply binary_round_aux_above; try assumption; try lia.
  assert (Hez2 : ez2 <= ez) by lia.
  apply (vle_scale ez2); [unfold ez in *; lia|lia|].
  rewrite Z.sub_diag, Z.pow_0_r, Hmz, <- Hez.
  replace (e - ez2) with (e - ez + (ez - ez2)) by lia.
  rewrite Z.pow_add_r by (unfold ez in *; lia).
  assert (0 < 2 ^ (ez - ez2)) by (apply Z.pow_pos_nonneg; lia).
  rewrite Pos2Z.inj_add. nia.
Qed.
End Sum.

(** ** Sigmoid *)

Lemma one_eq : F32.one = S754_finite false 8388608 (-23).
Proof. reflexivity. Qed.

Lemma in_unit_leb r :
  in_unit F32.prec r -> F32.leb F32.zero r = true /\ F32.leb r F32.one = true.
Proof.
  intros [->|(mr & er & -> & Hr)]; [split; reflexivity|].
  split; [reflexivity|]. rewrite one_eq.
  unfold F32.leb, SFleb, SFcompare, F32.prec in *.
  destruct (Z.compare_spec er (-23)) as [Heq|Hlt|Hgt]; [|reflexivity|lia].
  rewrite compare_cont_Eq.
  destruct (Pos.compare_spec mr 8388608) as [?|?|Hgt]; try reflexivity.
  destruct Hr as [?|[_ Hle]]; [lia|]. change (2 ^ (24 - 1)) with 8388608 in Hle. lia.
Qed.

Lemma Sigmoid_in_unit exp v :
  nonneg_finite (exp v) -> in_unit F32.prec (Sigmoid exp v).
Proof.
  unfold Sigmoid. intros [->|(m & e & -> & Hvalid)]; [now left|].
  unfold F32.valid, valid_binary, bounded, canonical_mantissa in Hvalid.
  apply andb_true_iff in Hvalid as [Hcanon _]. apply Z.eqb_eq in Hcanon.
  unfold F32.div, F32.add. rewrite one_eq.
  destruct (SFadd_above F32.prec F32.emax ltac:(reflexivity) 8388608 (-23) m e Hcanon)
    as [->|(md & ed & -> & Hle)].
  - now left.
  - apply SFdiv_in_unit; [reflexivity|unfold F32.emax; lia|assumption].
Qed.

(** C1 fails on the code. At v = 20 the result is exactly 1.0, at v = -200
    exactly 0.0: not strictly inside (0, 1).  At v = 100 [exp] overflows to
    +infinity and the result is infinity / infinity = NaN. *)
Lemma Sigmoid_leaves_open_interval :
  F32.is_finite (F32.of_int 20) = true
  /\ Sigmoid Libm.exp (F32.of_int 20) = F32.one
  /\ F32.ltb (Sigmoid Libm.exp (F32.of_int 20)) F32.one = false
  /\ Sigmoid Libm.exp (F32.of_int (-200)) = F32.zero
  /\ F32.ltb F32.zero (Sigmoid Libm.exp (F32.of_int (-200))) = false
  /\ Libm.exp (F32.of_int 100) = F32.infinity
  /\ Sigmoid Libm.exp (F32.of_int 100) = F32.nan.
Proof. repeat split; vm_compute; reflexivity. Qed.

(** C1, amended. Wherever [exp] returns a finite non-negative float (it
    neither overflows nor yields NaN), sigmoid lies in the closed interval
    [0, 1]; and sigmoid 0 = 0.5. *)
Theorem Sigmoid_unit_interval exp :
  (forall v, nonneg_finite (exp v) ->
     F32.leb F32.zero (Sigmoid exp v) = true
     /\ F32.leb (Sigmoid exp v) F32.one = true)
  /\ (exp F32.zero = F32.one -> Sigmoid exp F32.zero = F32.half).
Proof.
  split.
  - intros v Hv. now apply in_unit_leb, Sigmoid_in_unit.
  - intros H0. unfold Sigmoid. rewrite H0. reflexivity.
Qed.

Lemma Sigmoid_unit_interval_witness :
  (F32.leb F32.zero (Sigmoid Libm.exp (F32.lit 25 1)) = true
   /\ F32.leb (Sigmoid Libm.exp (F32.lit 25 1)) F32.one = true)
  /\ Sigmoid Libm.exp F32.zero = F32.half.
Proof.
  split.
  - apply (proj1 (Sigmoid_unit_interval Libm.exp)).
    right. eexists _, _. split; vm_compute; reflexivity.
  - apply (proj2 (Sigmoid_unit_interval Libm.exp)). reflexivity.
Defined.

(** ** Thresholds above every score *)

(** C2 fails on the code. On [saturated_tensor], of the expected length and
    without any NaN or infinity, objectness and top-class probability both
    round to exactly 1.0, the score 1.0 is not below the threshold 1.0, and a
    detection is emitted. *)
Lemma threshold_one_emits :
  Z.of_nat (length saturated_tensor) = tensor_length yolo
  /\ GetRecognizedObjects Libm.exp yolo saturated_tensor F32.one
     = Some [ {| label := "aeroplane";
                 x := S754_finite true 10737424 (-23);
                 y := S754_finite true 12750688 (-22);
                 width := S754_finite false 9059697 (-18);
                 height := S754_finite false 9982444 (-18);
                 confidence := F32.one |} ]
  /\ GetRecognizedObjects Libm.exp yolo saturated_tensor F32.one <> Some [].
Proof.
  assert (H : GetRecognizedObjects Libm.exp yolo saturated_tensor F32.one
     = Some [ {| label := "aeroplane";
                 x := S754_finite true 10737424 (-23);
                 y := S754_finite true 12750688 (-22);
                 width := S754_finite false 9059697 (-18);
                 height := S754_finite false 9982444 (-18);
                 confidence := F32.one |} ])
    by (vm_compute; reflexivity).
  split; [vm_compute; reflexivity|]. split; [exact H|]. rewrite H. discriminate.
Qed.

Lemma mapM_discard {A B} (f : A -> option (option B)) l :
  (forall a, a ∈ l -> f a = Some None) -> (ds ← mapM f l; Some (omap (fun d => d) ds)) = Some [].
Proof.
  induction l as [|a l IH]; intros H; [reflexivity|]. cbn.
  rewrite (H a) by (apply elem_of_cons; now left). cbn.
  assert (IH' := IH (fun a' Ha' => H a' ltac:(apply elem_of_cons; now right))).
  destruct (mapM f l) as [ds|]; cbn in *; [|discriminate]. assumption.
Qed.

(** C2, amended. On a tensor of the expected length whose objectness logits
    all have a finite non-negative exponential (no overflow, no NaN), every
    threshold strictly above 1.0 yields the empty output. *)
Theorem threshold_above_one_empty exp cfg tensor threshold :
  cfg_ok cfg ->
  Z.of_nat (length tensor) = tensor_length cfg ->
  (forall cy cx b tc,
     0 <= cy < ROW_COUNT cfg -> 0 <= cx < COL_COUNT cfg ->
     0 <= b < BOXES_PER_CELL cfg ->
     field cfg tensor cy cx b 4 = Some tc -> nonneg_finite (exp tc)) ->
  F32.ltb F32.one threshold = true ->
  GetRecognizedObjects exp cfg tensor threshold = Some [].
Proof.
  intros Hok Hlen Hexp Hthr. rewrite decode_refines by assumption.
  unfold Spec.decode. apply mapM_discard.
  intros [[cy cx] b] Ha. apply elem_of_scan_order in Ha as (Hcy & Hcx & Hb).
  rewrite detect_fields.
  pose proof (ok_classes _ Hok) as HC. pose proof (ok_anchors _ Hok) as Han.
  destruct (field_is_Some cfg Hok tensor cy cx b 0) as [tx ->]; try (assumption || lia).
  destruct (field_is_Some cfg Hok tensor cy cx b 1) as [ty ->]; try (assumption || lia).
  destruct (field_is_Some cfg Hok tensor cy cx b 2) as [tw ->]; try (assumption || lia).
  destruct (field_is_Some cfg Hok tensor cy cx b 3) as [th ->]; try (assumption || lia).
  destruct (field_is_Some cfg Hok tensor cy cx b 4) as [tc Htc]; try (assumption || lia).
  rewrite Htc.
  destruct (at_index_is_Some (anchors cfg) (2 * b)) as [aw ->]; [lia|].
  destruct (at_index_is_Some (anchors cfg) (2 * b + 1)) as [ah ->]; [lia|].
  cbn [mbind option_bind].
  destruct (in_unit_leb _ (Sigmoid_in_unit exp tc (Hexp cy cx b tc Hcy Hcx Hb Htc)))
    as [_ Hle].
  now rewrite (leb_ltb_trans _ _ _ Hle Hthr).
Qed.

Lemma lookup_zeros n i v : zeros n !! i = Some v -> v = F32.zero.
Proof. unfold zeros. intros H. now apply lookup_replicate in H as [-> _]. Qed.

Lemma threshold_above_one_empty_witness :
  GetRecognizedObjects Libm.exp yolo yolo_zeros (F32.lit 15 1) = Some [].
Proof.
  apply threshold_above_one_empty.
  - apply check_cfg_sound. vm_compute. reflexivity.
  - vm_compute. reflexivity.
  - intros cy cx b tc _ _ _ H. unfold field, at_index in H.
    destruct (_ <? 0); [discriminate|]. apply lookup_zeros in H. subst tc.
    right. eexists _, _. split; vm_compute; reflexivity.
  - vm_compute. reflexivity.
Defined.

(** ** Rounding: the canonical result *)

Section Canonical.
Variables prec emax : Z.
Hypothesis Hprec : 0 < prec.

Lemma fexp_ge_emin mu : emin prec emax <= fexp prec emax mu.
Proof. unfold fexp. lia. Qed.

(** On an input already at or below the exponent of the format,
    [binary_round_aux] shifts once, rounds to [m1], and renormalises only
    when [m1] has reached [2^prec]. *)
Lemma binary_round_aux_canonical sx mx ex lx :
  0 <= mx -> ex <= fexp prec emax (Zdigits2 mx + ex) ->
  let e1 := fexp prec emax (Zdigits2 mx + ex) in
  let a := mx / 2 ^ (e1 - ex) in
  exists m1,
    (m1 = a \/ (m1 = a + 1 /\ (a * 2 ^ (e1 - ex) < mx \/ lx <> loc_Exact)))
    /\ 0 <= a < 2 ^ prec
    /\ binary_round_aux prec emax sx mx ex lx
       = if m1 =? 0 then S754_zero sx
         else if m1 <? 2 ^ prec
         then (if e1 <=? emax - prec then S754_finite sx (Z.to_pos m1) e1
               else S754_infinity sx)
         else (if e1 + 1 <=? emax - prec
               then S754_finite sx (Z.to_pos (2 ^ (prec - 1))) (e1 + 1)
               else S754_infinity sx).
Proof.
  intros Hmx HP. cbv zeta.
  destruct (binary_round_aux_spec prec emax sx mx ex lx Hmx) as (m1 & Hm1 & ->).
  cbv zeta in Hm1 |- *.
  set (e1 := fexp prec emax (Zdigits2 mx + ex)) in *.
  replace (Z.max (e1 - ex) 0) with (e1 - ex) in * by lia.
  replace (ex + (e1 - ex)) with e1 in * by lia.
  set (k1 := e1 - ex) in *.
  set (a := mx / 2 ^ k1) in *.
  assert (Hk1 : 0 <= k1) by (unfold k1; lia).
  assert (H2k1 : 0 < 2 ^ k1) by (apply Z.pow_pos_nonneg; lia).
  assert (H2p : 0 < 2 ^ prec) by (apply Z.pow_pos_nonneg; lia).
  assert (Ha : 0 <= a < 2 ^ prec).
  { split; [apply Z.div_pos; lia|].
    apply Z.div_lt_upper_bound; [assumption|].
    destruct (Z.eq_dec mx 0) as [->|Hne]; [nia|].
    pose proof (Zdigits2_bounds mx ltac:(lia)) as [_ Hu].
    assert (2 ^ Zdigits2 mx <= 2 ^ (k1 + prec)).
    { apply Z.pow_le_mono_r; [lia|]. unfold k1, e1, fexp. lia. }
    rewrite Z.pow_add_r in * by lia. lia. }
  pose proof (fexp_ge_emin (Zdigits2 mx + ex)) as Hemin. fold e1 in Hemin.
  exists m1. split; [assumption|]. split; [assumption|].
  assert (Hm1r : 0 <= m1 <= 2 ^ prec) by (destruct Hm1 as [->|[-> _]]; lia).
  destruct (Z.eqb_spec m1 0) as [->|Hm10].
  - (* rounded to zero *)
    cbn [Zdigits2]. rewrite Z.div_0_l; [reflexivity|].
    apply Z.pow_nonzero; lia.
  - destruct (Z.ltb_spec m1 (2 ^ prec)) as [Hlt|Hge].
    + (* no carry: the second shift is empty *)
      assert (Hd : Zdigits2 m1 <= prec).
      { pose proof (Zdigits2_bounds m1 ltac:(lia)) as [Hl _].
        assert (Zdigits2 m1 - 1 < prec) by (apply pow2_lt_inv; lia). lia. }
      replace (Z.max (fexp prec emax (Zdigits2 m1 + e1) - e1) 0) with 0
        by (unfold fexp in *; lia).
      rewrite Z.pow_0_r, Z.div_1_r, Z.add_0_r.
      destruct m1 as [|p|p]; try lia. reflexivity.
    + (* carry: m1 = 2^prec, one more exact shift *)
      assert (Heq : m1 = 2 ^ prec) by lia.
      assert (Hd : Zdigits2 m1 = prec + 1).
      { apply Zdigits2_unique; [lia|]. rewrite Heq.
        replace (prec + 1 - 1) with prec by lia.
        split; [lia|]. apply Z.pow_lt_mono_r; lia. }
      rewrite Hd.
      replace (Z.max (fexp prec emax (prec + 1 + e1) - e1) 0) with 1
        by (unfold fexp in *; lia).
      assert (Hhalf : m1 / 2 ^ 1 = 2 ^ (prec - 1)).
      { rewrite Heq. replace prec with (prec - 1 + 1) at 1 by lia.
        rewrite Z.pow_add_r by lia. apply Z.div_mul. lia. }
      rewrite Hhalf.
      assert (Hpos : 0 < 2 ^ (prec - 1)) by (apply Z.pow_pos_nonneg; lia).
      destruct (2 ^ (prec - 1)) as [|p|p] eqn:Ep; try lia. reflexivity.
Qed.
End Canonical.

(** ** Powers of two as reals *)

Lemma pow2_pos e : (0 < pow2 e)%R.
Proof. unfold pow2. apply powerRZ_lt. lra. Qed.

Lemma pow2_add a b : pow2 (a + b) = (pow2 a * pow2 b)%R.
Proof. unfold pow2. apply powerRZ_add. lra. Qed.

Lemma pow2_0 : pow2 0 = 1%R.
Proof. reflexivity. Qed.

Lemma pow2_IZR k : 0 <= k -> IZR (2 ^ k) = pow2 k.
Proof.
  intros Hk. unfold pow2. rewrite <- (Z2Nat.id k) by lia.
  rewrite <- pow_IZR, <- pow_powerRZ. reflexivity.
Qed.

Lemma pow2_ge_1 k : 0 <= k -> (1 <= pow2 k)%R.
Proof.
  intros Hk. rewrite <- pow2_IZR by assumption. apply IZR_le.
  pose proof (Z.pow_pos_nonneg 2 k). lia.
Qed.

Lemma pow2_le a b : a <= b -> (pow2 a <= pow2 b)%R.
Proof.
  intros H. replace b with (a + (b - a)) by lia. rewrite pow2_add.
  pose proof (pow2_pos a). pose proof (pow2_ge_1 (b - a) ltac:(lia)). nra.
Qed.

Lemma pow2_lt a b : a < b -> (pow2 a < pow2 b)%R.
Proof.
  intros H. replace b with (a + (b - a)) by lia. rewrite pow2_add.
  pose proof (pow2_pos a).
  assert (2 <= pow2 (b - a))%R.
  { rewrite <- pow2_IZR by lia. apply IZR_le.
    change 2 with (2 ^ 1) at 1. apply Z.pow_le_mono_r; lia. }
  nra.
Qed.

Lemma pow2_lt_inv_R a b : (pow2 a < pow2 b)%R -> a < b.
Proof.
  intros H. destruct (Z_lt_le_dec a b); [assumption|].
  pose proof (pow2_le b a ltac:(lia)). lra.
Qed.

(** Scaling a mantissa by a power of two. *)
Lemma IZR_shift x k e : 0 <= k -> (IZR (x * 2 ^ k) * pow2 e = IZR x * pow2 (e + k))%R.
Proof.
  intros Hk. rewrite mult_IZR, pow2_IZR, pow2_add by assumption. ring.
Qed.

Lemma digits_pow2_le mx ex :
  0 < mx -> (pow2 (Zdigits2 mx + ex - 1) <= IZR mx * pow2 ex)%R.
Proof.
  intros Hmx. pose proof (Zdigits2_bounds mx Hmx) as [Hl _].
  pose proof (Zdigits2_pos mx Hmx).
  replace (Zdigits2 mx + ex - 1) with (Zdigits2 mx - 1 + ex) by lia.
  rewrite pow2_add, <- pow2_IZR by lia.
  apply Rmult_le_compat_r; [apply Rlt_le, pow2_pos|]. now apply IZR_le.
Qed.

Lemma digits_pow2_lt mx ex :
  0 <= mx -> (IZR mx * pow2 ex < pow2 (Zdigits2 mx + ex))%R.
Proof.
  intros Hmx. pose proof (pow2_pos ex). rewrite Z.add_comm, pow2_add.
  destruct (Z.eq_dec mx 0) as [->|Hne].
  - cbn [Zdigits2]. rewrite pow2_0. lra.
  - pose proof (Zdigits2_bounds mx ltac:(lia)) as [_ Hu].
    pose proof (Zdigits2_pos mx ltac:(lia)).
    rewrite <- (pow2_IZR (Zdigits2 mx)) by lia.
    rewrite Rmult_comm. apply Rmult_lt_compat_l; [assumption|]. now apply IZR_lt.
Qed.

(** ** Rounding: the value of the result *)

Section Value.
Variables prec emax : Z.
Hypothesis Hprec : 0 < prec.
Hypothesis Hemax : 2 <= emax.

(** Rounding a non-negative real [v] bracketed by the mantissa [mx] at
    exponent [ex]: the result is a non-negative finite float within one
    unit in the last place of [v], and [v] itself when nothing had to be
    shifted out. *)
Lemma binary_round_aux_value mx ex lx (v : R) :
  0 <= mx -> ex <= fexp prec emax (Zdigits2 mx + ex) ->
  Zdigits2 mx + ex < emax ->
  (IZR mx * pow2 ex <= v < IZR (mx + 1) * pow2 ex)%R ->
  (lx = loc_Exact -> v = (IZR mx * pow2 ex)%R) ->
  nonneg (binary_round_aux prec emax false mx ex lx)
  /\ (Rabs (B2R (binary_round_aux prec emax false mx ex lx) - v)
      <= pow2 (fexp prec emax (Zdigits2 mx + ex)))%R
  /\ (lx = loc_Exact -> ex = fexp prec emax (Zdigits2 mx + ex) ->
      B2R (binary_round_aux prec emax false mx ex lx) = v).
Proof.
  intros Hmx HP Hov Hv Hexact.
  destruct (binary_round_aux_canonical prec emax Hprec false mx ex lx Hmx HP)
    as (m1 & Hm1 & Ha & ->).
  cbv zeta in Hm1, Ha.
  set (e1 := fexp prec emax (Zdigits2 mx + ex)) in *.
  set (k1 := e1 - ex) in *.
  set (a := mx / 2 ^ k1) in *.
  assert (Hk1 : 0 <= k1) by (unfold k1; lia).
  assert (H2k1 : 0 < 2 ^ k1) by (apply Z.pow_pos_nonneg; lia).
  assert (H2p : 0 < 2 ^ prec) by (apply Z.pow_pos_nonneg; lia).
  assert (He1 : e1 + 1 <= emax - prec) by (unfold e1, fexp, emin; lia).
  assert (Hm1r : 0 <= m1 <= 2 ^ prec) by (destruct Hm1 as [->|[-> _]]; lia).
  pose proof (pow2_pos e1) as Hpe1. pose proof (pow2_pos ex) as Hpex.
  (* the value of the result is m1 * 2^e1 *)
  assert (Hval : nonneg
                   (if m1 =? 0 then S754_zero false
                    else if m1 <? 2 ^ prec
                    then (if e1 <=? emax - prec then S754_finite false (Z.to_pos m1) e1
                          else S754_infinity false)
                    else (if e1 + 1 <=? emax - prec
                          then S754_finite false (Z.to_pos (2 ^ (prec - 1))) (e1 + 1)
                          else S754_infinity false))
                 /\ B2R
                   (if m1 =? 0 then S754_zero false
                    else if m1 <? 2 ^ prec
                    then (if e1 <=? emax - prec then S754_finite false (Z.to_pos m1) e1
                          else S754_infinity false)
                    else (if e1 + 1 <=? emax - prec
                          then S754_finite false (Z.to_pos (2 ^ (prec - 1))) (e1 + 1)
                          else S754_infinity false))
                 = (IZR m1 * pow2 e1)%R).
  { destruct (Z.eqb_spec m1 0) as [->|Hne].
    - split; [now left|]. cbn. lra.
    - destruct (Z.ltb_spec m1 (2 ^ prec)) as [Hlt|Hge].
      + replace (e1 <=? emax - prec) with true by (symmetry; apply Z.leb_le; lia).
        split; [right; eauto|]. cbn [B2R]. rewrite Z2Pos.id by lia. lra.
      + replace (e1 + 1 <=? emax - prec) with true by (symmetry; apply Z.leb_le; lia).
        split; [right; eauto|]. cbn [B2R].
        assert (0 < 2 ^ (prec - 1)) by (apply Z.pow_pos_nonneg; lia).
        rewrite Z2Pos.id by lia.
        replace m1 with (2 ^ (prec - 1) * 2 ^ 1).
        * rewrite IZR_shift by lia. lra.
        * rewrite <- Z.pow_add_r by lia. replace (prec - 1 + 1) with prec by lia. lia. }
  destruct Hval as [Hnn HB]. rewrite HB.
  (* the bracket at the new exponent *)
  pose proof (Z.mul_div_le mx (2 ^ k1) H2k1) as Hfl.
  pose proof (Z.mul_succ_div_gt mx (2 ^ k1) H2k1) as Hcl.
  fold a in Hfl, Hcl.
  assert (Hlo : (IZR (a * 2 ^ k1) * pow2 ex <= IZR mx * pow2 ex)%R)
    by (apply Rmult_le_compat_r; [lra|apply IZR_le; lia]).
  assert (Hhi : (IZR (mx + 1) * pow2 ex <= IZR ((a + 1) * 2 ^ k1) * pow2 ex)%R)
    by (apply Rmult_le_compat_r; [lra|apply IZR_le; lia]).
  rewrite IZR_shift in Hlo, Hhi by assumption.
  replace (ex + k1) with e1 in Hlo, Hhi by (unfold k1; lia).
  destruct Hv as [Hv1 Hv2]. rewrite (plus_IZR mx 1) in Hhi, Hv2.
  rewrite (plus_IZR a 1) in Hhi.
  split; [assumption|]. split.
  - destruct Hm1 as [->|[-> _]].
    + rewrite Rabs_left1 by lra. lra.
    + rewrite plus_IZR. rewrite Rabs_right by lra. lra.
  - intros Hl He. destruct Hm1 as [->|[_ [Hlost|Hne]]]; [|exfalso..].
    + unfold a, k1. rewrite <- He, Z.sub_diag, Z.pow_0_r, Z.div_1_r.
      rewrite Hexact by assumption. reflexivity.
    + unfold a, k1 in Hlost. rewrite <- He, Z.sub_diag, Z.pow_0_r, Z.div_1_r in Hlost. lia.
    + now apply Hne.
Qed.

(** One unit in the last place is a relative error of [2^(1-prec)], or
    the absolute error [2^emin] of the subnormal range. *)
Lemma ulp_bound mx ex (v : R) :
  0 <= mx -> ex <= fexp prec emax (Zdigits2 mx + ex) ->
  (IZR mx * pow2 ex <= v)%R ->
  (pow2 (fexp prec emax (Zdigits2 mx + ex))
   <= pow2 (1 - prec) * v + pow2 (emin prec emax))%R.
Proof.
  intros Hmx HP Hv.
  pose proof (pow2_pos (1 - prec)). pose proof (pow2_pos (emin prec emax)).
  pose proof (pow2_pos ex).
  destruct (Z.eq_dec mx 0) as [->|Hne].
  - cbn [Zdigits2] in *. rewrite Z.add_0_l in *.
    replace (fexp prec emax ex) with (emin prec emax) by (unfold fexp in *; lia).
    nra.
  - pose proof (digits_pow2_le mx ex ltac:(lia)) as Hd.
    set (mu := Zdigits2 mx + ex) in *.
    destruct (Z_le_gt_dec (mu - prec) (emin prec emax)) as [Hsub|Hnorm].
    + replace (fexp prec emax mu) with (emin prec emax) by (unfold fexp; lia).
      assert (0 <= v)%R by (pose proof (pow2_pos (mu - 1)); lra). nra.
    + replace (fexp prec emax mu) with (1 - prec + (mu - 1)) by (unfold fexp; lia).
      rewrite pow2_add.
      assert (pow2 (1 - prec) * pow2 (mu - 1) <= pow2 (1 - prec) * v)%R
        by (apply Rmult_le_compat_l; lra).
      lra.
Qed.
End Value.

(** ** Rounding: the arithmetic operations *)

Section Operations.
Variables prec emax : Z.
Hypothesis Hprec : 0 < prec.
Hypothesis Hemax : 2 <= emax.

Lemma binary_round_value m e :
  Z.pos (digits2_pos m) + e < emax ->
  nonneg (binary_round prec emax false m e)
  /\ (Rabs (B2R (binary_round prec emax false m e) - IZR (Z.pos m) * pow2 e)
      <= pow2 (1 - prec) * (IZR (Z.pos m) * pow2 e) + pow2 (emin prec emax))%R
  /\ (fexp prec emax (Z.pos (digits2_pos m) + e) <= e ->
      B2R (binary_round prec emax false m e) = (IZR (Z.pos m) * pow2 e)%R).
Proof.
  intros Hov. unfold binary_round.
  set (f := fexp prec emax (Z.pos (digits2_pos m) + e)).
  destruct (shl_align_spec m e f) as [Hez Hmz].
  destruct (shl_align m e f) as [mz ez]. cbn [fst snd] in Hez, Hmz.
  assert (Hd : Zdigits2 (Z.pos mz) + ez = Z.pos (digits2_pos m) + e).
  { rewrite Hmz, Zdigits2_shift by lia. cbn [Zdigits2]. lia. }
  assert (Hv : (IZR (Z.pos mz) * pow2 ez = IZR (Z.pos m) * pow2 e)%R).
  { rewrite Hmz, IZR_shift by lia. f_equal. f_equal. lia. }
  pose proof (pow2_pos ez) as Hpz.
  destruct (binary_round_aux_value prec emax Hprec Hemax (Z.pos mz) ez loc_Exact
              (IZR (Z.pos m) * pow2 e)) as (Hnn & Hab & Hex).
  - lia.
  - rewrite Hd. fold f. lia.
  - lia.
  - rewrite <- Hv, plus_IZR. lra.
  - intros _. now rewrite Hv.
  - split; [assumption|]. split.
    + eapply Rle_trans; [exact Hab|].
      apply ulp_bound; [assumption|lia|rewrite Hd; fold f; lia|lra].
    + intros Hf. apply Hex; [reflexivity|]. rewrite Hd. fold f. lia.
Qed.

Lemma B2R_nonneg r : nonneg r -> (0 <= B2R r)%R.
Proof.
  intros [->|(m & e & ->)]; cbn; [lra|].
  pose proof (pow2_pos e). assert (0 < IZR (Z.pos m))%R by (apply IZR_lt; lia). nra.
Qed.

Lemma Rabs_exact (a b : R) : (a = 0 -> 0 <= b -> Rabs a <= b)%R.
Proof. intros -> Hb. now rewrite Rabs_R0. Qed.

(** Addition of non-negative floats: the rounded exact sum. *)
Lemma SFadd_value x y :
  nonneg x -> nonneg y ->
  (B2R x + B2R y < pow2 (emax - 1))%R ->
  nonneg (SFadd prec emax x y)
  /\ (Rabs (B2R (SFadd prec emax x y) - (B2R x + B2R y))
      <= pow2 (1 - prec) * (B2R x + B2R y) + pow2 (emin prec emax))%R.
Proof.
  intros Hx Hy Hov.
  pose proof (pow2_pos (1 - prec)). pose proof (pow2_pos (emin prec emax)).
  pose proof (B2R_nonneg x Hx) as Hx0. pose proof (B2R_nonneg y Hy) as Hy0.
  destruct Hx as [->|(mx & ex & ->)]; destruct Hy as [->|(my & ey & ->)].
  - cbn [SFadd]. split; [now left|]. apply Rabs_exact; [cbn; ring|nra].
  - cbn [SFadd]. split; [right; eauto|]. apply Rabs_exact; [cbn; ring|nra].
  - cbn [SFadd]. split; [right; eauto|]. apply Rabs_exact; [cbn; ring|nra].
  - unfold SFadd. cbn [cond_Zopp].
    set (ez := Z.min ex ey).
    destruct (shl_align_spec mx ex ez) as [_ Ha].
    destruct (shl_align_spec my ey ez) as [_ Hb].
    replace (Z.min ex ez) with ez in Ha by (unfold ez; lia).
    replace (Z.min ey ez) with ez in Hb by (unfold ez; lia).
    set (a := fst (shl_align mx ex ez)) in *.
    set (b := fst (shl_align my ey ez)) in *.
    change (Z.pos a + Z.pos b) with (Z.pos (a + b)).
    cbn [binary_normalize].
    assert (Hsum : (IZR (Z.pos (a + b)) * pow2 ez
                    = B2R (S754_finite false mx ex) + B2R (S754_finite false my ey))%R).
    { rewrite Pos2Z.inj_add, plus_IZR, Ha, Hb. rewrite Rmult_plus_distr_r.
      rewrite !IZR_shift by (unfold ez; lia).
      replace (ez + (ex - ez)) with ex by lia.
      replace (ez + (ey - ez)) with ey by lia. cbn. ring. }
    rewrite <- Hsum in *.
    enough (Hd' : Z.pos (digits2_pos (a + b)) + ez < emax)
      by (destruct (binary_round_value (a + b) ez Hd') as (Hnn & Hab & _); auto).
    apply pow2_lt_inv_R.
    replace (Z.pos (digits2_pos (a + b)) + ez)
      with (Zdigits2 (Z.pos (a + b)) + ez - 1 + 1) by (cbn [Zdigits2]; lia).
    pose proof (digits_pow2_le (Z.pos (a + b)) ez ltac:(lia)) as Hd.
    replace (emax) with (emax - 1 + 1) at 1 by lia.
    rewrite !(pow2_add _ 1).
    assert (0 < pow2 1)%R by apply pow2_pos. nra.
Qed.
End Operations.

Section Division.
Variables prec emax : Z.
Hypothesis Hprec : 0 < prec.
Hypothesis Hemax : 2 <= emax.

(** Division of positive finite floats: the rounded exact quotient [v]. *)
Lemma SFdiv_value m e md ed (v : R) :
  (v * (IZR (Z.pos md) * pow2 ed) = IZR (Z.pos m) * pow2 e)%R ->
  (v < pow2 (emax - 1))%R ->
  nonneg (SFdiv prec emax (S754_finite false m e) (S754_finite false md ed))
  /\ (Rabs (B2R (SFdiv prec emax (S754_finite false m e) (S754_finite false md ed)) - v)
      <= pow2 (1 - prec) * v + pow2 (emin prec emax))%R.
Proof.
  intros Hv Hov. unfold SFdiv, SFdiv_core_binary. cbn [xorb].
  set (d1 := Zdigits2 (Z.pos m)). set (d2 := Zdigits2 (Z.pos md)).
  set (D := d1 + e - (d2 + ed)).
  set (e' := Z.min (fexp prec emax D) (e - ed)).
  set (s := e - ed - e').
  assert (Hs : 0 <= s) by (unfold s, e'; lia).
  set (m' := match s with
             | Z.pos _ => Z.shiftl (Z.pos m) s
             | Z0 => Z.pos m
             | Z.neg _ => Z0
             end).
  assert (Hm' : m' = Z.pos m * 2 ^ s).
  { unfold m'. destruct s as [|p|p] eqn:Es.
    - rewrite Z.pow_0_r. lia.
    - now rewrite Z.shiftl_mul_pow2 by lia.
    - lia. }
  assert (H2s : 0 < 2 ^ s) by (apply Z.pow_pos_nonneg; lia).
  pose proof (Z_div_mod m' (Z.pos md) ltac:(lia)) as Hdm.
  destruct (Z.div_eucl m' (Z.pos md)) as [q r]. destruct Hdm as [Hdm Hr].
  assert (Hq0 : 0 <= q) by nia.
  pose proof (Zdigits2_bounds (Z.pos m) ltac:(lia)) as [Hml Hmu]. fold d1 in Hml, Hmu.
  pose proof (Zdigits2_bounds (Z.pos md) ltac:(lia)) as [Hdl Hdu]. fold d2 in Hdl, Hdu.
  assert (Hd1 : 0 < d1) by (apply Zdigits2_pos; lia).
  assert (Hd2 : 0 < d2) by (apply Zdigits2_pos; lia).
  (* the quotient has enough digits for the exponent e' *)
  assert (HP : e' <= fexp prec emax (Zdigits2 q + e')
               /\ (q = 0 -> e' <= emin prec emax)).
  { destruct (Z_le_gt_dec 0 (D - 1 - e')) as [Ht|Ht].
    - assert (Hqt : 2 ^ (D - 1 - e') <= q).
      { assert (Hle : Z.pos md * 2 ^ (D - 1 - e') <= m').
        { rewrite Hm'.
          assert (2 ^ d2 * 2 ^ (D - 1 - e') = 2 ^ (d1 - 1) * 2 ^ s).
          { rewrite <- !Z.pow_add_r by lia. f_equal. unfold D, s. lia. }
          assert (0 < 2 ^ (D - 1 - e')) by (apply Z.pow_pos_nonneg; lia).
          nia. }
        assert (0 < 2 ^ (D - 1 - e')) by (apply Z.pow_pos_nonneg; lia).
        nia. }
      assert (Hqpos : 0 < q)
        by (assert (0 < 2 ^ (D - 1 - e')) by (apply Z.pow_pos_nonneg; lia); lia).
      pose proof (Zdigits2_bounds q Hqpos) as [_ Hqu].
      assert (D - 1 - e' < Zdigits2 q)
        by (apply pow2_lt_inv; [lia|apply Zdigits2_nonneg]).
      split; [|lia].
      pose proof (fexp_mono prec emax D (Zdigits2 q + e') ltac:(lia)).
      assert (e' <= fexp prec emax D) by (unfold e'; lia). lia.
    - assert (e' <= emin prec emax) by (unfold e', fexp in *; lia).
      pose proof (fexp_ge_emin prec emax (Zdigits2 q + e')). split; lia. }
  destruct HP as [HP Hq0'].
  (* the bracket of the exact quotient *)
  pose proof (pow2_pos e') as Hpe'. pose proof (pow2_pos ed) as Hped.
  assert (HA : (0 < IZR (Z.pos md))%R) by (apply IZR_lt; lia).
  assert (HvA : (v * IZR (Z.pos md) = (IZR (Z.pos md) * IZR q + IZR r) * pow2 e')%R).
  { rewrite <- mult_IZR, <- plus_IZR, <- Hdm, Hm', IZR_shift by assumption.
    replace (e' + s) with (e - ed) by (unfold s; lia).
    apply Rmult_eq_reg_r with (pow2 ed); [|lra].
    rewrite Rmult_assoc, Hv. rewrite Rmult_assoc, <- pow2_add.
    do 2 f_equal. lia. }
  assert (Hr0 : (0 <= IZR r)%R) by (apply IZR_le; lia).
  assert (Hr1 : (IZR r < IZR (Z.pos md))%R) by (apply IZR_lt; lia).
  assert (Hlo : (IZR q * pow2 e' <= v)%R).
  { apply Rmult_le_reg_r with (IZR (Z.pos md)); [assumption|]. rewrite HvA. nra. }
  assert (Hhi : (v < IZR (q + 1) * pow2 e')%R).
  { apply Rmult_lt_reg_r with (IZR (Z.pos md)); [assumption|].
    rewrite HvA, plus_IZR. nra. }
  assert (Hovq : Zdigits2 q + e' < emax).
  { destruct (Z.eq_dec q 0) as [->|Hne].
    - cbn [Zdigits2]. specialize (Hq0' eq_refl). unfold emin in *. lia.
    - pose proof (digits_pow2_le q e' ltac:(lia)).
      assert (Zdigits2 q + e' - 1 < emax - 1) by (apply pow2_lt_inv_R; lra). lia. }
  destruct (binary_round_aux_value prec emax Hprec Hemax q e'
              (new_location (Z.pos md) r) v) as (Hnn & Hab & _);
    try assumption.
  - split; assumption.
  - intros Hl. apply new_location_Exact in Hl. subst r.
    apply Rmult_eq_reg_r with (IZR (Z.pos md)); [|lra]. rewrite HvA. ring.
  - split; [assumption|]. eapply Rle_trans; [exact Hab|].
    apply ulp_bound; assumption.
Qed.
End Division.

(** ** Softmax: accumulation in binary64 *)

Lemma pow2_neg_inv k : 0 <= k -> (pow2 (- k) * IZR (2 ^ k) = 1)%R.
Proof.
  intros Hk. rewrite pow2_IZR by assumption. rewrite <- pow2_add.
  replace (- k + k) with 0 by lia. apply pow2_0.
Qed.

(** float -> double is exact on valid floats. *)
Lemma of_float_value x :
  nonneg_finite x -> nonneg (F64.of_float x) /\ B2R (F64.of_float x) = B2R x.
Proof.
  intros [->|(m & e & -> & Hvalid)]; [split; [now left|reflexivity]|].
  unfold F32.valid, valid_binary, bounded, canonical_mantissa in Hvalid.
  apply andb_true_iff in Hvalid as [Hcanon Hbound].
  apply Z.eqb_eq in Hcanon. apply Z.leb_le in Hbound.
  unfold F32.prec, F32.emax, fexp, emin in *.
  destruct (binary_round_value F64.prec F64.emax ltac:(reflexivity)
              ltac:(unfold F64.emax; lia) m e) as (Hnn & _ & Hex).
  - unfold F64.emax. lia.
  - unfold F64.of_float. split; [assumption|].
    rewrite Hex; [cbn; ring|]. unfold F64.prec, F64.emax, fexp, emin. lia.
Qed.

Lemma Rabs_bounds (a b : R) : (Rabs a <= b -> - b <= a <= b)%R.
Proof. intros H. unfold Rabs in H. destruct (Rcase_abs a); lra. Qed.

(** One more rounded addition keeps the accumulated error linear in the
    number of additions. *)
Lemma acc_step_real (J s e A A' u eta : R) :
  (0 < u -> 0 < eta -> 0 <= J -> 2 * J * u <= 1 -> u <= 1 ->
   0 <= s -> 0 <= e ->
   (1 - J * (2 * u)) * s - J * (2 * eta) <= A
     <= (1 + J * (2 * u)) * s + J * (2 * eta) ->
   0 <= A ->
   Rabs (A' - (A + e)) <= u * (A + e) + eta ->
   (1 - (J + 1) * (2 * u)) * (s + e) - (J + 1) * (2 * eta) <= A'
     <= (1 + (J + 1) * (2 * u)) * (s + e) + (J + 1) * (2 * eta))%R.
Proof.
  intros Hu Heta HJ HJu Hu1 Hs He [Hlo Hhi] HA Habs.
  apply Rabs_bounds in Habs as [Hl Hh].
  assert (H1 : (0 <= s * u * (1 - 2 * J * u))%R)
    by (apply Rmult_le_pos; [apply Rmult_le_pos|]; lra).
  assert (H2 : (0 <= e * u * J)%R)
    by (apply Rmult_le_pos; [apply Rmult_le_pos|]; lra).
  assert (H3 : (0 <= eta * (1 - 2 * J * u))%R) by (apply Rmult_le_pos; lra).
  assert (H4 : (0 <= s * u * (J * u))%R)
    by (apply Rmult_le_pos; [apply Rmult_le_pos|apply Rmult_le_pos]; lra).
  assert (H5 : (0 <= eta * (J * u))%R)
    by (apply Rmult_le_pos; [|apply Rmult_le_pos]; lra).
  assert (H6 : (0 <= e * u)%R) by (apply Rmult_le_pos; lra).
  assert (H7 : (A * u <= ((1 + J * (2 * u)) * s + J * (2 * eta)) * u)%R)
    by (apply Rmult_le_compat_r; lra).
  assert (H8 : (((1 - J * (2 * u)) * s - J * (2 * eta)) * (1 - u) <= A * (1 - u))%R)
    by (apply Rmult_le_compat_r; lra).
  split; nra.
Qed.

Lemma pow2_half : (pow2 (-1) = / 2)%R.
Proof.
  pose proof (pow2_neg_inv 1 ltac:(lia)) as H.
  change (IZR (2 ^ 1)) with 2%R in H. change (- (1)) with (-1) in H. lra.
Qed.

Lemma count_times_pow2 j a b :
  0 <= j <= 2 ^ a -> 0 <= a -> (IZR j * pow2 b <= pow2 (a + b))%R.
Proof.
  intros Hj Ha. rewrite pow2_add, <- (pow2_IZR a) by assumption.
  apply Rmult_le_compat_r; [apply Rlt_le, pow2_pos|]. apply IZR_le. lia.
Qed.

Lemma unit_float_B2R e : unit_float e -> (0 <= B2R e <= 1)%R.
Proof.
  intros [Hnn Hle]. split; [|assumption].
  apply B2R_nonneg. destruct Hnn as [->|(m & ex & -> & _)]; [now left|right; eauto].
Qed.

Lemma accumulate_bounds es : forall j acc s,
  0 <= j -> j + Z.of_nat (length es) <= 2 ^ 31 ->
  Forall unit_float es ->
  (0 <= s <= IZR j)%R ->
  acc_inv j acc s ->
  acc_inv (j + Z.of_nat (length es)) (accumulate acc es) (s + sumR es).
Proof.
  induction es as [|x es IH]; intros j acc s Hj Hlen Hes Hs Hinv.
  - cbn. rewrite Z.add_0_r, Rplus_0_r. assumption.
  - apply Forall_cons in Hes as [Hx Hes]. cbn [length] in Hlen.
    pose proof (unit_float_B2R x Hx) as Hxr.
    destruct (of_float_value x (proj1 Hx)) as [Hnn' Hval'].
    destruct Hinv as [Hnn [Hlo Hhi]].
    pose proof (B2R_nonneg acc Hnn) as HA.
    pose proof (pow2_pos (-52)) as Hu. pose proof (pow2_pos (-1074)) as Heta.
    assert (HJu : (IZR j * pow2 (-52) <= pow2 (-21))%R)
      by (apply (count_times_pow2 j 31 (-52)); lia).
    assert (HJeta : (IZR j * pow2 (-1074) <= pow2 (-1043))%R)
      by (apply (count_times_pow2 j 31 (-1074)); lia).
    assert (H21 : (pow2 (-21) <= / 2)%R)
      by (rewrite <- pow2_half; apply pow2_le; lia).
    assert (H1043 : (pow2 (-1043) <= / 2)%R)
      by (rewrite <- pow2_half; apply pow2_le; lia).
    assert (Hu1 : (pow2 (-52) <= 1)%R)
      by (rewrite <- pow2_0; apply pow2_le; lia).
    assert (HJ0 : (0 <= IZR j)%R) by (apply IZR_le; lia).
    assert (HJmax : (IZR j <= pow2 31)%R)
      by (rewrite <- pow2_IZR by lia; apply IZR_le; lia).
    assert (Hbig : (pow2 31 * 4 < pow2 1023)%R).
    { change 4%R with (IZR (2 ^ 2)). rewrite pow2_IZR by lia.
      rewrite <- pow2_add. apply pow2_lt. lia. }
    pose proof (pow2_ge_1 31 ltac:(lia)) as Hp31.
    destruct (SFadd_value F64.prec F64.emax ltac:(reflexivity)
                ltac:(unfold F64.emax; lia) acc (F64.of_float x) Hnn Hnn')
      as [Hnn1 Hab].
    { rewrite Hval'. unfold F64.emax. replace (1024 - 1) with 1023 by lia.
      assert (IZR j * (2 * pow2 (-52)) * s <= s)%R.
      { replace s with (1 * s)%R at 2 by ring. apply Rmult_le_compat_r; lra. }
      nra. }
    change (accumulate acc (x :: es))
      with (accumulate (F64.add acc (F64.of_float x)) es).
    replace (j + Z.of_nat (length (x :: es))) with (j + 1 + Z.of_nat (length es))
      by (cbn [length]; lia).
    change (sumR (x :: es)) with (B2R x + sumR es)%R.
    replace (s + (B2R x + sumR es))%R with (s + B2R x + sumR es)%R by ring.
    apply (IH (j + 1) (F64.add acc (F64.of_float x)) (s + B2R x)%R);
      try assumption; try lia.
    + rewrite plus_IZR. lra.
    + split; [exact Hnn1|]. rewrite plus_IZR.
      rewrite Hval' in Hab.
      change (pow2 (1 - F64.prec)) with (pow2 (-52)) in Hab.
      change (pow2 (emin F64.prec F64.emax)) with (pow2 (-1074)) in Hab.
      apply (acc_step_real (IZR j) s (B2R x) (B2R acc)); try assumption; try lra.
Qed.

(** ** Softmax: the sum of the quotients *)

(** The error budget, on reals: an accumulator [A] close to the exact sum
    [S >= 1], its rounding [t], and quotients whose sum [Y] satisfies
    [Y t ~ S]. *)
Lemma softmax_real (S A t Y a w c : R) :
  (1 <= S ->
   0 <= a <= / 1000000 -> 0 <= w <= / 1000000 -> 0 <= c <= / 1000000000 ->
   (1 - a) * S - c <= A <= (1 + a) * S + c ->
   (1 - w) * A - c <= t <= (1 + w) * A + c ->
   (1 - w) * S - c * t <= Y * t <= (1 + w) * S + c * t ->
   Rabs (Y - 1) <= / 100000)%R.
Proof.
  intros HS Ha Hw Hc [HA1 HA2] [Ht1 Ht2] [HY1 HY2].
  assert (HaS : (0 <= a * S <= S * / 1000000)%R) by nra.
  assert (HwS : (0 <= w * S <= S * / 1000000)%R) by nra.
  assert (HA0 : (0 <= A)%R) by nra.
  assert (HwA : (0 <= w * A <= A * / 1000000)%R) by nra.
  assert (Ht0 : (/ 2 <= t)%R) by nra.
  assert (Hct : (0 <= c * t <= t * / 1000000000)%R) by nra.
  assert (HSt1 : (S <= (1 + 3 / 1000000) * t)%R) by nra.
  assert (HSt2 : ((1 - 3 / 1000000) * t <= S)%R) by nra.
  assert (HYu : (Y * t <= (1 + / 100000) * t)%R) by nra.
  assert (HYl : ((1 - / 100000) * t <= Y * t)%R) by nra.
  assert (Y <= 1 + / 100000)%R by (apply Rmult_le_reg_r with t; lra).
  assert (1 - / 100000 <= Y)%R by (apply Rmult_le_reg_r with t; lra).
  unfold Rabs. destruct (Rcase_abs (Y - 1)); lra.
Qed.

Lemma B2R_finite_pos m e : (0 < B2R (S754_finite false m e))%R.
Proof.
  cbn. pose proof (pow2_pos e). assert (0 < IZR (Z.pos m))%R by (apply IZR_lt; lia). nra.
Qed.

Lemma nonneg_pos_finite r :
  nonneg r -> (0 < B2R r)%R -> exists m e, r = S754_finite false m e.
Proof. intros [->|H] Hr; [cbn in Hr; lra|assumption]. Qed.

(** One quotient [e / T], in the form [y t ~ e]. *)
Lemma div_bound e mT eT :
  unit_float e ->
  (/ 2 <= B2R (S754_finite false mT eT))%R ->
  nonneg (F32.div e (S754_finite false mT eT))
  /\ (Rabs (B2R (F32.div e (S754_finite false mT eT)) * B2R (S754_finite false mT eT)
            - B2R e)
      <= pow2 (-23) * B2R e + pow2 (-149) * B2R (S754_finite false mT eT))%R.
Proof.
  intros He Ht. pose proof (unit_float_B2R e He) as Her.
  set (t := B2R (S754_finite false mT eT)) in *.
  pose proof (pow2_pos (-23)) as Hw. pose proof (pow2_pos (-149)) as Hth.
  destruct He as [[->|(m & ex & -> & Hvalid)] Hle].
  - split; [now left|]. apply Rabs_exact; [cbn; ring|nra].
  - set (v := (B2R (S754_finite false m ex) / t)%R).
    assert (Hvt : (v * t = B2R (S754_finite false m ex))%R) by (unfold v; field; lra).
    assert (Hv0 : (0 <= v)%R).
    { apply Rmult_le_reg_r with t; [lra|]. rewrite Hvt. lra. }
    assert (Hv2 : (v <= 2)%R).
    { apply Rmult_le_reg_r with t; [lra|]. rewrite Hvt. nra. }
    destruct (SFdiv_value F32.prec F32.emax ltac:(reflexivity)
                ltac:(unfold F32.emax; lia) m ex mT eT v) as [Hnn Hab].
    + replace (IZR (Z.pos mT) * pow2 eT)%R with t by (unfold t; cbn; ring).
      rewrite Hvt. cbn. ring.
    + assert (pow2 1 < pow2 (F32.emax - 1))%R by (apply pow2_lt; unfold F32.emax; lia).
      assert (pow2 1 = 2)%R by (rewrite <- (pow2_IZR 1) by lia; reflexivity). lra.
    + split; [exact Hnn|].
      change (pow2 (1 - F32.prec)) with (pow2 (-23)) in Hab.
      change (pow2 (emin F32.prec F32.emax)) with (pow2 (-149)) in Hab.
      apply Rabs_bounds in Hab as [Hl Hh].
      set (y := B2R (SFdiv F32.prec F32.emax (S754_finite false m ex)
                       (S754_finite false mT eT))) in *.
      change (F32.div (S754_finite false m ex) (S754_finite false mT eT))
        with (SFdiv F32.prec F32.emax (S754_finite false m ex) (S754_finite false mT eT)).
      fold y. rewrite <- Hvt.
      unfold Rabs. destruct (Rcase_abs (y * t - v * t)); nra.
Qed.

Lemma sum_div_bound es mT eT :
  Forall unit_float es ->
  (/ 2 <= B2R (S754_finite false mT eT))%R ->
  let t := B2R (S754_finite false mT eT) in
  let Y := sumR (map (fun e => F32.div e (S754_finite false mT eT)) es) in
  ((1 - pow2 (-23)) * sumR es - IZR (Z.of_nat (length es)) * pow2 (-149) * t <= Y * t
   <= (1 + pow2 (-23)) * sumR es + IZR (Z.of_nat (length es)) * pow2 (-149) * t)%R.
Proof.
  intros Hes Ht. cbv zeta. induction Hes as [|e es He Hes IH].
  - unfold sumR. cbn [length map foldr]. change (Z.of_nat 0) with 0. lra.
  - cbn [length map]. rewrite Nat2Z.inj_succ, succ_IZR.
    change (sumR (F32.div e (S754_finite false mT eT)
                  :: map (fun e0 => F32.div e0 (S754_finite false mT eT)) es))
      with (B2R (F32.div e (S754_finite false mT eT))
            + sumR (map (fun e0 => F32.div e0 (S754_finite false mT eT)) es))%R.
    change (sumR (e :: es)) with (B2R e + sumR es)%R.
    destruct (div_bound e mT eT He Ht) as [_ Hab].
    apply Rabs_bounds in Hab. lra.
Qed.

Lemma sumR_ge es e : Forall unit_float es -> e ∈ es -> (B2R e <= sumR es)%R.
Proof.
  intros Hes. induction Hes as [|x es Hx Hes IH]; intros Hin.
  - now apply elem_of_nil in Hin.
  - change (sumR (x :: es)) with (B2R x + sumR es)%R.
    pose proof (unit_float_B2R x Hx).
    assert (0 <= sumR es)%R.
    { clear -Hes. induction Hes as [|y es Hy Hes IH]; [cbn; lra|].
      change (sumR (y :: es)) with (B2R y + sumR es)%R.
      pose proof (unit_float_B2R y Hy). lra. }
    apply elem_of_cons in Hin as [->|Hin]; [lra|]. specialize (IH Hin). lra.
Qed.

Lemma sumR_le_length es : Forall unit_float es -> (sumR es <= IZR (Z.of_nat (length es)))%R.
Proof.
  intros Hes. induction Hes as [|x es Hx Hes IH].
  { unfold sumR. cbn [length foldr]. change (Z.of_nat 0) with 0. lra. }
  change (sumR (x :: es)) with (B2R x + sumR es)%R.
  cbn [length]. rewrite Nat2Z.inj_succ, succ_IZR.
  pose proof (unit_float_B2R x Hx). lra.
Qed.

Lemma pow2_neg_val k : 0 <= k -> (pow2 (- k) = / IZR (2 ^ k))%R.
Proof.
  intros Hk. pose proof (pow2_neg_inv k Hk) as H.
  assert (0 < IZR (2 ^ k))%R by (apply IZR_lt, Z.pow_pos_nonneg; lia).
  apply Rmult_eq_reg_r with (IZR (2 ^ k)); [|lra].
  rewrite H. field. lra.
Qed.

Lemma pow2_m21 : (pow2 (-21) = / 2097152)%R.
Proof. exact (pow2_neg_val 21 ltac:(lia)). Qed.

Lemma pow2_m23 : (pow2 (-23) = / 8388608)%R.
Proof. exact (pow2_neg_val 23 ltac:(lia)). Qed.

Lemma pow2_m40 : (pow2 (-40) = / 1099511627776)%R.
Proof. exact (pow2_neg_val 40 ltac:(lia)). Qed.

(** The quotients of a list of floats in [0, 1] that holds a 1, by the
    rounded binary64 sum of the list, add up to 1 within 1e-5. *)
Lemma normalised_sum es :
  Forall unit_float es ->
  Z.of_nat (length es) <= 2 ^ 31 ->
  (1 <= sumR es)%R ->
  let exptot := F32.of_double (accumulate F64.zero es) in
  (Rabs (sumR (map (fun e => F32.div e exptot) es) - 1) <= / 100000)%R.
Proof.
  intros Hes Hlen HS. cbv zeta.
  set (n := Z.of_nat (length es)) in *.
  assert (Hn0 : 0 <= n) by (unfold n; lia).
  (* the accumulator *)
  destruct (accumulate_bounds es 0 F64.zero 0%R ltac:(lia) ltac:(fold n; lia) Hes
              ltac:(cbn; lra)) as [Hnn [HA1 HA2]].
  { split; [now left|]. cbn. lra. }
  rewrite Z.add_0_l, Rplus_0_l in *. fold n in HA1, HA2.
  set (S64 := accumulate F64.zero es) in *. set (A := B2R S64) in *.
  set (S := sumR es) in *.
  pose proof (sumR_le_length es Hes) as HSn. fold n S in HSn.
  assert (HnR : (0 <= IZR n <= pow2 31)%R).
  { split; [apply IZR_le; lia|]. rewrite <- pow2_IZR by lia. apply IZR_le; lia. }
  (* numeric bounds *)
  assert (Ha : (0 <= IZR n * (2 * pow2 (-52)) <= / 1000000)%R).
  { pose proof (pow2_pos (-52)).
    pose proof (count_times_pow2 n 31 (-52) ltac:(lia) ltac:(lia)) as Hc.
    change (31 + -52) with (-21) in Hc. rewrite pow2_m21 in Hc. split; [nra|lra]. }
  assert (Hc1 : (0 <= IZR n * (2 * pow2 (-1074)) <= / 1000000000)%R).
  { pose proof (pow2_pos (-1074)).
    pose proof (count_times_pow2 n 31 (-1074) ltac:(lia) ltac:(lia)) as Hc.
    pose proof (pow2_le (31 + -1074) (-40) ltac:(lia)) as Hc'.
    rewrite pow2_m40 in Hc'. split; [nra|lra]. }
  assert (Hw : (0 <= pow2 (-23) <= / 1000000)%R).
  { pose proof (pow2_pos (-23)). rewrite pow2_m23 in *. lra. }
  assert (Hth : (0 < pow2 (-149) <= / 1000000000)%R).
  { pose proof (pow2_pos (-149)). pose proof (pow2_le (-149) (-40) ltac:(lia)) as Hc'.
    rewrite pow2_m40 in Hc'. lra. }
  assert (Hnth : (0 <= IZR n * pow2 (-149) <= / 1000000000)%R).
  { pose proof (pow2_pos (-149)).
    pose proof (count_times_pow2 n 31 (-149) ltac:(lia) ltac:(lia)) as Hc.
    pose proof (pow2_le (31 + -149) (-40) ltac:(lia)) as Hc'.
    rewrite pow2_m40 in Hc'. split; [nra|lra]. }
  assert (HaS : (0 <= IZR n * (2 * pow2 (-52)) * S <= S * / 1000000)%R) by nra.
  assert (HA0 : (/ 2 < A)%R) by nra.
  assert (HAmax : (A <= 2 * pow2 31 + 1)%R) by nra.
  (* the accumulator is a positive finite double, rounded to a float *)
  destruct (nonneg_pos_finite S64 Hnn ltac:(fold A; lra)) as (m & e & HS64).
  assert (Hdig : Z.pos (digits2_pos m) + e < F32.emax).
  { pose proof (digits_pow2_le (Z.pos m) e ltac:(lia)) as Hd.
    assert (HAeq : A = (IZR (Z.pos m) * pow2 e)%R) by (unfold A; rewrite HS64; cbn; ring).
    rewrite <- HAeq in Hd.
    assert (Hlt : (pow2 (Zdigits2 (Z.pos m) + e - 1) < pow2 33)%R).
    { assert (pow2 33 = pow2 31 * 4)%R.
      { replace 33 with (31 + 2) by lia. rewrite pow2_add.
        rewrite <- (pow2_IZR 2) by lia. reflexivity. }
      pose proof (pow2_ge_1 31 ltac:(lia)). lra. }
    apply pow2_lt_inv_R in Hlt. cbn [Zdigits2] in Hlt. unfold F32.emax. lia. }
  destruct (binary_round_value F32.prec F32.emax ltac:(reflexivity)
              ltac:(unfold F32.emax; lia) m e Hdig) as (HnnT & HabT & _).
  change (pow2 (1 - F32.prec)) with (pow2 (-23)) in HabT.
  change (pow2 (emin F32.prec F32.emax)) with (pow2 (-149)) in HabT.
  assert (HT : F32.of_double S64 = binary_round F32.prec F32.emax false m e)
    by (rewrite HS64; reflexivity).
  rewrite HT.
  set (T := binary_round F32.prec F32.emax false m e) in *.
  assert (HAeq : (IZR (Z.pos m) * pow2 e = A)%R) by (unfold A; rewrite HS64; cbn; ring).
  rewrite HAeq in HabT. apply Rabs_bounds in HabT as [Ht1 Ht2].
  assert (HwA : (0 <= pow2 (-23) * A <= A * / 1000000)%R) by nra.
  assert (Ht0 : (/ 2 <= B2R T)%R) by nra.
  destruct (nonneg_pos_finite T HnnT ltac:(lra)) as (mT & eT & HTeq).
  rewrite HTeq in *.
  pose proof (sum_div_bound es mT eT Hes Ht0) as HY. cbv zeta in HY. fold n S in HY.
  set (t := B2R (S754_finite false mT eT)) in *.
  set (Y := sumR (map (fun e0 => F32.div e0 (S754_finite false mT eT)) es)) in *.
  assert (H1 : ((1 - IZR n * (2 * pow2 (-52))) * S - / 1000000000 <= A
                <= (1 + IZR n * (2 * pow2 (-52))) * S + / 1000000000)%R) by lra.
  assert (H2 : ((1 - pow2 (-23)) * A - / 1000000000 <= t
                <= (1 + pow2 (-23)) * A + / 1000000000)%R) by lra.
  assert (H3 : ((1 - pow2 (-23)) * S - / 1000000000 * t <= Y * t
                <= (1 + pow2 (-23)) * S + / 1000000000 * t)%R) by (split; nra).
  assert (H4 : (0 <= / 1000000000 <= / 1000000000)%R) by lra.
  exact (softmax_real S A t Y (IZR n * (2 * pow2 (-52))) (pow2 (-23)) (/ 1000000000)
           HS Ha Hw H4 H1 H2 H3).
Qed.

(** ** Softmax: the distribution *)

Lemma sub_self x : F32.is_finite x = true -> F32.sub x x = F32.zero.
Proof.
  destruct x as [[]|[]| |s m e]; try discriminate; try reflexivity.
  intros _. unfold F32.sub, SFsub. rewrite Z.sub_diag. reflexivity.
Qed.

Lemma in_unit_B2R r : F32.valid r = true -> in_unit F32.prec r -> (B2R r <= 1)%R.
Proof.
  intros Hvalid [->|(m & e & -> & Hr)]; [cbn; lra|].
  unfold F32.valid, valid_binary, bounded, canonical_mantissa in Hvalid.
  apply andb_true_iff in Hvalid as [Hcanon _]. apply Z.eqb_eq in Hcanon.
  unfold F32.prec, fexp, emin in *. cbn [B2R]. rewrite Rmult_1_l.
  destruct Hr as [Hlt|[-> Hle]].
  - pose proof (digits_pow2_lt (Z.pos m) e ltac:(lia)) as Hd. cbn [Zdigits2] in Hd.
    pose proof (pow2_le (Z.pos (digits2_pos m) + e) 0 ltac:(lia)). rewrite pow2_0 in *. lra.
  - change (1 - 24) with (-23) in *.
    change (2 ^ (24 - 1)) with (2 ^ 23) in Hle. apply IZR_le in Hle.
    rewrite (pow2_IZR 23) in Hle by lia.
    pose proof (pow2_pos (-23)).
    assert (pow2 23 * pow2 (-23) = 1)%R by (rewrite <- pow2_add; apply pow2_0).
    nra.
Qed.

Lemma unit_float_intro e :
  nonneg_finite e -> in_unit F32.prec e -> unit_float e.
Proof.
  intros Hnn Hu. split; [assumption|]. apply in_unit_B2R; [|assumption].
  destruct Hnn as [->|(m & ex & -> & Hv)]; [reflexivity|assumption].
Qed.

Lemma sumR_replicate n y : sumR (replicate n y) = (IZR (Z.of_nat n) * B2R y)%R.
Proof.
  induction n as [|n IH].
  - unfold sumR. cbn [replicate foldr]. change (Z.of_nat 0) with 0. lra.
  - cbn [replicate]. change (sumR (y :: replicate n y)) with (B2R y + sumR (replicate n y))%R.
    rewrite IH, Nat2Z.inj_succ, succ_IZR. ring.
Qed.

(** C8. On a non-empty vector of finite floats, [Softmax] subtracts the
    maximum element from every entry before exponentiating and returns a
    vector of the same length whose entries sum to 1 within 1e-5; when all
    inputs are equal every entry is the same float 1.0f / exptot, the value
    1 / length within that tolerance, and for the 20 classes of the source
    exactly 1.0f / 20.  The exponential is assumed to return 1 at 0 and a
    valid float in [0, 1] wherever the argument x - m is not positive; the
    length is assumed to fit an int. *)
Theorem Softmax_distribution exp values :
  values <> [] ->
  Forall (fun x => F32.is_finite x = true) values ->
  Z.of_nat (length values) <= Int.max_int ->
  exp F32.zero = F32.one ->
  (forall x m, x ∈ values -> m ∈ values -> F32.ltb m x = false ->
     unit_float (exp (F32.sub x m))) ->
  (exists imax max_val exptot dist,
     max_element values = Some imax
     /\ values !! imax = Some max_val
     /\ Softmax exp values = Some dist
     /\ dist = map (fun x => F32.div (exp (F32.sub x max_val)) exptot) values
     /\ length dist = length values
     /\ (Rabs (sumR dist - 1) <= / 100000)%R
     /\ ((forall x, x ∈ values -> x = max_val) ->
         forall y, y ∈ dist ->
           y = F32.div F32.one exptot
           /\ (Rabs (IZR (Z.of_nat (length values)) * B2R y - 1) <= / 100000)%R))
  /\ (forall c, F32.is_finite c = true ->
        Softmax exp (replicate 20 c)
        = Some (replicate 20 (F32.div F32.one (F32.of_int 20)))).
Proof.
  intros Hne Hfin Hlen H0 Hexp. split.
  - destruct (max_element_is_Some values Hne) as [imax Himax].
    pose proof (max_element_spec _ _ Himax) as (max_val & Hmax & Hge & _).
    assert (Hin : max_val ∈ values) by (eapply list_elem_of_lookup_2; eassumption).
    set (es := map (fun x => exp (F32.sub x max_val)) values).
    set (exptot := F32.of_double (accumulate F64.zero es)).
    assert (Hsoft : Softmax exp values = Some (map (fun e => F32.div e exptot) es)).
    { unfold Softmax. rewrite Himax. cbn [mbind option_bind]. rewrite Hmax. reflexivity. }
    assert (Hes : Forall unit_float es).
    { unfold es. apply Forall_map, Forall_forall. intros x Hx. cbn.
      apply list_elem_of_lookup in Hx as [j Hj].
      apply Hexp; [eapply list_elem_of_lookup_2; eassumption|assumption|].
      eapply Hge; eassumption. }
    assert (Hone : F32.one ∈ es).
    { unfold es. apply list_elem_of_fmap. exists max_val. split; [|assumption].
      rewrite sub_self, H0; [reflexivity|].
      rewrite Forall_forall in Hfin. now apply Hfin. }
    assert (HS : (1 <= sumR es)%R).
    { pose proof (sumR_ge es F32.one Hes Hone) as H.
      assert (B2R F32.one = 1)%R.
      { unfold F32.one. change (F32.of_int 1) with (S754_finite false 8388608 (-23)).
        cbn [B2R]. change 8388608%R with (IZR (2 ^ 23)).
        rewrite Rmult_1_l, (pow2_IZR 23), <- pow2_add by lia. apply pow2_0. }
      lra. }
    assert (Hlen' : Z.of_nat (length es) <= 2 ^ 31).
    { unfold es. rewrite length_map. unfold Int.max_int in Hlen. lia. }
    pose proof (normalised_sum es Hes Hlen' HS) as Hsum. cbv zeta in Hsum. fold exptot in Hsum.
    exists imax, max_val, exptot, (map (fun e => F32.div e exptot) es).
    split; [assumption|]. split; [assumption|]. split; [assumption|].
    split; [unfold es; now rewrite map_map|].
    split; [unfold es; now rewrite !length_map|].
    split; [assumption|].
    intros Heq w Hw.
    assert (Hfin' : forall x, x ∈ values -> F32.is_finite x = true).
    { rewrite Forall_forall in Hfin. exact Hfin. }
    assert (Hw' : w = F32.div F32.one exptot).
    { apply list_elem_of_fmap in Hw as (e & -> & He). unfold es in He.
      apply list_elem_of_fmap in He as (x & -> & Hx).
      rewrite (Heq x Hx), sub_self, H0; [reflexivity|]. now apply Hfin'. }
    split; [exact Hw'|].
    assert (Hall : map (fun e => F32.div e exptot) es = replicate (length values) w).
    { apply list_eq_Forall2.
      apply Forall2_replicate_r; [unfold es; now rewrite !length_map|].
      apply Forall_forall. intros w' Hw''. rewrite Hw'.
      apply list_elem_of_fmap in Hw'' as (e' & -> & He'). unfold es in He'.
      apply list_elem_of_fmap in He' as (x' & -> & Hx').
      rewrite (Heq x' Hx'), sub_self, H0; [reflexivity|]. now apply Hfin'. }
    rewrite Hall, sumR_replicate in Hsum. exact Hsum.
  - intros c Hc. unfold Softmax.
    assert (Hmaxel : max_element (replicate 20 c) = Some 0%nat).
    { cbn. now rewrite !ltb_irrefl. }
    rewrite Hmaxel. cbn [mbind option_bind replicate lookup list_lookup].
    cbn [map]. rewrite !sub_self, !H0 by assumption. reflexivity.
Qed.

Lemma check_unit_sound e : check_unit e = true -> unit_float e.
Proof.
  destruct e as [[]|[]| |[] m ex]; try discriminate.
  - intros _. split; [now left|cbn; lra].
  - cbn [check_unit]. intros H. apply andb_true_iff in H as [Hv Hr].
    apply unit_float_intro; [right; eauto|].
    right. exists m, ex. split; [reflexivity|]. unfold F32.prec.
    apply orb_true_iff in Hr as [Hlt|Heq]; [left; apply Z.ltb_lt in Hlt; lia|right].
    apply andb_true_iff in Heq as [He Hm].
    apply Z.eqb_eq in He. apply Z.leb_le in Hm. split; [lia|exact Hm].
Qed.

Lemma Softmax_distribution_witness :
  exists dist,
    Softmax Libm.exp sample_logits = Some dist
    /\ length dist = length sample_logits
    /\ (Rabs (sumR dist - 1) <= / 100000)%R.
Proof.
  destruct (Softmax_distribution Libm.exp sample_logits) as [H _].
  - discriminate.
  - repeat constructor.
  - vm_compute. discriminate.
  - reflexivity.
  - intros x m Hx Hm Hlt. apply check_unit_sound. revert Hlt.
    unfold sample_logits in Hx, Hm.
    repeat (apply elem_of_cons in Hx as [->|Hx]);
      try (now apply elem_of_nil in Hx);
      repeat (apply elem_of_cons in Hm as [->|Hm]);
      try (now apply elem_of_nil in Hm);
      vm_compute; intros; (reflexivity || discriminate).
  - destruct H as (imax & max_val & exptot & dist & _ & _ & Hs & _ & Hl & Hsum & _).
    exists dist. auto.
Defined.

(** ** The layout of the tensor *)

Lemma index_inj cfg x y c x' y' c' :
  0 < ROW_COUNT cfg -> 0 < COL_COUNT cfg ->
  0 <= x < COL_COUNT cfg -> 0 <= y < ROW_COUNT cfg ->
  0 <= x' < COL_COUNT cfg -> 0 <= y' < ROW_COUNT cfg ->
  Spec.index cfg x y c = Spec.index cfg x' y' c' ->
  x = x' /\ y = y' /\ c = c'.
Proof.
  intros HR HC Hx Hy Hx' Hy' E. unfold Spec.index in E.
  set (R := ROW_COUNT cfg) in *. set (C := COL_COUNT cfg) in *.
  assert (E1 : (c * R + y) * C + x = (c' * R + y') * C + x') by lia.
  assert (E2 : c * R + y = c' * R + y' /\ x = x').
  { assert (c * R + y = c' * R + y'); [|split; [assumption|nia]].
    destruct (Z.lt_trichotomy (c * R + y) (c' * R + y')) as [H|[H|H]];
      [exfalso|assumption|exfalso].
    - assert ((c * R + y + 1) * C <= (c' * R + y') * C)
        by (apply Z.mul_le_mono_nonneg_r; lia). lia.
    - assert ((c' * R + y' + 1) * C <= (c * R + y) * C)
        by (apply Z.mul_le_mono_nonneg_r; lia). lia. }
  destruct E2 as [E2 ->]. split; [reflexivity|].
  assert (c = c'); [|split; [lia|assumption]].
  destruct (Z.lt_trichotomy c c') as [H|[H|H]]; [exfalso|assumption|exfalso].
  - assert ((c + 1) * R <= c' * R) by (apply Z.mul_le_mono_nonneg_r; lia). lia.
  - assert ((c' + 1) * R <= c * R) by (apply Z.mul_le_mono_nonneg_r; lia). lia.
Qed.

Lemma index_of_position cfg i :
  0 < ROW_COUNT cfg -> 0 < COL_COUNT cfg ->
  0 <= i < tensor_length cfg ->
  let x := i mod COL_COUNT cfg in
  let y := (i / COL_COUNT cfg) mod ROW_COUNT cfg in
  let c := i / (ROW_COUNT cfg * COL_COUNT cfg) in
  0 <= x < COL_COUNT cfg /\ 0 <= y < ROW_COUNT cfg
  /\ 0 <= c < CHANNEL_COUNT cfg
  /\ Spec.index cfg x y c = i.
Proof.
  intros HR HC Hi x y c. unfold tensor_length in Hi.
  set (R := ROW_COUNT cfg) in *. set (C := COL_COUNT cfg) in *.
  assert (Hx : 0 <= x < C) by (apply Z.mod_pos_bound; lia).
  assert (Hy : 0 <= y < R) by (apply Z.mod_pos_bound; lia).
  assert (HRC : 0 < R * C) by nia.
  assert (Hc : 0 <= c < CHANNEL_COUNT cfg).
  { unfold c. split; [apply Z.div_pos; lia|].
    apply Z.div_lt_upper_bound; [lia|]. lia. }
  repeat split; try lia.
  unfold Spec.index. fold R C.
  assert (E1 : i = C * (i / C) + x) by (apply Z.div_mod; lia).
  assert (E2 : i / C = R * (i / C / R) + y) by (apply Z.div_mod; lia).
  assert (E3 : c = i / C / R).
  { unfold c. rewrite Z.div_div by lia. f_equal. ring. }
  rewrite E3. nia.
Qed.

(** X1. On a grid with positive dimensions whose tensor length fits an int,
    [GetOffset] is a bijection between the in-range triples (x, y, channel)
    and the positions of the tensor: two different triples never share an
    offset, and position [i] is the offset of
    (i mod cols, (i / cols) mod rows, i / (rows * cols)). *)
Theorem GetOffset_bijective cfg :
  0 < ROW_COUNT cfg -> 0 < COL_COUNT cfg ->
  tensor_length cfg <= Int.max_int ->
  (forall x y channel x' y' channel',
     0 <= x < COL_COUNT cfg -> 0 <= y < ROW_COUNT cfg ->
     0 <= channel < CHANNEL_COUNT cfg ->
     0 <= x' < COL_COUNT cfg -> 0 <= y' < ROW_COUNT cfg ->
     0 <= channel' < CHANNEL_COUNT cfg ->
     GetOffset cfg x y channel = GetOffset cfg x' y' channel' ->
     x = x' /\ y = y' /\ channel = channel')
  /\ (forall i, 0 <= i < tensor_length cfg ->
        let x := i mod COL_COUNT cfg in
        let y := (i / COL_COUNT cfg) mod ROW_COUNT cfg in
        let channel := i / (ROW_COUNT cfg * COL_COUNT cfg) in
        0 <= x < COL_COUNT cfg /\ 0 <= y < ROW_COUNT cfg
        /\ 0 <= channel < CHANNEL_COUNT cfg
        /\ GetOffset cfg x y channel = i).
Proof.
  intros HR HC Hmax. split.
  - intros x y c x' y' c' Hx Hy Hc Hx' Hy' Hc' E.
    rewrite !GetOffset_in_range in E by assumption.
    eapply index_inj; eassumption.
  - intros i Hi.
    destruct (index_of_position cfg i HR HC Hi) as (Hx & Hy & Hc & E).
    cbv zeta. repeat split; try apply Hx; try apply Hy; try apply Hc.
    rewrite GetOffset_in_range by assumption. exact E.
Qed.

Lemma GetOffset_bijective_witness :
  (GetOffset yolo 12 0 0 = GetOffset yolo 0 1 0 -> False)
  /\ GetOffset yolo (20000 mod 13) ((20000 / 13) mod 13) (20000 / (13 * 13)) = 20000.
Proof.
  destruct (GetOffset_bijective yolo) as [Hinj Hsur];
    [reflexivity|reflexivity|vm_compute; discriminate|].
  split.
  - intros E. apply Hinj in E; [|vm_compute; split; (discriminate || reflexivity)..].
    destruct E as [E _]. discriminate E.
  - apply (Hsur 20000). vm_compute. split; [discriminate|reflexivity].
Defined.

(** ** What the decoder emits *)

Lemma length_scan_order cfg :
  length (Spec.scan_order cfg)
  = (Z.to_nat (ROW_COUNT cfg) * (Z.to_nat (COL_COUNT cfg)
       * Z.to_nat (BOXES_PER_CELL cfg)))%nat.
Proof.
  unfold Spec.scan_order.
  assert (H1 : forall (l : list Z) (cy cx : Z),
    length (l ≫= fun b => [(cy, cx, b)]) = length l).
  { intros l cy cx. induction l as [|b l IH]; [reflexivity|].
    cbn. now rewrite IH. }
  assert (H2 : forall (l : list Z) (cy : Z),
    length (l ≫= fun cx => seqZ 0 (BOXES_PER_CELL cfg) ≫= fun b => [(cy, cx, b)])
    = (length l * Z.to_nat (BOXES_PER_CELL cfg))%nat).
  { intros l cy. induction l as [|cx l IH]; [reflexivity|].
    rewrite bind_cons, length_app, IH, H1, length_seqZ. cbn. lia. }
  assert (H3 : forall (l : list Z),
    length (l ≫= fun cy => seqZ 0 (COL_COUNT cfg) ≫= fun cx =>
              seqZ 0 (BOXES_PER_CELL cfg) ≫= fun b => [(cy, cx, b)])
    = (length l * (Z.to_nat (COL_COUNT cfg) * Z.to_nat (BOXES_PER_CELL cfg)))%nat).
  { intros l. induction l as [|cy l IH]; [reflexivity|].
    rewrite bind_cons, length_app, IH, H2, length_seqZ. cbn. lia. }
  rewrite H3, length_seqZ. reflexivity.
Qed.

Lemma length_omap_le {A B} (f : A -> option B) l :
  (length (omap f l) <= length l)%nat.
Proof.
  induction l as [|a l IH]; [reflexivity|].
  cbn. destruct (f a); cbn; lia.
Qed.

Lemma decode_Some_inv exp cfg tensor threshold out :
  Spec.decode exp cfg tensor threshold = Some out ->
  exists ds, mapM (Spec.detect exp cfg tensor threshold) (Spec.scan_order cfg) = Some ds
             /\ out = omap (fun d => d) ds.
Proof.
  unfold Spec.decode. intros H.
  destruct (mapM _ _) as [ds|]; [|discriminate].
  cbn in H. injection H as <-. now exists ds.
Qed.

Lemma scan_order_size cfg :
  0 < ROW_COUNT cfg -> 0 < COL_COUNT cfg -> 0 < BOXES_PER_CELL cfg ->
  Z.of_nat (length (Spec.scan_order cfg))
  = ROW_COUNT cfg * COL_COUNT cfg * BOXES_PER_CELL cfg.
Proof.
  intros Hr Hc HB. rewrite length_scan_order.
  rewrite !Nat2Z.inj_mul, !Z2Nat.id by lia. ring.
Qed.

Lemma decode_length_le exp cfg tensor threshold out :
  Spec.decode exp cfg tensor threshold = Some out ->
  (length out <= length (Spec.scan_order cfg))%nat.
Proof.
  intros H. apply decode_Some_inv in H as (ds & Hds & ->).
  apply length_mapM in Hds. rewrite Hds. apply length_omap_le.
Qed.

(** X2. The decoder emits at most one box per anchor: on a well-formed
    configuration the output never has more than rows * cols * boxesPerCell
    entries (845 for the constants of the source). *)
Theorem GetRecognizedObjects_bounded exp cfg tensor threshold out :
  cfg_ok cfg ->
  GetRecognizedObjects exp cfg tensor threshold = Some out ->
  Z.of_nat (length out) <= ROW_COUNT cfg * COL_COUNT cfg * BOXES_PER_CELL cfg.
Proof.
  intros Hok H. rewrite decode_refines in H by assumption.
  apply decode_length_le in H.
  rewrite <- scan_order_size by apply Hok. lia.
Qed.

Lemma GetRecognizedObjects_bounded_witness :
  exists out,
    GetRecognizedObjects Libm.exp three_class (zeros 8) F32.zero = Some out
    /\ Z.of_nat (length out) <= 1 * 1 * 1.
Proof.
  assert (H : GetRecognizedObjects Libm.exp three_class (zeros 8) F32.zero
              = Some [three_class_box]) by (vm_compute; reflexivity).
  exists [three_class_box]. split; [exact H|].
  exact (GetRecognizedObjects_bounded Libm.exp three_class (zeros 8) F32.zero _
           (check_cfg_sound three_class eq_refl) H).
Defined.

Lemma decode_mem exp cfg tensor threshold out a box :
  Spec.decode exp cfg tensor threshold = Some out ->
  a ∈ Spec.scan_order cfg ->
  Spec.detect exp cfg tensor threshold a = Some (Some box) ->
  box ∈ out.
Proof.
  intros H Ha Hd. apply decode_Some_inv in H as (ds & Hds & ->).
  apply mapM_Some in Hds. apply list_elem_of_lookup in Ha as [i Hi].
  destruct (Forall2_lookup_l _ _ _ _ _ Hds Hi) as (d & Hd' & E).
  rewrite Hd in E. injection E as <-.
  apply list_elem_of_omap. exists (Some box). split; [|reflexivity].
  now apply list_elem_of_lookup_2 in Hd'.
Qed.

Lemma ltb_unordered v t :
  F32.is_nan t = true \/ t = S754_infinity true -> F32.ltb v t = false.
Proof.
  intros [H| ->]; [now apply ltb_nan_r|].
  now destruct v as [[]|[]| |[] ? ?].
Qed.

Lemma mul_nan_r p q : F32.is_nan q = true -> F32.mul p q = F32.nan.
Proof. destruct q; try discriminate. now destruct p. Qed.

Section Emission.
Variable exp : float -> float.
Variable cfg : Config.
Hypothesis Hok : cfg_ok cfg.

(** An anchor that neither filter discards yields a box. *)
Lemma detect_passing tensor threshold cy cx b tc :
  tensor_length cfg <= Z.of_nat (length tensor) ->
  0 <= cy < ROW_COUNT cfg -> 0 <= cx < COL_COUNT cfg ->
  0 <= b < BOXES_PER_CELL cfg ->
  field cfg tensor cy cx b 4 = Some tc ->
  F32.ltb (Sigmoid exp tc) threshold = false ->
  (forall p, F32.ltb (F32.mul p (Sigmoid exp tc)) threshold = false) ->
  exists box p,
    Spec.detect exp cfg tensor threshold (cy, cx, b) = Some (Some box)
    /\ confidence box = F32.mul p (Sigmoid exp tc).
Proof.
  intros Hlen Hcy Hcx Hb Htc H1 H2. rewrite detect_fields.
  pose proof (ok_classes _ Hok) as HC.
  destruct (field_is_Some cfg Hok tensor cy cx b 0) as [tx ->]; try (assumption || lia).
  destruct (field_is_Some cfg Hok tensor cy cx b 1) as [ty ->]; try (assumption || lia).
  destruct (field_is_Some cfg Hok tensor cy cx b 2) as [tw ->]; try (assumption || lia).
  destruct (field_is_Some cfg Hok tensor cy cx b 3) as [th ->]; try (assumption || lia).
  rewrite Htc.
  pose proof (ok_anchors _ Hok) as Ha.
  destruct (at_index_is_Some (anchors cfg) (2 * b)) as [aw ->]; [lia|].
  destruct (at_index_is_Some (anchors cfg) (2 * b + 1)) as [ah ->]; [lia|].
  cbn. rewrite H1.
  assert (Hl : is_Some (mapM (fun i => field cfg tensor cy cx b (5 + i))
                          (seqZ 0 (CLASS_COUNT cfg)))).
  { apply mapM_is_Some, Forall_forall. intros i Hi. apply elem_of_seqZ in Hi.
    cbn. apply (field_is_Some cfg Hok); (assumption || lia). }
  destruct Hl as [logits Hl]. rewrite Hl. cbn.
  pose proof (length_mapM _ _ _ Hl) as Hlen'. rewrite length_seqZ in Hlen'.
  assert (Hne : logits <> []) by (intros ->; cbn in Hlen'; lia).
  destruct (Softmax_is_Some exp logits Hne) as [dist Hd]. rewrite Hd. cbn.
  pose proof (Softmax_length _ _ _ Hd) as Hdl.
  assert (Hdne : dist <> [])
    by (intros ->; cbn in Hdl; destruct logits; [congruence|discriminate]).
  destruct (max_element_is_Some dist Hdne) as [top Ht]. rewrite Ht. cbn.
  pose proof (max_element_lt _ _ Ht) as Hlt.
  destruct (lookup_lt_is_Some_2 dist top Hlt) as [p ->]. cbn.
  rewrite H2.
  destruct (lookup_lt_is_Some_2 (labels cfg) top) as [lbl ->];
    [pose proof (ok_labels _ Hok); lia|].
  cbn. eexists _, p. split; reflexivity.
Qed.

(** The last anchor of the scan reads its objectness logit at position
    (channels - classes) * rows * cols - 1. *)
Lemma last_objectness_index :
  Spec.index cfg (COL_COUNT cfg - 1) (ROW_COUNT cfg - 1)
    ((BOXES_PER_CELL cfg - 1) * (CLASS_COUNT cfg + 5) + 4)
  = (CHANNEL_COUNT cfg - CLASS_COUNT cfg) * (ROW_COUNT cfg * COL_COUNT cfg) - 1.
Proof. unfold Spec.index. rewrite (ok_channels _ Hok). ring. Qed.

Lemma detect_short tensor threshold :
  Z.of_nat (length tensor)
    < (CHANNEL_COUNT cfg - CLASS_COUNT cfg) * (ROW_COUNT cfg * COL_COUNT cfg) ->
  Spec.detect exp cfg tensor threshold
    (ROW_COUNT cfg - 1, COL_COUNT cfg - 1, BOXES_PER_CELL cfg - 1) = None.
Proof.
  intros Hlen. rewrite detect_fields.
  assert (Htc : field cfg tensor (ROW_COUNT cfg - 1) (COL_COUNT cfg - 1)
                  (BOXES_PER_CELL cfg - 1) 4 = None).
  { unfold field. rewrite last_objectness_index. unfold at_index.
    destruct (_ <? 0); [reflexivity|]. apply lookup_ge_None. lia. }
  rewrite Htc.
  repeat (match goal with |- context [field ?c ?t ?a ?b ?d ?k ≫= _] =>
    destruct (field c t a b d k); cbn [mbind option_bind]; [|reflexivity] end).
  reflexivity.
Qed.
End Emission.

Lemma decode_label_elem exp cfg tensor threshold out box :
  Spec.decode exp cfg tensor threshold = Some out ->
  box ∈ out ->
  label box ∈ labels cfg.
Proof.
  intros H Hin.
  destruct (decode_elem _ _ _ _ _ _ H Hin) as ([[cy cx] b] & Ha & Hd).
  apply detect_inv in Hd
    as (tx & ty & tw & th & tc & aw & ah & logits & dist & top & p & Hd).
  destruct Hd as (_ & _ & _ & _ & _ & _ & _ & _ & _ & _ & _ & _ & _ & Hl & _).
  eapply list_elem_of_lookup_2. exact Hl.
Qed.

(** X3. Every box that [GetRecognizedObjects] emits carries one of the
    labels of the table: the top class always indexes [labels] in range. *)
Theorem emitted_label_in_table exp cfg tensor threshold out box :
  cfg_ok cfg ->
  GetRecognizedObjects exp cfg tensor threshold = Some out ->
  box ∈ out ->
  label box ∈ labels cfg.
Proof.
  intros Hok H Hin. rewrite decode_refines in H by assumption.
  eapply decode_label_elem; eassumption.
Qed.

Lemma emitted_label_in_table_witness :
  exists out,
    GetRecognizedObjects Libm.exp three_class (zeros 8) F32.zero = Some out
    /\ three_class_box ∈ out
    /\ label three_class_box ∈ labels three_class.
Proof.
  assert (H : GetRecognizedObjects Libm.exp three_class (zeros 8) F32.zero
              = Some [three_class_box]) by (vm_compute; reflexivity).
  assert (Hin : three_class_box ∈ [three_class_box]) by (apply elem_of_cons; now left).
  exists [three_class_box]. split; [exact H|]. split; [exact Hin|].
  exact (emitted_label_in_table Libm.exp three_class (zeros 8) F32.zero _ _
           (check_cfg_sound three_class eq_refl) H Hin).
Defined.

(** X4. No emitted box has a score below the threshold: the comparison
    [score < threshold] is false for every box of the output, so the score
    is at least the threshold whenever neither of the two is a NaN. *)
Theorem emitted_score_not_below exp cfg tensor threshold out box :
  cfg_ok cfg ->
  GetRecognizedObjects exp cfg tensor threshold = Some out ->
  box ∈ out ->
  F32.ltb (confidence box) threshold = false
  /\ (F32.is_nan (confidence box) = false -> F32.is_nan threshold = false ->
      F32.leb threshold (confidence box) = true).
Proof.
  intros Hok H Hin. rewrite decode_refines in H by assumption.
  destruct (decode_elem _ _ _ _ _ _ H Hin) as ([[cy cx] b] & Ha & Hd).
  apply detect_inv in Hd
    as (tx & ty & tw & th & tc & aw & ah & logits & dist & top & p & Hd).
  destruct Hd as (_ & _ & _ & _ & _ & _ & _ & _ & _ & _ & _ & _ & Hs & _ & _ & _ & _ & _ & Hc).
  rewrite Hc. split; [exact Hs|]. intros Hn1 Hn2.
  apply not_ltb_leb; assumption.
Qed.

Lemma emitted_score_not_below_witness :
  exists out,
    GetRecognizedObjects Libm.exp three_class (zeros 8) (F32.lit 1 1) = Some out
    /\ three_class_box ∈ out
    /\ F32.ltb (confidence three_class_box) (F32.lit 1 1) = false
    /\ F32.leb (F32.lit 1 1) (confidence three_class_box) = true.
Proof.
  assert (H : GetRecognizedObjects Libm.exp three_class (zeros 8) (F32.lit 1 1)
              = Some [three_class_box]) by (vm_compute; reflexivity).
  assert (Hin : three_class_box ∈ [three_class_box]) by (apply elem_of_cons; now left).
  exists [three_class_box]. split; [exact H|]. split; [exact Hin|].
  destruct (emitted_score_not_below Libm.exp three_class (zeros 8) (F32.lit 1 1) _ _
              (check_cfg_sound three_class eq_refl) H Hin) as [H1 H2].
  split; [exact H1|]. apply H2; reflexivity.
Defined.

(** X5. A threshold that is a NaN or minus infinity filters nothing: both
    comparisons against it are false, and on a tensor that is long enough
    every anchor of every cell is emitted, rows * cols * boxesPerCell boxes
    in all. *)
Theorem unordered_threshold_emits_all exp cfg tensor threshold :
  cfg_ok cfg ->
  tensor_length cfg <= Z.of_nat (length tensor) ->
  F32.is_nan threshold = true \/ threshold = S754_infinity true ->
  exists out,
    GetRecognizedObjects exp cfg tensor threshold = Some out
    /\ Z.of_nat (length out)
       = ROW_COUNT cfg * COL_COUNT cfg * BOXES_PER_CELL cfg.
Proof.
  intros Hok Hlen Ht. rewrite decode_refines by assumption.
  destruct (decode_is_Some exp cfg Hok tensor threshold Hlen) as [out Hout].
  exists out. split; [assumption|].
  apply decode_Some_inv in Hout as (ds & Hds & ->).
  assert (Hall : Forall (fun d : option YoloBox => is_Some d) ds).
  { apply mapM_Some in Hds. apply Forall_forall. intros d Hd.
    apply list_elem_of_lookup in Hd as [i Hi].
    destruct (Forall2_lookup_r _ _ _ _ _ Hds Hi) as ([[cy cx] b] & Ha & Hd).
    apply list_elem_of_lookup_2, elem_of_scan_order in Ha as (Hcy & Hcx & Hb).
    destruct (field_is_Some cfg Hok tensor cy cx b 4) as [tc Htc];
      try (assumption || (pose proof (ok_classes _ Hok); lia)).
    destruct (detect_passing exp cfg Hok tensor threshold cy cx b tc)
      as (box & p & Hbox & _); try assumption.
    - now apply ltb_unordered.
    - intros p. now apply ltb_unordered.
    - rewrite Hbox in Hd. injection Hd as <-. eauto. }
  assert (Hlen' : length (omap (fun d : option YoloBox => d) ds) = length ds).
  { clear Hds. induction Hall as [|d ds [box ->] _ IH]; [reflexivity|].
    cbn. now rewrite IH. }
  rewrite Hlen'. apply length_mapM in Hds. rewrite <- Hds, length_scan_order.
  destruct Hok as [Hr Hc HB _ _ _ _ _ _ _].
  rewrite !Nat2Z.inj_mul, !Z2Nat.id by lia. ring.
Qed.

Lemma unordered_threshold_emits_all_witness :
  exists out,
    GetRecognizedObjects Libm.exp yolo yolo_zeros F32.nan = Some out
    /\ Z.of_nat (length out) = 13 * 13 * 5.
Proof.
  apply (unordered_threshold_emits_all Libm.exp yolo yolo_zeros F32.nan).
  - exact (check_cfg_sound yolo eq_refl).
  - vm_compute. discriminate.
  - left. reflexivity.
Defined.

(** X6. The five box features of every anchor are read whatever the
    threshold is, so a tensor with fewer than
    (channels - classes) * rows * cols entries (17745 for the constants of
    the source) is always read out of bounds, which is undefined. *)
Theorem short_tensor_read_out_of_bounds exp cfg tensor threshold :
  cfg_ok cfg ->
  Z.of_nat (length tensor)
    < (CHANNEL_COUNT cfg - CLASS_COUNT cfg) * (ROW_COUNT cfg * COL_COUNT cfg) ->
  GetRecognizedObjects exp cfg tensor threshold = None.
Proof.
  intros Hok Hlen. rewrite decode_refines by assumption. unfold Spec.decode.
  assert (H : mapM (Spec.detect exp cfg tensor threshold) (Spec.scan_order cfg) = None).
  { apply mapM_None, Exists_exists.
    exists (ROW_COUNT cfg - 1, COL_COUNT cfg - 1, BOXES_PER_CELL cfg - 1).
    split; [|now apply detect_short].
    destruct Hok as [Hr Hc HB _ _ _ _ _ _ _].
    apply elem_of_scan_order. lia. }
  now rewrite H.
Qed.

Lemma short_tensor_read_out_of_bounds_witness :
  GetRecognizedObjects Libm.exp yolo (zeros (Z.to_nat 17744)) F32.one = None
  /\ GetRecognizedObjects Libm.exp yolo [] F32.one = None.
Proof.
  split.
  - apply short_tensor_read_out_of_bounds; [exact (check_cfg_sound yolo eq_refl)|].
    vm_compute. reflexivity.
  - apply short_tensor_read_out_of_bounds; [exact (check_cfg_sound yolo eq_refl)|].
    vm_compute. reflexivity.
Defined.

(** ** ProcessOutput: the loop over the boxes *)

Lemma debug_box_size image image' it :
  rows image' = rows image -> cols image' = cols image ->
  debug_box image' it = debug_box image it.
Proof. intros Hr Hc. unfold debug_box. now rewrite Hr, Hc. Qed.

Lemma mat_eta image :
  {| rows := rows image; cols := cols image; drawn := drawn image ++ [] |} = image.
Proof. destruct image. cbn. now rewrite app_nil_r. Qed.

(** The loop issues the events of the matched boxes and, in debug mode,
    draws their rectangles, as long as every conversion is defined. *)
Lemma publish_loop m boxes : forall count image events,
  0 <= count -> count + Z.of_nat (length boxes) <= Int.max_int ->
  steps (publish_step m) boxes (count, image, events)
  = if _debug m then
      rects ← mapM (debug_box image) (matched m boxes);
      Some (count + Z.of_nat (length (matched m boxes)),
            {| rows := rows image; cols := cols image;
               drawn := drawn image ++ map debug_rectangle rects |},
            events ++ matched_events m count (matched m boxes))
    else
      Some (count + Z.of_nat (length (matched m boxes)), image,
            events ++ matched_events m count (matched m boxes)).
Proof.
  induction boxes as [|it boxes IH]; intros count image events Hc Hlen.
  - cbn [steps matched List.filter length matched_events].
    destruct (_debug m); cbn [mapM mbind option_bind mret option_ret map];
      rewrite Z.add_0_r, !app_nil_r; destruct image; reflexivity.
  - cbn [steps publish_step matched List.filter]. cbn [length] in Hlen.
    assert (Hmax : Int.max_int = 2147483647) by reflexivity.
    fold (matched m boxes).
    destruct (String.eqb (label it) (_label m)) eqn:E.
    + assert (Hadd : Int.add count 1 = count + 1).
      { unfold Int.add. apply wrap_id. unfold Int.in_range, Int.min_int. lia. }
      rewrite Hadd. destruct (_debug m) eqn:D.
      * cbn [mapM]. destruct (debug_box image it) as [box|] eqn:B;
          cbn [mbind option_bind mret option_ret]; [|reflexivity].
        rewrite IH by lia.
        rewrite (mapM_ext_in _ (debug_box image)); cycle 1.
        { intros a _. now apply debug_box_size. }
        destruct (mapM (debug_box image) (matched m boxes)) as [rects|];
          cbn [mbind option_bind fmap option_fmap option_map]; [|reflexivity].
        cbn [length matched_events rows cols drawn rectangle map].
        rewrite D. rewrite <- !app_assoc. cbn [app].
        replace (count + 1 + Z.of_nat (length (matched m boxes)))
          with (count + Z.of_nat (S (length (matched m boxes)))) by lia.
        reflexivity.
      * rewrite IH by lia.
        cbn [length matched_events]. rewrite D. rewrite <- !app_assoc. cbn [app].
        replace (count + 1 + Z.of_nat (length (matched m boxes)))
          with (count + Z.of_nat (S (length (matched m boxes)))) by lia.
        reflexivity.
    + rewrite IH by lia. reflexivity.
Qed.

Lemma matched_length_le m boxes : (length (matched m boxes) <= length boxes)%nat.
Proof.
  unfold matched. induction boxes as [|it boxes IH]; [reflexivity|].
  cbn. destruct (String.eqb _ _); cbn; lia.
Qed.

Lemma published_matched_events m its : forall count,
  published_markers (matched_events m count its)
  = imap (fun i it => marker_of m (count + Z.of_nat i) it) its.
Proof.
  induction its as [|it its IH]; intros count; [reflexivity|].
  cbn [matched_events]. unfold published_markers in *.
  cbn [omap list_omap]. rewrite omap_app, IH.
  rewrite imap_cons. rewrite Z.add_0_r. f_equal.
  - destruct (_debug m); cbn.
    + apply imap_ext. intros i a _. cbn. f_equal. lia.
    + apply imap_ext. intros i a _. cbn. f_equal. lia.
Qed.

Lemma matched_events_not_image m its : forall count e,
  e ∈ matched_events m count its ->
  forall frame encoding image, e <> PublishImage frame encoding image.
Proof.
  induction its as [|it its IH]; intros count e He frame encoding image.
  - now apply elem_of_nil in He.
  - cbn [matched_events] in He. apply elem_of_cons in He as [->|He]; [discriminate|].
    apply elem_of_app in He as [He|He].
    + destruct (_debug m); [|now apply elem_of_nil in He].
      apply list_elem_of_singleton in He as ->. discriminate.
    + eapply IH; eassumption.
Qed.

Section Published.
Variable exp : float -> float.
Variable cfg : Config.
Hypothesis Hok : cfg_ok cfg.

Lemma boxes_fit_int output threshold boxes :
  GetRecognizedObjects exp cfg output threshold = Some boxes ->
  0 + Z.of_nat (length boxes) <= Int.max_int.
Proof.
  intros H. rewrite decode_refines in H by assumption.
  apply decode_length_le in H.
  pose proof (scan_order_size cfg (ok_rows _ Hok) (ok_cols _ Hok) (ok_boxes _ Hok)) as E.
  pose proof (ok_size _ Hok) as Hs. pose proof (ok_channels _ Hok) as Hch.
  pose proof (ok_rows _ Hok). pose proof (ok_cols _ Hok).
  pose proof (ok_boxes _ Hok). pose proof (ok_classes _ Hok).
  assert (BOXES_PER_CELL cfg <= CHANNEL_COUNT cfg) by (rewrite Hch; nia).
  assert (ROW_COUNT cfg * COL_COUNT cfg * BOXES_PER_CELL cfg
          <= ROW_COUNT cfg * COL_COUNT cfg * CHANNEL_COUNT cfg)
    by (apply Z.mul_le_mono_nonneg_l; nia).
  lia.
Qed.

(** [ProcessOutput] once the decoder has returned [boxes]. *)
Lemma ProcessOutput_boxes m output image boxes :
  _fake m = false ->
  GetRecognizedObjects exp cfg output (_confidence m) = Some boxes ->
  ProcessOutput exp cfg m output image
  = if _debug m then
      rects ← mapM (debug_box image) (matched m boxes);
      let image' := {| rows := rows image; cols := cols image;
                       drawn := drawn image ++ map debug_rectangle rects |} in
      Some (matched_events m 0 (matched m boxes)
              ++ [PublishImage (_linkName m) "bgr8" image'], image')
    else
      Some (matched_events m 0 (matched m boxes)
              ++ [PublishImage (_linkName m) "bgr8" image], image).
Proof.
  intros Hf H. unfold ProcessOutput. rewrite Hf, H. cbn [mbind option_bind].
  rewrite publish_loop by (lia || (eapply boxes_fit_int; eassumption)).
  destruct (_debug m); [|reflexivity].
  destruct (mapM _ _); reflexivity.
Qed.
End Published.

Lemma ProcessOutput_Some_inv exp cfg m output image events image' :
  _fake m = false ->
  ProcessOutput exp cfg m output image = Some (events, image') ->
  exists boxes, GetRecognizedObjects exp cfg output (_confidence m) = Some boxes.
Proof.
  intros Hf H. unfold ProcessOutput in H. rewrite Hf in H.
  destruct (GetRecognizedObjects _ _ _ _) as [boxes|]; [eauto|discriminate].
Qed.

Lemma ProcessOutput_events exp cfg m output image boxes events image' :
  cfg_ok cfg ->
  _fake m = false ->
  GetRecognizedObjects exp cfg output (_confidence m) = Some boxes ->
  ProcessOutput exp cfg m output image = Some (events, image') ->
  events = matched_events m 0 (matched m boxes)
           ++ [PublishImage (_linkName m) "bgr8" image'].
Proof.
  intros Hok Hf Hb H.
  rewrite (ProcessOutput_boxes exp cfg Hok m output image boxes Hf Hb) in H.
  destruct (_debug m).
  - destruct (mapM _ _); [|discriminate]. cbn in H. now injection H as <- <-.
  - now injection H as <- <-.
Qed.

Lemma published_of_events m its frame encoding image :
  published_markers (matched_events m 0 its ++ [PublishImage frame encoding image])
  = imap (fun i it => marker_of m (Z.of_nat i) it) its.
Proof.
  unfold published_markers. rewrite omap_app. cbn [omap list_omap].
  rewrite app_nil_r. apply published_matched_events.
Qed.


(** X8. In fake mode [ProcessOutput] sends nothing at all and reads
    nothing of the tensor.  Otherwise, when it returns, the image is
    published exactly once, as the last event, under the frame of the
    processor and with encoding bgr8, and it has kept its size. *)
Theorem image_published_last exp cfg m output image :
  cfg_ok cfg ->
  (_fake m = true -> ProcessOutput exp cfg m output image = Some ([], image))
  /\ (_fake m = false ->
      forall events image',
        ProcessOutput exp cfg m output image = Some (events, image') ->
        exists evs,
          events = evs ++ [PublishImage (_linkName m) "bgr8" image']
          /\ (forall e frame encoding img,
                e ∈ evs -> e <> PublishImage frame encoding img)
          /\ rows image' = rows image /\ cols image' = cols image).
Proof.
  intros Hok. split.
  - intros Hf. unfold ProcessOutput. now rewrite Hf.
  - intros Hf events image' H.
    destruct (ProcessOutput_Some_inv _ _ _ _ _ _ _ Hf H) as [boxes Hb].
    rewrite (ProcessOutput_boxes exp cfg Hok m output image boxes Hf Hb) in H.
    exists (matched_events m 0 (matched m boxes)).
    assert (Hn : forall e frame encoding img,
              e ∈ matched_events m 0 (matched m boxes) ->
              e <> PublishImage frame encoding img)
      by (intros e frame encoding img He; eapply matched_events_not_image; eassumption).
    destruct (_debug m).
    + destruct (mapM _ _); [|discriminate]. cbn in H. injection H as <- <-.
      repeat split; try reflexivity. exact Hn.
    + injection H as <- <-. repeat split; try reflexivity. exact Hn.
Qed.

Lemma image_published_last_witness :
  exists evs image',
    ProcessOutput Libm.exp three_class sample_members (zeros 8) sample_image
    = Some (evs ++ [PublishImage "camera" "bgr8" image'], image')
    /\ (forall e frame encoding img,
          e ∈ evs -> e <> PublishImage frame encoding img)
    /\ rows image' = 416 /\ cols image' = 416.
Proof.
  destruct (image_published_last Libm.exp three_class sample_members (zeros 8)
              sample_image (check_cfg_sound three_class eq_refl)) as [_ H2].
  destruct (ProcessOutput Libm.exp three_class sample_members (zeros 8) sample_image)
    as [[events image']|] eqn:E; [|vm_compute in E; discriminate E].
  destruct (H2 eq_refl events image' eq_refl) as (evs & -> & Hn & Hr & Hc).
  exists evs, image'. repeat split; assumption.
Defined.


(** ** ProcessOutput: the rectangles of debug mode *)

Lemma to_int_range v z : F32.to_int v = Some z -> Int.min_int <= z <= Int.max_int.
Proof.
  unfold F32.to_int. destruct v as [s| | |s mv ev]; try discriminate.
  - intros [= <-]. unfold Int.min_int, Int.max_int. lia.
  - cbv zeta.
    match goal with |- context [if ?c then _ else _] => destruct c eqn:E end;
      [|discriminate].
    intros [= <-]. apply andb_true_iff in E as [E1 E2].
    apply Z.leb_le in E1, E2. lia.
Qed.

Lemma debug_box_inv image it r :
  debug_box image it = Some r ->
  exists ix iy ih iw,
    F32.to_int (x it) = Some ix /\ F32.to_int (y it) = Some iy
    /\ F32.to_int (height it) = Some ih /\ F32.to_int (width it) = Some iw
    /\ r = {| rect_x := Z.max ix 0; rect_y := Z.max iy 0;
              rect_width := Z.min (Int.wrap (cols image - Z.max ix 0)) iw;
              rect_height := Z.min (Int.wrap (rows image - Z.max iy 0)) ih |}.
Proof.
  unfold debug_box. intros H.
  destruct (F32.to_int (x it)) as [ix|]; [|discriminate].
  destruct (F32.to_int (y it)) as [iy|]; [|discriminate].
  destruct (F32.to_int (height it)) as [ih|]; [|discriminate].
  destruct (F32.to_int (width it)) as [iw|]; [|discriminate].
  cbn in H. injection H as <-. exists ix, iy, ih, iw. repeat split; reflexivity.
Qed.

Lemma debug_box_is_Some image it : is_Some (debug_box image it) <-> convertible it.
Proof.
  unfold convertible, debug_box. split.
  - intros [r H].
    destruct (F32.to_int (x it)) as [ix|]; [|discriminate].
    destruct (F32.to_int (y it)) as [iy|]; [|discriminate].
    destruct (F32.to_int (height it)) as [ih|]; [|discriminate].
    destruct (F32.to_int (width it)) as [iw|]; [|discriminate].
    repeat split; eauto.
  - intros ([ix ->] & [iy ->] & [ih ->] & [iw ->]). cbn. eauto.
Qed.

Lemma debug_box_inside image it r :
  0 <= rows image <= Int.max_int -> 0 <= cols image <= Int.max_int ->
  debug_box image it = Some r -> inside image r.
Proof.
  intros Hr Hc H.
  apply debug_box_inv in H as (ix & iy & ih & iw & Hx & Hy & Hh & Hw & ->).
  apply to_int_range in Hx, Hy.
  assert (Hmax : Int.max_int = 2147483647) by reflexivity.
  assert (Hmin : Int.min_int = -2147483648) by reflexivity.
  unfold inside. cbn [rect_x rect_y rect_width rect_height].
  rewrite !wrap_id by (unfold Int.in_range; lia). lia.
Qed.

(** X9. Every rectangle that [ProcessOutput] draws starts inside the image
    and does not reach beyond its right and bottom edges: the corner is
    clamped at 0 and the size at what is left of the image.  Without
    debugging nothing is drawn. *)
Theorem debug_rectangles_inside exp cfg m output image events image' :
  cfg_ok cfg ->
  0 <= rows image <= Int.max_int -> 0 <= cols image <= Int.max_int ->
  ProcessOutput exp cfg m output image = Some (events, image') ->
  exists boxes,
    drawn image' = drawn image ++ map debug_rectangle boxes
    /\ Forall (inside image) boxes
    /\ (_debug m = false -> boxes = []).
Proof.
  intros Hok Hr Hc H. destruct (_fake m) eqn:Hf.
  - unfold ProcessOutput in H. rewrite Hf in H. injection H as <- <-.
    exists []. cbn. rewrite app_nil_r. repeat split. constructor.
  - destruct (ProcessOutput_Some_inv _ _ _ _ _ _ _ Hf H) as [boxes Hb].
    rewrite (ProcessOutput_boxes exp cfg Hok m output image boxes Hf Hb) in H.
    destruct (_debug m).
    + destruct (mapM _ _) as [rects|] eqn:Hm; [|discriminate].
      cbn in H. injection H as <- <-. exists rects. cbn [drawn].
      split; [reflexivity|]. split; [|discriminate].
      apply mapM_Some in Hm. apply Forall_forall. intros r Hin.
      apply list_elem_of_lookup in Hin as [i Hi].
      destruct (Forall2_lookup_r _ _ _ _ _ Hm Hi) as (it & _ & Hd).
      eapply debug_box_inside; eassumption.
    + injection H as <- <-. exists []. cbn. rewrite app_nil_r.
      repeat split. constructor.
Qed.

Lemma debug_rectangles_inside_witness :
  exists events image' boxes,
    ProcessOutput Libm.exp three_class sample_members (zeros 8) sample_image
    = Some (events, image')
    /\ drawn image' = drawn sample_image ++ map debug_rectangle boxes
    /\ Forall (inside sample_image) boxes.
Proof.
  destruct (ProcessOutput Libm.exp three_class sample_members (zeros 8) sample_image)
    as [[events image']|] eqn:E; [|vm_compute in E; discriminate E].
  destruct (debug_rectangles_inside Libm.exp three_class sample_members (zeros 8)
              sample_image events image' (check_cfg_sound three_class eq_refl))
    as (boxes & Hd & Hi & _);
    [vm_compute; split; discriminate|vm_compute; split; discriminate|exact E|].
  exists events, image', boxes. repeat split; assumption.
Defined.

(** X10. With the flag [_fake] off, [ProcessOutput] is defined exactly when
    the decoder is and, if debugging is on, the x, y, height and width of
    every box that carries the label can be converted to [int]: a matched
    box with a NaN, an infinite or a huge coordinate makes debug mode
    undefined, while without debugging nothing is converted. *)
Theorem ProcessOutput_defined exp cfg m output image :
  cfg_ok cfg ->
  _fake m = false ->
  (is_Some (ProcessOutput exp cfg m output image) <->
   exists boxes,
     GetRecognizedObjects exp cfg output (_confidence m) = Some boxes
     /\ (_debug m = true -> Forall convertible (matched m boxes))).
Proof.
  intros Hok Hf. split.
  - intros [[events image'] H].
    destruct (ProcessOutput_Some_inv _ _ _ _ _ _ _ Hf H) as [boxes Hb].
    exists boxes. split; [assumption|]. intros Hd.
    rewrite (ProcessOutput_boxes exp cfg Hok m output image boxes Hf Hb), Hd in H.
    destruct (mapM _ _) as [rects|] eqn:Hm; [|discriminate].
    assert (Hs : is_Some (mapM (debug_box image) (matched m boxes))) by eauto.
    apply mapM_is_Some in Hs. eapply Forall_impl; [exact Hs|].
    intros it Hit. now apply (debug_box_is_Some image).
  - intros (boxes & Hb & Hc).
    rewrite (ProcessOutput_boxes exp cfg Hok m output image boxes Hf Hb).
    destruct (_debug m); [|eauto].
    assert (Hs : is_Some (mapM (debug_box image) (matched m boxes))).
    { apply mapM_is_Some. eapply Forall_impl; [exact (Hc eq_refl)|].
      intros it Hit. now apply (debug_box_is_Some image). }
    destruct Hs as [rects ->]. cbn. eauto.
Qed.

Lemma ProcessOutput_defined_witness :
  is_Some (ProcessOutput Libm.exp three_class sample_members (zeros 8) sample_image).
Proof.
  apply (ProcessOutput_defined Libm.exp three_class sample_members (zeros 8)
           sample_image (check_cfg_sound three_class eq_refl) eq_refl).
  exists [three_class_box]. split; [vm_compute; reflexivity|]. intros _.
  change (matched sample_members [three_class_box]) with [three_class_box].
  constructor; [|constructor]. unfold convertible.
  repeat split; vm_compute; eexists; reflexivity.
Defined.

(** ** ProcessOutput: labels and thresholds *)

Lemma matched_nil m boxes :
  (forall it, it ∈ boxes -> label it <> _label m) -> matched m boxes = [].
Proof.
  unfold matched. induction boxes as [|it boxes IH]; intros H; [reflexivity|].
  cbn. destruct (String.eqb (label it) (_label m)) eqn:E.
  - apply String.eqb_eq in E. exfalso. apply (H it); [apply elem_of_cons; now left|assumption].
  - apply IH. intros it' Hin. apply H. apply elem_of_cons. now right.
Qed.

(** X11. When the label of the processor is not in the table of labels, no
    marker is ever published: on a tensor that is long enough
    [ProcessOutput] publishes the untouched image and nothing else, with
    or without debugging. *)
Theorem unknown_label_publishes_image_only exp cfg m output image :
  cfg_ok cfg ->
  _fake m = false ->
  tensor_length cfg <= Z.of_nat (length output) ->
  _label m ∉ labels cfg ->
  ProcessOutput exp cfg m output image
  = Some ([PublishImage (_linkName m) "bgr8" image], image).
Proof.
  intros Hok Hf Hlen Hl.
  destruct (decode_is_Some exp cfg Hok output (_confidence m) Hlen) as [boxes Hb].
  rewrite <- decode_refines in Hb by assumption.
  rewrite (ProcessOutput_boxes exp cfg Hok m output image boxes Hf Hb).
  rewrite matched_nil.
  - destruct (_debug m); cbn; [|reflexivity]. now rewrite mat_eta.
  - intros it Hin E. apply Hl. rewrite <- E.
    rewrite decode_refines in Hb by assumption.
    eapply decode_label_elem; eassumption.
Qed.

Lemma unknown_label_publishes_image_only_witness :
  ProcessOutput Libm.exp three_class
    {| _fake := false; _debug := true; _confidence := F32.zero;
       _label := "person"; _linkName := "camera" |} (zeros 8) sample_image
  = Some ([PublishImage "camera" "bgr8" sample_image], sample_image).
Proof.
  apply (unknown_label_publishes_image_only Libm.exp three_class
           {| _fake := false; _debug := true; _confidence := F32.zero;
              _label := "person"; _linkName := "camera" |}).
  - exact (check_cfg_sound three_class eq_refl).
  - reflexivity.
  - vm_compute. discriminate.
  - cbn. intros H.
    repeat (apply elem_of_cons in H as [H|H]; [discriminate H|]).
    now apply elem_of_nil in H.
Defined.

Lemma filter_sublist {A} (f : A -> bool) (l1 l2 : list A) :
  l1 `sublist_of` l2 -> List.filter f l1 `sublist_of` List.filter f l2.
Proof.
  induction 1 as [|a l1 l2 _ IH|a l1 l2 _ IH]; cbn.
  - constructor.
  - destruct (f a); [now constructor|assumption].
  - destruct (f a); [now constructor|assumption].
Qed.

Lemma position_imap m its :
  position <$> imap (fun i it => marker_of m (Z.of_nat i) it) its
  = (fun it => position (marker_of m 0 it)) <$> its.
Proof. rewrite fmap_imap. rewrite <- imap_const. now apply imap_ext. Qed.

(** X12. Raising the confidence threshold of the processor only removes
    markers: the positions published with the higher threshold are a
    subsequence of those published with the lower one. *)
Theorem markers_monotone exp cfg m1 m2 output image events1 image1 events2 image2 :
  cfg_ok cfg ->
  _fake m1 = false -> _fake m2 = false ->
  _label m1 = _label m2 ->
  F32.leb (_confidence m1) (_confidence m2) = true ->
  ProcessOutput exp cfg m1 output image = Some (events1, image1) ->
  ProcessOutput exp cfg m2 output image = Some (events2, image2) ->
  (position <$> published_markers events2)
    `sublist_of` (position <$> published_markers events1).
Proof.
  intros Hok Hf1 Hf2 Hl Hle H1 H2.
  destruct (ProcessOutput_Some_inv _ _ _ _ _ _ _ Hf1 H1) as [boxes1 Hb1].
  destruct (GetRecognizedObjects_mono exp cfg output _ _ boxes1 Hle Hb1)
    as (boxes2 & Hb2 & Hsub).
  rewrite (ProcessOutput_events _ _ _ _ _ _ _ _ Hok Hf1 Hb1 H1).
  rewrite (ProcessOutput_events _ _ _ _ _ _ _ _ Hok Hf2 Hb2 H2).
  rewrite !published_of_events, !position_imap.
  assert (Em : matched m2 boxes2 `sublist_of` matched m1 boxes1).
  { unfold matched. rewrite Hl. now apply filter_sublist. }
  assert (Ep : (fun it => position (marker_of m2 0 it))
               = (fun it => position (marker_of m1 0 it))) by reflexivity.
  rewrite Ep. now apply fmap_sublist.
Qed.

Lemma markers_monotone_witness :
  exists events1 image1 events2 image2,
    ProcessOutput Libm.exp three_class sample_members (zeros 8) sample_image
    = Some (events1, image1)
    /\ ProcessOutput Libm.exp three_class strict_members (zeros 8) sample_image
       = Some (events2, image2)
    /\ (position <$> published_markers events2)
         `sublist_of` (position <$> published_markers events1).
Proof.
  destruct (ProcessOutput Libm.exp three_class sample_members (zeros 8) sample_image)
    as [[events1 image1]|] eqn:E1; [|vm_compute in E1; discriminate E1].
  destruct (ProcessOutput Libm.exp three_class strict_members (zeros 8) sample_image)
    as [[events2 image2]|] eqn:E2; [|vm_compute in E2; discriminate E2].
  exists events1, image1, events2, image2.
  split; [reflexivity|]. split; [reflexivity|].
  exact (markers_monotone Libm.exp three_class sample_members strict_members
           (zeros 8) sample_image _ _ _ _
           (check_cfg_sound three_class eq_refl) eq_refl eq_refl eq_refl eq_refl E1 E2).
Defined.

(** ** NaN: where it comes from and where it goes *)

Lemma in_unit_not_nan prec r : in_unit prec r -> F32.is_nan r = false.
Proof. intros [->|(m & e & -> & _)]; reflexivity. Qed.

Lemma ltb_nan_l a b : F32.is_nan a = true -> F32.ltb a b = false.
Proof. destruct a; try discriminate. reflexivity. Qed.

(** X13. [Sigmoid] returns a NaN exactly when [exp] overflows to infinity
    (the quotient is then infinity / infinity) or itself returns a NaN,
    [exp] being assumed never to return a negative number. *)
Theorem Sigmoid_nan_iff exp v :
  nonneg_finite (exp v) \/ exp v = F32.infinity \/ F32.is_nan (exp v) = true ->
  (F32.is_nan (Sigmoid exp v) = true
   <-> exp v = F32.infinity \/ F32.is_nan (exp v) = true).
Proof.
  intros H. split.
  - intros Hn. destruct H as [H|H]; [|assumption].
    apply Sigmoid_in_unit, in_unit_not_nan in H. congruence.
  - unfold Sigmoid. intros [->|Hn]; [reflexivity|].
    destruct (exp v); try discriminate. reflexivity.
Qed.

Lemma Sigmoid_nan_iff_witness :
  F32.is_nan (Sigmoid Libm.exp (F32.of_int 100)) = true.
Proof.
  destruct (Sigmoid_nan_iff Libm.exp (F32.of_int 100)) as [_ H].
  - right. left. vm_compute. reflexivity.
  - apply H. left. vm_compute. reflexivity.
Defined.

(** X14. An anchor whose objectness is a NaN is never discarded: both
    comparisons with the threshold are false, so on a tensor that is long
    enough a box with a NaN score is emitted for it whatever the threshold
    is. *)
Theorem nan_objectness_is_emitted exp cfg tensor threshold cy cx b tc :
  cfg_ok cfg ->
  tensor_length cfg <= Z.of_nat (length tensor) ->
  0 <= cy < ROW_COUNT cfg -> 0 <= cx < COL_COUNT cfg ->
  0 <= b < BOXES_PER_CELL cfg ->
  field cfg tensor cy cx b 4 = Some tc ->
  F32.is_nan (Sigmoid exp tc) = true ->
  exists out box,
    GetRecognizedObjects exp cfg tensor threshold = Some out
    /\ box ∈ out
    /\ F32.is_nan (confidence box) = true.
Proof.
  intros Hok Hlen Hcy Hcx Hb Htc Hn.
  destruct (decode_is_Some exp cfg Hok tensor threshold Hlen) as [out Hout].
  destruct (detect_passing exp cfg Hok tensor threshold cy cx b tc)
    as (box & p & Hbox & Hc); try assumption.
  - now apply ltb_nan_l.
  - intros p. now rewrite mul_nan_r.
  - exists out, box. rewrite decode_refines by assumption.
    split; [assumption|]. split.
    + eapply decode_mem; [eassumption| |eassumption].
      apply elem_of_scan_order. auto.
    + rewrite Hc. now rewrite mul_nan_r.
Qed.

Lemma nan_objectness_is_emitted_witness :
  exists out box,
    GetRecognizedObjects Libm.exp yolo overflow_tensor (F32.of_int 2) = Some out
    /\ box ∈ out
    /\ F32.is_nan (confidence box) = true.
Proof.
  apply (nan_objectness_is_emitted Libm.exp yolo overflow_tensor (F32.of_int 2)
           0 0 0 (F32.of_int 100)).
  - exact (check_cfg_sound yolo eq_refl).
  - vm_compute. discriminate.
  - vm_compute. split; [discriminate|reflexivity].
  - vm_compute. split; [discriminate|reflexivity].
  - vm_compute. split; [discriminate|reflexivity].
  - vm_compute. reflexivity.
  - vm_compute. reflexivity.
Defined.

Lemma accumulate_nan l : accumulate S754_nan l = S754_nan.
Proof. induction l as [|x l IH]; [reflexivity|]. cbn. exact IH. Qed.

Lemma add_nan_r acc : F64.add acc S754_nan = S754_nan.
Proof. now destruct acc. Qed.

Lemma accumulate_poisoned l : forall acc,
  (exists e, e ∈ l /\ F32.is_nan e = true) -> accumulate acc l = S754_nan.
Proof.
  induction l as [|x l IH]; intros acc (e & He & Hn).
  - now apply elem_of_nil in He.
  - cbn [accumulate fold_left]. apply elem_of_cons in He as [<-|He].
    + destruct e; try discriminate. cbn [F64.of_float]. rewrite add_nan_r.
      apply accumulate_nan.
    + apply IH. eauto.
Qed.

Lemma sub_nan_l x y : F32.is_nan x = true -> F32.sub x y = S754_nan.
Proof. destruct x; try discriminate. reflexivity. Qed.

Lemma sub_nan_r x y : F32.is_nan y = true -> F32.sub x y = S754_nan.
Proof. destruct y; try discriminate. now destruct x. Qed.

Lemma div_nan_r x y : F32.is_nan y = true -> F32.div x y = S754_nan.
Proof. destruct y; try discriminate. now destruct x. Qed.

(** X15. A NaN or a plus infinity among the inputs of [Softmax] turns
    every output into a NaN ([exp] of a NaN being a NaN): the maximum is
    subtracted from itself, infinity - infinity, and the NaN spreads through
    the sum to every quotient. *)
Theorem Softmax_nan_spreads exp values dist :
  F32.is_nan (exp S754_nan) = true ->
  (exists x, x ∈ values /\ (F32.is_nan x = true \/ x = F32.infinity)) ->
  Softmax exp values = Some dist ->
  length dist = length values
  /\ Forall (fun p => F32.is_nan p = true) dist.
Proof.
  intros Hexp (x & Hx & Hcase) H. split; [eapply Softmax_length; eassumption|].
  unfold Softmax in H.
  destruct (max_element values) as [imax|] eqn:Himax; [|discriminate].
  cbn [mbind option_bind] in H.
  destruct (values !! imax) as [max_val|] eqn:Hmax; [|discriminate].
  cbn [mbind option_bind] in H. injection H as <-.
  pose proof (max_element_spec _ _ Himax) as (p & Hp & Hge & _).
  rewrite Hmax in Hp. injection Hp as <-.
  assert (Hsub : F32.sub x max_val = S754_nan).
  { destruct Hcase as [Hn| ->]; [now apply sub_nan_l|].
    apply list_elem_of_lookup in Hx as [j Hj].
    specialize (Hge j _ Hj).
    destruct max_val as [[]|[]| |[] ? ?]; try discriminate Hge; reflexivity. }
  assert (Hin : exists e, e ∈ map (fun x => exp (F32.sub x max_val)) values
                          /\ F32.is_nan e = true).
  { exists (exp S754_nan). split; [|assumption].
    apply list_elem_of_fmap. exists x. now rewrite Hsub. }
  pose proof (accumulate_poisoned _ F64.zero Hin) as Hacc.
  unfold accumulate in Hacc. rewrite Hacc. cbn [F32.of_double].
  apply Forall_forall. intros q Hq.
  apply list_elem_of_fmap in Hq as (e & -> & _).
  now rewrite div_nan_r.
Qed.

Lemma Softmax_nan_spreads_witness :
  exists dist,
    Softmax Libm.exp [F32.one; F32.infinity; F32.zero] = Some dist
    /\ length dist = length [F32.one; F32.infinity; F32.zero]
    /\ Forall (fun p => F32.is_nan p = true) dist.
Proof.
  destruct (Softmax Libm.exp [F32.one; F32.infinity; F32.zero]) as [dist|] eqn:E;
    [|vm_compute in E; discriminate E].
  exists dist. split; [reflexivity|].
  apply (Softmax_nan_spreads Libm.exp [F32.one; F32.infinity; F32.zero] dist).
  - reflexivity.
  - exists F32.infinity. split; [|now right].
    apply elem_of_cons. right. apply elem_of_cons. now left.
  - exact E.
Defined.

(** X16. [Softmax] is defined exactly on the non-empty vectors: on an empty
    one [max_element] returns [end()], whose dereference is undefined; on
    any other vector, NaN entries included, it returns a vector of the same
    length. *)
Theorem Softmax_defined_iff exp values :
  (is_Some (Softmax exp values) <-> values <> [])
  /\ (forall dist, Softmax exp values = Some dist -> length dist = length values).
Proof.
  split; [split|].
  - intros [dist H] ->. discriminate H.
  - apply Softmax_is_Some.
  - apply Softmax_length.
Qed.

(** ** Signs *)

Lemma round_not_negative mx ex lx :
  0 <= mx ->
  F32.ltb (binary_round_aux F32.prec F32.emax false mx ex lx) F32.zero = false.
Proof.
  intros Hm.
  destruct (binary_round_aux_spec F32.prec F32.emax false mx ex lx Hm) as (m1 & _ & ->).
  cbv zeta. destruct (_ / _); [reflexivity| |reflexivity].
  destruct (_ <=? _); reflexivity.
Qed.

(** The product of two floats that are not negative is not negative (it
    may be a NaN, as for infinity * 0). *)
Lemma mul_not_negative a b :
  F32.ltb a F32.zero = false -> F32.ltb b F32.zero = false ->
  F32.ltb (F32.mul a b) F32.zero = false.
Proof.
  intros Ha Hb.
  destruct a as [[]|[]| |[] ma ea]; try discriminate Ha;
    destruct b as [[]|[]| |[] mb eb]; try discriminate Hb; try reflexivity.
  unfold F32.mul, SFmul. cbn [xorb]. apply round_not_negative. lia.
Qed.

(** X17. No emitted box has a negative width or height, provided [exp] is
    not negative at the entries of the tensor and the cell size and the
    anchors of the configuration are not negative: the comparisons
    [width < 0] and [height < 0] are false for every box of the output. *)
Theorem emitted_size_not_negative exp cfg tensor threshold out box :
  cfg_ok cfg ->
  (forall v, v ∈ tensor -> F32.ltb (exp v) F32.zero = false) ->
  F32.ltb (CELL_WIDTH cfg) F32.zero = false ->
  F32.ltb (CELL_HEIGHT cfg) F32.zero = false ->
  Forall (fun a => F32.ltb a F32.zero = false) (anchors cfg) ->
  GetRecognizedObjects exp cfg tensor threshold = Some out ->
  box ∈ out ->
  F32.ltb (width box) F32.zero = false
  /\ F32.ltb (height box) F32.zero = false.
Proof.
  intros Hok Hexp Hw Hh Han H Hin. rewrite decode_refines in H by assumption.
  destruct (decode_elem _ _ _ _ _ _ H Hin) as ([[cy cx] b] & Ha & Hd).
  apply detect_inv in Hd
    as (tx & ty & tw & th & tc & aw & ah & logits & dist & top & p & Hd).
  destruct Hd as (_ & _ & Htw & Hth & _ & Haw & Hah & _ & _ & _ & _ & _ & _ & _
                  & _ & _ & -> & -> & _).
  assert (Helem : forall (l : list float) i v, at_index l i = Some v -> v ∈ l).
  { intros l i v. unfold at_index. destruct (i <? 0); [discriminate|].
    apply list_elem_of_lookup_2. }
  rewrite Forall_forall in Han. unfold field in Htw, Hth.
  split; apply mul_not_negative; try apply mul_not_negative; eauto.
Qed.

Lemma emitted_size_not_negative_witness :
  exists out,
    GetRecognizedObjects Libm.exp three_class (zeros 8) F32.zero = Some out
    /\ three_class_box ∈ out
    /\ F32.ltb (width three_class_box) F32.zero = false
    /\ F32.ltb (height three_class_box) F32.zero = false.
Proof.
  assert (H : GetRecognizedObjects Libm.exp three_class (zeros 8) F32.zero
              = Some [three_class_box]) by (vm_compute; reflexivity).
  assert (Hin : three_class_box ∈ [three_class_box]) by (apply elem_of_cons; now left).
  exists [three_class_box]. split; [exact H|]. split; [exact Hin|].
  apply (emitted_size_not_negative Libm.exp three_class (zeros 8) F32.zero
           [three_class_box] three_class_box).
  - exact (check_cfg_sound three_class eq_refl).
  - intros v Hv. apply list_elem_of_lookup in Hv as [i Hi].
    apply lookup_zeros in Hi as ->. reflexivity.
  - reflexivity.
  - reflexivity.
  - repeat constructor.
  - exact H.
  - exact Hin.
Defined.

(** ** Probabilities: quotients and products in [0, 1] *)

(** The order of values, on integers and on reals. *)
Lemma vle_R m e m' e' :
  vle m e m' e' <-> (IZR m * pow2 e <= IZR m' * pow2 e')%R.
Proof.
  unfold vle. set (c := Z.min e e').
  assert (H1 : (IZR (m * 2 ^ (e - c)) * pow2 c = IZR m * pow2 e)%R).
  { rewrite IZR_shift by (unfold c; lia). f_equal. f_equal. lia. }
  assert (H2 : (IZR (m' * 2 ^ (e' - c)) * pow2 c = IZR m' * pow2 e')%R).
  { rewrite IZR_shift by (unfold c; lia). f_equal. f_equal. lia. }
  pose proof (pow2_pos c) as Hc. rewrite <- H1, <- H2. split.
  - intros H. apply IZR_le in H. nra.
  - intros H. apply le_IZR. nra.
Qed.

Section Mantissa.
Variables prec emax : Z.
Hypothesis Hprec : 0 < prec.

(** A rounded mantissa fits the precision. *)
Lemma round_bounded sx mx ex lx s mr er :
  0 <= mx -> ex <= fexp prec emax (Zdigits2 mx + ex) ->
  binary_round_aux prec emax sx mx ex lx = S754_finite s mr er ->
  Z.pos mr < 2 ^ prec.
Proof.
  intros Hm He H.
  destruct (binary_round_aux_canonical prec emax Hprec sx mx ex lx Hm He)
    as (m1 & Hm1 & Ha & E).
  cbv zeta in Hm1, Ha, E. rewrite E in H. clear E.
  destruct (m1 =? 0) eqn:E0; [discriminate|]. apply Z.eqb_neq in E0.
  assert (0 < 2 ^ (prec - 1) < 2 ^ prec).
  { split; [apply Z.pow_pos_nonneg; lia|apply Z.pow_lt_mono_r; lia]. }
  destruct (m1 <? 2 ^ prec) eqn:E1.
  - apply Z.ltb_lt in E1. destruct (_ <=? _); [|discriminate].
    injection H as _ <- _. destruct Hm1 as [->|[-> _]]; lia.
  - destruct (_ <=? _); [|discriminate]. injection H as _ <- _. lia.
Qed.

(** The quotient of two positive floats is rounded from a mantissa with
    enough digits. *)
Lemma SFdiv_core_digits m e md ed :
  exists q e' l,
    SFdiv prec emax (S754_finite false m e) (S754_finite false md ed)
    = binary_round_aux prec emax false q e' l
    /\ 0 <= q /\ e' <= fexp prec emax (Zdigits2 q + e').
Proof.
  unfold SFdiv, SFdiv_core_binary. cbn [xorb].
  set (d1 := Zdigits2 (Z.pos m)). set (d2 := Zdigits2 (Z.pos md)).
  set (D := d1 + e - (d2 + ed)).
  set (e' := Z.min (fexp prec emax D) (e - ed)).
  set (s := e - ed - e').
  assert (Hs : 0 <= s) by (unfold s, e'; lia).
  set (m' := match s with
             | Z.pos _ => Z.shiftl (Z.pos m) s
             | Z0 => Z.pos m
             | Z.neg _ => Z0
             end).
  assert (Hm' : m' = Z.pos m * 2 ^ s).
  { unfold m'. destruct s as [|p|p] eqn:Es.
    - rewrite Z.pow_0_r. lia.
    - now rewrite Z.shiftl_mul_pow2 by lia.
    - lia. }
  assert (H2s : 0 < 2 ^ s) by (apply Z.pow_pos_nonneg; lia).
  pose proof (Z_div_mod m' (Z.pos md) ltac:(lia)) as Hdm.
  destruct (Z.div_eucl m' (Z.pos md)) as [q r]. destruct Hdm as [Hdm Hr].
  assert (Hq0 : 0 <= q) by nia.
  exists q, e', (new_location (Z.pos md) r).
  split; [reflexivity|]. split; [assumption|].
  pose proof (Zdigits2_bounds (Z.pos m) ltac:(lia)) as [Hml Hmu]. fold d1 in Hml, Hmu.
  pose proof (Zdigits2_bounds (Z.pos md) ltac:(lia)) as [Hdl Hdu]. fold d2 in Hdl, Hdu.
  assert (Hd1 : 0 < d1) by (apply Zdigits2_pos; lia).
  assert (Hd2 : 0 < d2) by (apply Zdigits2_pos; lia).
  destruct (Z_le_gt_dec 0 (D - 1 - e')) as [Ht|Ht].
  - assert (Hqt : 2 ^ (D - 1 - e') <= q).
    { assert (Hle : Z.pos md * 2 ^ (D - 1 - e') <= m').
      { rewrite Hm'.
        assert (2 ^ d2 * 2 ^ (D - 1 - e') = 2 ^ (d1 - 1) * 2 ^ s).
        { rewrite <- !Z.pow_add_r by lia. f_equal. unfold D, s. lia. }
        assert (0 < 2 ^ (D - 1 - e')) by (apply Z.pow_pos_nonneg; lia).
        nia. }
      assert (0 < 2 ^ (D - 1 - e')) by (apply Z.pow_pos_nonneg; lia).
      nia. }
    assert (Hqpos : 0 < q)
      by (assert (0 < 2 ^ (D - 1 - e')) by (apply Z.pow_pos_nonneg; lia); lia).
    pose proof (Zdigits2_bounds q Hqpos) as [_ Hqu].
    assert (D - 1 - e' < Zdigits2 q)
      by (apply pow2_lt_inv; [lia|apply Zdigits2_nonneg]).
    pose proof (fexp_mono prec emax D (Zdigits2 q + e') ltac:(lia)).
    assert (e' <= fexp prec emax D) by (unfold e'; lia). lia.
  - assert (e' <= emin prec emax) by (unfold e', fexp in *; lia).
    pose proof (fexp_ge_emin prec emax (Zdigits2 q + e')). lia.
Qed.

Lemma SFdiv_bounded m e md ed s mr er :
  SFdiv prec emax (S754_finite false m e) (S754_finite false md ed)
  = S754_finite s mr er ->
  Z.pos mr < 2 ^ prec.
Proof.
  destruct (SFdiv_core_digits m e md ed) as (q & e' & l & -> & Hq & He').
  now apply round_bounded.
Qed.
End Mantissa.

Lemma unit_repr_in_unit r : unit_repr r -> in_unit F32.prec r.
Proof.
  intros [->|(m & e & -> & He & Hm)]; [now left|].
  right. exists m, e. split; [reflexivity|]. unfold F32.prec.
  destruct (Z.eq_dec e (-23)) as [->|Hne]; [right|left; lia].
  split; [reflexivity|exact Hm].
Qed.

Lemma unit_repr_leb r :
  unit_repr r -> F32.leb F32.zero r = true /\ F32.leb r F32.one = true.
Proof. intros H. now apply in_unit_leb, unit_repr_in_unit. Qed.

(** A quotient of positive floats, the dividend at most the divisor. *)
Lemma div_unit_repr m e md ed :
  vle (Z.pos m) e (Z.pos md) ed ->
  unit_repr (F32.div (S754_finite false m e) (S754_finite false md ed)).
Proof.
  intros Hle.
  pose proof (SFdiv_in_unit F32.prec F32.emax ltac:(reflexivity)
                ltac:(unfold F32.emax; lia) m e md ed Hle) as Hu.
  pose proof (SFdiv_bounded F32.prec F32.emax ltac:(reflexivity) m e md ed) as Hb.
  unfold F32.div.
  destruct Hu as [->|(mr & er & E & Hr)]; [now left|].
  specialize (Hb false mr er E). rewrite E. right. exists mr, er.
  split; [reflexivity|]. unfold F32.prec in *.
  destruct Hr as [Hlt|[-> Hm]].
  - split; [lia|].
    assert (2 ^ 24 <= 2 ^ (- er)) by (apply Z.pow_le_mono_r; lia). lia.
  - split; [lia|]. exact Hm.
Qed.

(** The product of two floats in [0, 1] is in [0, 1]. *)
Lemma mul_unit_repr a b :
  unit_repr a -> unit_repr b -> in_unit F32.prec (F32.mul a b).
Proof.
  intros [->|(ma & ea & -> & Hea & Hma)] [->|(mb & eb & -> & Heb & Hmb)];
    try (now left).
  unfold F32.mul, SFmul. cbn [xorb].
  apply binary_round_aux_in_unit.
  - reflexivity.
  - unfold F32.emax. lia.
  - lia.
  - unfold F32.prec. lia.
  - rewrite Pos2Z.inj_mul.
    replace (- (ea + eb)) with (- ea + - eb) by lia.
    rewrite Z.pow_add_r by lia.
    apply Z.mul_le_mono_nonneg; lia.
  - reflexivity.
Qed.

Lemma Sigmoid_unit_repr exp v :
  nonneg_finite (exp v) -> unit_repr (Sigmoid exp v).
Proof.
  unfold Sigmoid. intros [->|(m & e & -> & Hvalid)]; [now left|].
  unfold F32.valid, valid_binary, bounded, canonical_mantissa in Hvalid.
  apply andb_true_iff in Hvalid as [Hcanon _]. apply Z.eqb_eq in Hcanon.
  unfold F32.add. rewrite one_eq.
  destruct (SFadd_above F32.prec F32.emax ltac:(reflexivity) 8388608 (-23) m e Hcanon)
    as [->|(md & ed & -> & Hle)].
  - now left.
  - now apply div_unit_repr.
Qed.

(** ** Sums that do not fall below 1 *)

Section Floor.
Variables prec emax : Z.
Hypothesis Hprec : 0 < prec.

(** Rounding a positive mantissa yields +0, a positive float or plus
    infinity. *)
Lemma round_sign mx ex lx :
  0 <= mx ->
  nonneg_or_inf (binary_round_aux prec emax false mx ex lx).
Proof.
  intros Hm.
  destruct (binary_round_aux_spec prec emax false mx ex lx Hm) as (m1 & Hm1 & ->).
  cbv zeta in Hm1 |- *.
  set (k1 := Z.max (fexp prec emax (Zdigits2 mx + ex) - ex) 0) in *.
  set (k2 := Z.max _ 0).
  assert (H1 : 0 <= m1).
  { assert (0 <= mx / 2 ^ k1) by (apply Z.div_pos; [lia|apply Z.pow_pos_nonneg; lia]).
    destruct Hm1 as [->|[-> _]]; lia. }
  assert (H2 : 0 <= m1 / 2 ^ k2)
    by (apply Z.div_pos; [lia|apply Z.pow_pos_nonneg; lia]).
  destruct (m1 / 2 ^ k2) as [|p|p]; [right; now left| |lia].
  destruct (_ <=? _); [right; right; eauto|now left].
Qed.

(** The value carried by an aligned mantissa. *)
Lemma shl_align_value mx ex ex' :
  (IZR (Z.pos (fst (shl_align mx ex ex'))) * pow2 (snd (shl_align mx ex ex'))
   = IZR (Z.pos mx) * pow2 ex)%R.
Proof.
  destruct (shl_align_spec mx ex ex') as [-> ->].
  rewrite IZR_shift by lia. f_equal. f_equal. lia.
Qed.

(** Rounding to the format never falls below a float of the format. *)
Lemma binary_round_floor m e mx ex :
  0 < m -> fexp prec emax (Zdigits2 m + e) = e ->
  (IZR m * pow2 e <= IZR (Z.pos mx) * pow2 ex)%R ->
  binary_round prec emax false mx ex = S754_infinity false
  \/ exists md ed,
       binary_round prec emax false mx ex = S754_finite false md ed
       /\ (IZR m * pow2 e <= IZR (Z.pos md) * pow2 ed)%R.
Proof.
  intros Hm Hcanon Hle. unfold binary_round.
  pose proof (shl_align_value mx ex (fexp prec emax (Z.pos (digits2_pos mx) + ex))) as Hv.
  destruct (shl_align mx ex _) as [mz ez]. cbn [fst snd] in Hv.
  destruct (binary_round_aux_above prec emax Hprec m e (Z.pos mz) ez loc_Exact)
    as [->|(md & ed & -> & Hd)]; try assumption; try lia.
  - apply vle_R. lra.
  - now left.
  - right. exists md, ed. split; [reflexivity|]. now apply vle_R.
Qed.

(** The sum of two positive floats is +0, positive or infinite, and never
    falls below a float of the format that their exact sum reaches. *)
Lemma SFadd_floor mx ex my ey :
  nonneg_or_inf (SFadd prec emax (S754_finite false mx ex) (S754_finite false my ey))
  /\ forall m e,
       0 < m -> fexp prec emax (Zdigits2 m + e) = e ->
       (IZR m * pow2 e <= IZR (Z.pos mx) * pow2 ex + IZR (Z.pos my) * pow2 ey)%R ->
       SFadd prec emax (S754_finite false mx ex) (S754_finite false my ey)
       = S754_infinity false
       \/ exists md ed,
            SFadd prec emax (S754_finite false mx ex) (S754_finite false my ey)
            = S754_finite false md ed
            /\ (IZR m * pow2 e <= IZR (Z.pos md) * pow2 ed)%R.
Proof.
  unfold SFadd. cbn [cond_Zopp].
  set (ez := Z.min ex ey).
  pose proof (shl_align_value mx ex ez) as Ha.
  pose proof (shl_align_value my ey ez) as Hb.
  destruct (shl_align_spec mx ex ez) as [Ea _].
  destruct (shl_align_spec my ey ez) as [Eb _].
  rewrite Ea in Ha. rewrite Eb in Hb.
  replace (Z.min ex ez) with ez in Ha by (unfold ez; lia).
  replace (Z.min ey ez) with ez in Hb by (unfold ez; lia).
  set (a := fst (shl_align mx ex ez)) in *.
  set (b := fst (shl_align my ey ez)) in *.
  change (Z.pos a + Z.pos b) with (Z.pos (a + b)).
  cbn [binary_normalize]. split.
  - unfold binary_round.
    destruct (shl_align (a + b) ez _) as [mz ez2]. apply round_sign. lia.
  - intros m e Hm Hcanon Hle. apply binary_round_floor; try assumption.
    rewrite Pos2Z.inj_add, plus_IZR. lra.
Qed.
End Floor.

Lemma one_binary64 :
  fexp F64.prec F64.emax (Zdigits2 (2 ^ 52) + -52) = -52
  /\ (IZR (2 ^ 52) * pow2 (-52) = 1)%R.
Proof.
  split; [reflexivity|].
  rewrite (pow2_IZR 52), <- pow2_add by lia. apply pow2_0.
Qed.

Lemma one_binary32 :
  fexp F32.prec F32.emax (Zdigits2 (2 ^ 23) + -23) = -23
  /\ (IZR (2 ^ 23) * pow2 (-23) = 1)%R.
Proof.
  split; [reflexivity|].
  rewrite (pow2_IZR 23), <- pow2_add by lia. apply pow2_0.
Qed.

Lemma B2R_pos_finite m e : B2R (S754_finite false m e) = (IZR (Z.pos m) * pow2 e)%R.
Proof. cbn [B2R]. ring. Qed.

(** One addition of the accumulator. *)
Lemma accumulate_step acc y :
  nonneg_or_inf acc -> nonneg y ->
  nonneg_or_inf (F64.add acc y)
  /\ (at_least_one acc \/ (1 <= B2R y)%R -> at_least_one (F64.add acc y)).
Proof.
  intros Hacc Hy. unfold F64.add.
  destruct Hacc as [->|[->|(ma & ea & ->)]].
  - (* infinity *)
    destruct Hy as [->|(my & ey & ->)]; cbn [SFadd]; split; intros; now left.
  - (* +0 *)
    destruct Hy as [->|(my & ey & ->)]; cbn [SFadd].
    + split; [right; now left|].
      intros [[H|(m & e & H & _)]|H]; try discriminate. cbn in H. lra.
    + split; [right; right; eauto|].
      intros [[H|(m & e & H & _)]|H]; try discriminate.
      right. eauto.
  - (* a positive float *)
    destruct Hy as [->|(my & ey & ->)]; cbn [SFadd].
    + split; [right; right; eauto|].
      intros [H|H]; [assumption|]. cbn in H. lra.
    + destruct (SFadd_floor F64.prec F64.emax ltac:(reflexivity) ma ea my ey)
        as [Hs Hf].
      unfold SFadd in Hs, Hf. split; [exact Hs|].
      intros H. destruct one_binary64 as [Hc H1].
      assert (Hle : (IZR (2 ^ 52) * pow2 (-52)
                     <= IZR (Z.pos ma) * pow2 ea + IZR (Z.pos my) * pow2 ey)%R).
      { rewrite H1.
        pose proof (B2R_finite_pos ma ea) as Hpa. pose proof (B2R_finite_pos my ey) as Hpy.
        rewrite B2R_pos_finite in Hpa, Hpy.
        destruct H as [[H|(m & e & H & Hv)]|H]; [discriminate| |].
        - rewrite B2R_pos_finite in Hv. lra.
        - rewrite B2R_pos_finite in H. lra. }
      destruct (Hf (2 ^ 52) (-52) ltac:(lia) Hc Hle) as [->|(md & ed & -> & Hd)];
        [now left|].
      right. exists md, ed. split; [reflexivity|].
      rewrite B2R_pos_finite. lra.
Qed.

(** The binary64 sum of floats of [0, 1] holds at least 1 once a 1.0 has
    been added, unless it overflows. *)
Lemma accumulate_floor es : forall acc,
  nonneg_or_inf acc -> Forall unit_float es ->
  nonneg_or_inf (accumulate acc es)
  /\ (at_least_one acc \/ F32.one ∈ es -> at_least_one (accumulate acc es)).
Proof.
  induction es as [|x es IH]; intros acc Hacc Hes.
  - cbn. split; [assumption|]. intros [H|H]; [assumption|].
    now apply elem_of_nil in H.
  - apply Forall_cons in Hes as [Hx Hes]. cbn [accumulate fold_left].
    destruct (of_float_value x (proj1 Hx)) as [Hnn Hv].
    destruct (accumulate_step acc (F64.of_float x) Hacc Hnn) as [H1 H2].
    destruct (IH _ H1 Hes) as [H3 H4]. split; [exact H3|].
    intros H. apply H4. destruct H as [H|H].
    + left. apply H2. now left.
    + apply elem_of_cons in H as [<-|H]; [|now right].
      left. apply H2. right. rewrite Hv.
      rewrite one_eq, B2R_pos_finite.
      destruct one_binary32 as [_ E]. change (Z.pos 8388608) with (2 ^ 23). lra.
Qed.

(** The divisor of [Softmax]: at least 1, or infinite. *)
Lemma exptot_floor es :
  Forall unit_float es -> F32.one ∈ es ->
  at_least_one (F32.of_double (accumulate F64.zero es)).
Proof.
  intros Hes Hone.
  destruct (accumulate_floor es F64.zero) as [_ H]; [right; now left|assumption|].
  destruct (H (or_intror Hone)) as [->|(m & e & -> & Hv)]; [now left|].
  cbn [F32.of_double]. rewrite B2R_pos_finite in Hv.
  destruct one_binary32 as [Hc H1].
  destruct (binary_round_floor F32.prec F32.emax ltac:(reflexivity) (2 ^ 23) (-23) m e)
    as [->|(md & ed & -> & Hd)]; try assumption; try lia; try lra.
  - now left.
  - right. exists md, ed. split; [reflexivity|]. rewrite B2R_pos_finite. lra.
Qed.

(** A float of [0, 1] divided by a float that is at least 1. *)
Lemma div_by_floor e t :
  unit_float e -> at_least_one t -> unit_repr (F32.div e t).
Proof.
  intros [Hnn Hle] Ht.
  destruct Hnn as [->|(m & ex & -> & _)];
    destruct Ht as [->|(mt & et & -> & Hv)]; try (now left).
  apply div_unit_repr, vle_R. rewrite !B2R_pos_finite in *. lra.
Qed.

(** The outputs of [Softmax] on finite inputs. *)
Lemma Softmax_unit_repr exp values dist :
  Forall (fun x => F32.is_finite x = true) values ->
  exp F32.zero = F32.one ->
  (forall x m, x ∈ values -> m ∈ values -> F32.ltb m x = false ->
     unit_float (exp (F32.sub x m))) ->
  Softmax exp values = Some dist ->
  Forall unit_repr dist.
Proof.
  intros Hfin H0 Hexp H. unfold Softmax in H.
  destruct (max_element values) as [imax|] eqn:Himax; [|discriminate].
  cbn [mbind option_bind] in H.
  destruct (values !! imax) as [max_val|] eqn:Hmax; [|discriminate].
  cbn [mbind option_bind] in H. injection H as <-.
  pose proof (max_element_spec _ _ Himax) as (q & Hq & Hge & _).
  rewrite Hmax in Hq. injection Hq as <-.
  assert (Hin : max_val ∈ values) by (eapply list_elem_of_lookup_2; eassumption).
  set (es := map (fun x => exp (F32.sub x max_val)) values).
  assert (Hes : Forall unit_float es).
  { unfold es. apply Forall_map, Forall_forall. intros x Hx. cbn.
    apply list_elem_of_lookup in Hx as [j Hj].
    apply Hexp; [eapply list_elem_of_lookup_2; eassumption|assumption|].
    eapply Hge; eassumption. }
  assert (Hone : F32.one ∈ es).
  { unfold es. apply list_elem_of_fmap. exists max_val. split; [|assumption].
    rewrite sub_self, H0; [reflexivity|].
    rewrite Forall_forall in Hfin. now apply Hfin. }
  pose proof (exptot_floor es Hes Hone) as Ht. unfold accumulate in Ht.
  apply Forall_map, Forall_forall. intros e He. cbn.
  apply div_by_floor; [|exact Ht].
  rewrite Forall_forall in Hes. now apply Hes.
Qed.

(** X18. On finite inputs every output of [Softmax] lies in [0, 1],
    whatever the length of the vector: each exponential is at most 1, the
    sum holds the 1.0 of the maximum and is never rounded below it, and
    when the sum overflows the outputs are 0.  [exp] is assumed to return
    1.0 at 0 and a float of [0, 1] on the differences that are not
    positive. *)
Theorem Softmax_unit_interval exp values dist :
  Forall (fun x => F32.is_finite x = true) values ->
  exp F32.zero = F32.one ->
  (forall x m, x ∈ values -> m ∈ values -> F32.ltb m x = false ->
     unit_float (exp (F32.sub x m))) ->
  Softmax exp values = Some dist ->
  Forall (fun p => F32.leb F32.zero p = true /\ F32.leb p F32.one = true) dist.
Proof.
  intros Hfin H0 Hexp H.
  eapply Forall_impl; [eapply Softmax_unit_repr; eassumption|].
  intros p Hp. now apply unit_repr_leb.
Qed.

Lemma Softmax_unit_interval_witness :
  exists dist,
    Softmax Libm.exp sample_logits = Some dist
    /\ Forall (fun p => F32.leb F32.zero p = true /\ F32.leb p F32.one = true) dist.
Proof.
  destruct (Softmax Libm.exp sample_logits) as [dist|] eqn:E;
    [|vm_compute in E; discriminate E].
  exists dist. split; [reflexivity|].
  apply (Softmax_unit_interval Libm.exp sample_logits dist).
  - repeat constructor.
  - reflexivity.
  - intros x m Hx Hm Hlt. apply check_unit_sound. revert Hlt.
    unfold sample_logits in Hx, Hm.
    repeat (apply elem_of_cons in Hx as [->|Hx]);
      try (now apply elem_of_nil in Hx);
      repeat (apply elem_of_cons in Hm as [->|Hm]);
      try (now apply elem_of_nil in Hm);
      vm_compute; intros; (reflexivity || discriminate).
  - exact E.
Defined.

Lemma at_index_elem {A} (l : list A) i v : at_index l i = Some v -> v ∈ l.
Proof.
  unfold at_index. destruct (i <? 0); [discriminate|]. apply list_elem_of_lookup_2.
Qed.

Lemma mapM_elem {A B} (f : A -> option B) l k y :
  mapM f l = Some k -> y ∈ k -> exists a, a ∈ l /\ f a = Some y.
Proof.
  intros H Hy. apply mapM_Some in H. apply list_elem_of_lookup in Hy as [i Hi].
  destruct (Forall2_lookup_r _ _ _ _ _ H Hi) as (a & Ha & Hf).
  exists a. split; [|assumption]. eapply list_elem_of_lookup_2; eassumption.
Qed.

(** The class probabilities of an anchor of a finite tensor. *)
Lemma class_probabilities_unit exp cfg tensor cy cx b logits dist :
  Forall (fun v => F32.is_finite v = true) tensor ->
  exp F32.zero = F32.one ->
  (forall x m, x ∈ tensor -> m ∈ tensor -> F32.ltb m x = false ->
     unit_float (exp (F32.sub x m))) ->
  mapM (fun i => field cfg tensor cy cx b (5 + i)) (seqZ 0 (CLASS_COUNT cfg))
  = Some logits ->
  Softmax exp logits = Some dist ->
  Forall unit_repr dist.
Proof.
  intros Hfin H0 Hexp Hlog Hsoft.
  assert (Hsub : forall v, v ∈ logits -> v ∈ tensor).
  { intros v Hv. destruct (mapM_elem _ _ _ _ Hlog Hv) as (i & _ & Hi).
    unfold field in Hi. eapply at_index_elem; eassumption. }
  apply (Softmax_unit_repr exp logits dist); try assumption.
  - apply Forall_forall. intros v Hv. rewrite Forall_forall in Hfin.
    apply Hfin. now apply Hsub.
  - intros x m Hx Hm. apply Hexp; now apply Hsub.
Qed.

(** X19. Every score that [GetRecognizedObjects] emits lies in [0, 1] when
    the tensor is finite and [exp] neither overflows nor returns a NaN at
    the objectness logits: the score is the product of a class probability
    and of the objectness, both in [0, 1].  [exp] is assumed to return 1.0
    at 0 and a float of [0, 1] on the differences of entries that are not
    positive. *)
Theorem emitted_score_unit exp cfg tensor threshold out box :
  cfg_ok cfg ->
  Forall (fun v => F32.is_finite v = true) tensor ->
  exp F32.zero = F32.one ->
  (forall x m, x ∈ tensor -> m ∈ tensor -> F32.ltb m x = false ->
     unit_float (exp (F32.sub x m))) ->
  (forall cy cx b tc,
     0 <= cy < ROW_COUNT cfg -> 0 <= cx < COL_COUNT cfg ->
     0 <= b < BOXES_PER_CELL cfg ->
     field cfg tensor cy cx b 4 = Some tc -> nonneg_finite (exp tc)) ->
  GetRecognizedObjects exp cfg tensor threshold = Some out ->
  box ∈ out ->
  F32.leb F32.zero (confidence box) = true
  /\ F32.leb (confidence box) F32.one = true.
Proof.
  intros Hok Hfin H0 Hexp Hobj H Hin. rewrite decode_refines in H by assumption.
  destruct (decode_elem _ _ _ _ _ _ H Hin) as ([[cy cx] b] & Ha & Hd).
  apply elem_of_scan_order in Ha as (Hcy & Hcx & Hb).
  apply detect_inv in Hd
    as (tx & ty & tw & th & tc & aw & ah & logits & dist & top & p & Hd).
  destruct Hd as (_ & _ & _ & _ & Htc & _ & _ & _ & Hlog & Hsoft & _ & Hp & _ & _
                  & _ & _ & _ & _ & ->).
  apply in_unit_leb, mul_unit_repr.
  - pose proof (class_probabilities_unit exp cfg tensor cy cx b logits dist
                  Hfin H0 Hexp Hlog Hsoft) as Hd.
    rewrite Forall_forall in Hd. apply Hd. eapply list_elem_of_lookup_2; eassumption.
  - apply Sigmoid_unit_repr. eapply Hobj; eassumption.
Qed.

Lemma emitted_score_unit_witness :
  exists out,
    GetRecognizedObjects Libm.exp three_class (zeros 8) F32.zero = Some out
    /\ three_class_box ∈ out
    /\ F32.leb F32.zero (confidence three_class_box) = true
    /\ F32.leb (confidence three_class_box) F32.one = true.
Proof.
  assert (H : GetRecognizedObjects Libm.exp three_class (zeros 8) F32.zero
              = Some [three_class_box]) by (vm_compute; reflexivity).
  assert (Hin : three_class_box ∈ [three_class_box]) by (apply elem_of_cons; now left).
  assert (Hz : forall v, v ∈ zeros 8 -> v = F32.zero).
  { intros v Hv. apply list_elem_of_lookup in Hv as [i Hi].
    now apply lookup_zeros in Hi. }
  exists [three_class_box]. split; [exact H|]. split; [exact Hin|].
  apply (emitted_score_unit Libm.exp three_class (zeros 8) F32.zero
           [three_class_box] three_class_box).
  - exact (check_cfg_sound three_class eq_refl).
  - apply Forall_forall. intros v Hv. now rewrite (Hz v Hv).
  - reflexivity.
  - intros x m Hx Hm _. rewrite (Hz x Hx), (Hz m Hm).
    apply check_unit_sound. vm_compute. reflexivity.
  - intros cy cx b tc _ _ _ Htc. unfold field in Htc.
    apply at_index_elem in Htc. rewrite (Hz tc Htc).
    right. exists 8388608%positive, (-23). split; reflexivity.
  - exact H.
  - exact Hin.
Defined.

(** ** A threshold that is not positive *)

Lemma ltb_below t s :
  F32.leb t F32.zero = true -> F32.leb F32.zero s = true -> F32.ltb s t = false.
Proof.
  unfold F32.zero, F32.leb, F32.ltb, SFleb, SFltb, SFcompare.
  destruct t as [[]|[]| |[] ? ?]; destruct s as [[]|[]| |[] ? ?];
    intros; try reflexivity; try discriminate.
Qed.

Section Passing.
Variable exp : float -> float.
Variable cfg : Config.
Hypothesis Hok : cfg_ok cfg.

(** An anchor is emitted when its objectness and the product with its top
    class probability both pass the threshold. *)
Lemma detect_passing_dist tensor threshold cy cx b tc :
  tensor_length cfg <= Z.of_nat (length tensor) ->
  0 <= cy < ROW_COUNT cfg -> 0 <= cx < COL_COUNT cfg ->
  0 <= b < BOXES_PER_CELL cfg ->
  field cfg tensor cy cx b 4 = Some tc ->
  F32.ltb (Sigmoid exp tc) threshold = false ->
  (forall logits dist p,
     mapM (fun i => field cfg tensor cy cx b (5 + i)) (seqZ 0 (CLASS_COUNT cfg))
     = Some logits ->
     Softmax exp logits = Some dist -> p ∈ dist ->
     F32.ltb (F32.mul p (Sigmoid exp tc)) threshold = false) ->
  exists box, Spec.detect exp cfg tensor threshold (cy, cx, b) = Some (Some box).
Proof.
  intros Hlen Hcy Hcx Hb Htc H1 H2. rewrite detect_fields.
  pose proof (ok_classes _ Hok) as HC.
  destruct (field_is_Some cfg Hok tensor cy cx b 0) as [tx ->]; try (assumption || lia).
  destruct (field_is_Some cfg Hok tensor cy cx b 1) as [ty ->]; try (assumption || lia).
  destruct (field_is_Some cfg Hok tensor cy cx b 2) as [tw ->]; try (assumption || lia).
  destruct (field_is_Some cfg Hok tensor cy cx b 3) as [th ->]; try (assumption || lia).
  rewrite Htc.
  pose proof (ok_anchors _ Hok) as Ha.
  destruct (at_index_is_Some (anchors cfg) (2 * b)) as [aw ->]; [lia|].
  destruct (at_index_is_Some (anchors cfg) (2 * b + 1)) as [ah ->]; [lia|].
  cbn. rewrite H1.
  assert (Hl : is_Some (mapM (fun i => field cfg tensor cy cx b (5 + i))
                          (seqZ 0 (CLASS_COUNT cfg)))).
  { apply mapM_is_Some, Forall_forall. intros i Hi. apply elem_of_seqZ in Hi.
    cbn. apply (field_is_Some cfg Hok); (assumption || lia). }
  destruct Hl as [logits Hl]. rewrite Hl. cbn.
  pose proof (length_mapM _ _ _ Hl) as Hlen'. rewrite length_seqZ in Hlen'.
  assert (Hne : logits <> []) by (intros ->; cbn in Hlen'; lia).
  destruct (Softmax_is_Some exp logits Hne) as [dist Hd]. rewrite Hd. cbn.
  pose proof (Softmax_length _ _ _ Hd) as Hdl.
  assert (Hdne : dist <> [])
    by (intros ->; cbn in Hdl; destruct logits; [congruence|discriminate]).
  destruct (max_element_is_Some dist Hdne) as [top Ht]. rewrite Ht. cbn.
  pose proof (max_element_lt _ _ Ht) as Hlt.
  destruct (lookup_lt_is_Some_2 dist top Hlt) as [p Hp]. rewrite Hp. cbn.
  rewrite (H2 logits dist p Hl Hd) by (eapply list_elem_of_lookup_2; eassumption).
  destruct (lookup_lt_is_Some_2 (labels cfg) top) as [lbl ->];
    [pose proof (ok_labels _ Hok); lia|].
  cbn. eauto.
Qed.
End Passing.

(** X20. A threshold that is zero or negative filters nothing on a finite
    tensor at whose objectness logits [exp] neither overflows nor returns a
    NaN: objectness and score are never negative, and every anchor of
    every cell is emitted, rows * cols * boxesPerCell boxes in all.  [exp]
    is assumed to return 1.0 at 0 and a float of [0, 1] on the differences
    of entries that are not positive. *)
Theorem nonpositive_threshold_emits_all exp cfg tensor threshold :
  cfg_ok cfg ->
  tensor_length cfg <= Z.of_nat (length tensor) ->
  Forall (fun v => F32.is_finite v = true) tensor ->
  exp F32.zero = F32.one ->
  (forall x m, x ∈ tensor -> m ∈ tensor -> F32.ltb m x = false ->
     unit_float (exp (F32.sub x m))) ->
  (forall cy cx b tc,
     0 <= cy < ROW_COUNT cfg -> 0 <= cx < COL_COUNT cfg ->
     0 <= b < BOXES_PER_CELL cfg ->
     field cfg tensor cy cx b 4 = Some tc -> nonneg_finite (exp tc)) ->
  F32.leb threshold F32.zero = true ->
  exists out,
    GetRecognizedObjects exp cfg tensor threshold = Some out
    /\ Z.of_nat (length out)
       = ROW_COUNT cfg * COL_COUNT cfg * BOXES_PER_CELL cfg.
Proof.
  intros Hok Hlen Hfin H0 Hexp Hobj Ht. rewrite decode_refines by assumption.
  destruct (decode_is_Some exp cfg Hok tensor threshold Hlen) as [out Hout].
  exists out. split; [assumption|].
  apply decode_Some_inv in Hout as (ds & Hds & ->).
  assert (Hall : Forall (fun d : option YoloBox => is_Some d) ds).
  { apply mapM_Some in Hds. apply Forall_forall. intros d Hd.
    apply list_elem_of_lookup in Hd as [i Hi].
    destruct (Forall2_lookup_r _ _ _ _ _ Hds Hi) as ([[cy cx] b] & Ha & Hd).
    apply list_elem_of_lookup_2, elem_of_scan_order in Ha as (Hcy & Hcx & Hb).
    destruct (field_is_Some cfg Hok tensor cy cx b 4) as [tc Htc];
      try (assumption || (pose proof (ok_classes _ Hok); lia)).
    pose proof (Sigmoid_unit_repr exp tc (Hobj cy cx b tc Hcy Hcx Hb Htc)) as Hs.
    destruct (detect_passing_dist exp cfg Hok tensor threshold cy cx b tc)
      as (box & Hbox); try assumption.
    - apply ltb_below; [assumption|]. now apply unit_repr_leb.
    - intros logits dist p Hlog Hsoft Hp.
      pose proof (class_probabilities_unit exp cfg tensor cy cx b logits dist
                    Hfin H0 Hexp Hlog Hsoft) as Hd'.
      rewrite Forall_forall in Hd'.
      apply ltb_below; [assumption|].
      apply in_unit_leb, mul_unit_repr; [now apply Hd'|assumption].
    - rewrite Hbox in Hd. injection Hd as <-. eauto. }
  assert (Hlen' : length (omap (fun d : option YoloBox => d) ds) = length ds).
  { clear Hds. induction Hall as [|d ds [box ->] _ IH]; [reflexivity|].
    cbn. now rewrite IH. }
  rewrite Hlen'. apply length_mapM in Hds. rewrite <- Hds.
  apply scan_order_size; apply Hok.
Qed.

Lemma nonpositive_threshold_emits_all_witness :
  exists out,
    GetRecognizedObjects Libm.exp yolo yolo_zeros F32.zero = Some out
    /\ Z.of_nat (length out) = 13 * 13 * 5.
Proof.
  assert (Hz : forall v, v ∈ yolo_zeros -> v = F32.zero).
  { intros v Hv. apply list_elem_of_lookup in Hv as [i Hi].
    now apply lookup_zeros in Hi. }
  apply (nonpositive_threshold_emits_all Libm.exp yolo yolo_zeros F32.zero).
  - exact (check_cfg_sound yolo eq_refl).
  - vm_compute. discriminate.
  - apply Forall_forall. intros v Hv. now rewrite (Hz v Hv).
  - reflexivity.
  - intros x m Hx Hm _. rewrite (Hz x Hx), (Hz m Hm).
    apply check_unit_sound. vm_compute. reflexivity.
  - intros cy cx b tc _ _ _ Htc. unfold field in Htc.
    apply at_index_elem in Htc. rewrite (Hz tc Htc).
    right. exists 8388608%positive, (-23). split; reflexivity.
  - reflexivity.
Defined.
